(** * Index lowering and pointwise scheduling of the CUDA fuser

    A shallow embedding of
    - [torch/csrc/jit/codegen/cuda/lower_index.cpp] (the [IndexLowering] pass),
    - [torch/csrc/jit/codegen/cuda/scheduler/pointwise.cpp]
      ([getPointwiseHeuristics]),
    together with the properties of the buffer sizing, the reduction lowering
    state machine and the break-point search. *)

From Stdlib Require Import ZArith List String Bool Lia.
Import ListNotations.
Local Open Scope Z_scope.
Local Open Scope list_scope.
#[local] Set Warnings "-register-all".

(** ** Iteration domains *)

Module IR.

(** Modelled from the spec: the parallel-type tags of an IterDomain (the enum
    itself lives in type.h, which is not part of the sources). *)
Inductive ParallelType : Type :=
| BIDz | BIDy | BIDx
| TIDz | TIDy | TIDx
| Vectorize | Unroll | Unswitch | Mma | Serial.

Definition ParallelType_eqb (a b : ParallelType) : bool :=
  match a, b with
  | BIDz, BIDz | BIDy, BIDy | BIDx, BIDx
  | TIDz, TIDz | TIDy, TIDy | TIDx, TIDx
  | Vectorize, Vectorize | Unroll, Unroll | Unswitch, Unswitch
  | Mma, Mma | Serial, Serial => true
  | _, _ => false
  end.

(** Modelled from the spec: block-identifier (grid) dimensions. *)
Definition isParallelTypeBlockDim (pt : ParallelType) : bool :=
  match pt with BIDx | BIDy | BIDz => true | _ => false end.

(** Modelled from the spec: thread-identifier dimensions of a block. *)
Definition isParallelTypeThreadDim (pt : ParallelType) : bool :=
  match pt with TIDx | TIDy | TIDz => true | _ => false end.

(** Modelled from the spec: an axis is thread-mapped when it is bound to a
    block or a thread dimension. *)
Definition isParallelTypeThread (pt : ParallelType) : bool :=
  isParallelTypeBlockDim pt || isParallelTypeThreadDim pt.

(** Modelled from the spec: the block and thread dimensions, and the block
    dimensions, in the order the size helpers visit them (type.h). *)
Definition kParallelTypeThreads : list ParallelType :=
  [BIDx; BIDy; BIDz; TIDx; TIDy; TIDz].

Definition kParallelTypeBIDs : list ParallelType := [BIDx; BIDy; BIDz].

(** A set of parallel types ([ParallelTypeBitmap]). *)
Definition ParallelTypeBitmap : Type := list ParallelType.

Definition bitmap_get (bm : ParallelTypeBitmap) (pt : ParallelType) : bool :=
  existsb (ParallelType_eqb pt) bm.

(** Integer and boolean scalar values of the IR: constants, named symbolic
    scalars and the arithmetic built over them by the IR builder. *)
Inductive Scalar : Type :=
| Int (z : Z)
| BoolVal (b : bool)
| NamedScalar (name : string)
| MulExpr (lhs rhs : Scalar)
| AddExpr (lhs rhs : Scalar)
| CeilDivExpr (lhs rhs : Scalar).

Definition isOneInt (v : Scalar) : bool :=
  match v with Int 1 => true | _ => false end.

Definition isZeroInt (v : Scalar) : bool :=
  match v with Int 0 => true | _ => false end.

Definition oneVal : Scalar := Int 1.
Definition zeroVal : Scalar := Int 0.
Definition trueVal : Scalar := BoolVal true.

(** ceilDiv of utils.h: [(a + b - 1) / b] with C++ truncating division. *)
Definition ceilDiv (a b : Z) : Z := Z.quot (a + b - 1) b.

(** Value of a scalar under a binding of the named scalars. *)
Fixpoint eval (env : string -> Z) (v : Scalar) : Z :=
  match v with
  | Int z => z
  | BoolVal b => if b then 1 else 0
  | NamedScalar n => env n
  | MulExpr a b => eval env a * eval env b
  | AddExpr a b => eval env a + eval env b
  | CeilDivExpr a b => ceilDiv (eval env a) (eval env b)
  end.

(** Modelled from the spec: [SimplifyingIrBuilder::mulExpr] is not part of the
    sources.  It builds the product of two scalars, dropping a constant one,
    collapsing on a constant zero and folding two constants. *)
Definition mulExpr (lhs rhs : Scalar) : Scalar :=
  match lhs, rhs with
  | _, Int 0 => zeroVal
  | _, Int 1 => lhs
  | Int a, Int b => Int (a * b)
  | Int 0, _ => zeroVal
  | Int 1, _ => rhs
  | _, _ => MulExpr lhs rhs
  end.

(** Modelled from the spec: [SimplifyingIrBuilder::addExpr] is not part of the
    sources.  It builds the sum of two scalars, dropping a constant zero and
    folding two constants. *)
Definition addExpr (lhs rhs : Scalar) : Scalar :=
  match lhs, rhs with
  | _, Int 0 => lhs
  | Int a, Int b => Int (a + b)
  | Int 0, _ => rhs
  | _, _ => AddExpr lhs rhs
  end.

Record IterDomain : Type := mkIterDomain {
  extent : Scalar;
  getParallelType : ParallelType;
  isReduction : bool;
  isBroadcast : bool
}.

Definition isThread (id : IterDomain) : bool :=
  isParallelTypeThread (getParallelType id).

Definition isThreadDim (id : IterDomain) : bool :=
  isParallelTypeThreadDim (getParallelType id).

Definition isBlockDim (id : IterDomain) : bool :=
  isParallelTypeBlockDim (getParallelType id).

(** The (leaf) domain of a tensor view. *)
Definition TensorDomain : Type := list IterDomain.

(** Modelled from the spec: a block reduction is a reduction axis bound to a
    thread dimension ([TensorDomain::hasBlockReduction] is not part of the
    sources). *)
Definition hasBlockReduction (td : TensorDomain) : bool :=
  existsb (fun id => isReduction id && isThreadDim id) td.

(** Modelled from the spec: a grid reduction is a reduction axis bound to a
    block (grid) dimension ([TensorDomain::hasGridReduction] is not part of
    the sources). *)
Definition hasGridReduction (td : TensorDomain) : bool :=
  existsb (fun id => isReduction id && isBlockDim id) td.

Inductive DataType : Type :=
| DT_Double | DT_Float | DT_Half | DT_Int | DT_Int32 | DT_Bool.

Record TensorView : Type := mkTensorView {
  tv_name : nat;
  tv_dtype : DataType;
  getMaybeRFactorDomain : TensorDomain;
  domain : TensorDomain
}.

(** Operands of expressions: scalars, tensor views, and the indexed tensor
    references ([kir::TensorIndex]) produced by lowering. *)
Inductive Val : Type :=
| ScalarVal (dt : DataType) (s : Scalar)
| TV (tv : TensorView)
| TensorIndex (view : TensorView) (indices : list Scalar).

Definition dtype (v : Val) : DataType :=
  match v with
  | ScalarVal dt _ => dt
  | TV tv => tv_dtype tv
  | TensorIndex tv _ => tv_dtype tv
  end.

Definition isScalar (v : Val) : bool :=
  match v with ScalarVal _ _ => true | _ => false end.

(** Header of a [kir::ForLoop].  [isTrivial] carries the result of
    [ForLoop::isTrivial()], whose definition (kernel_ir.cpp) is not part of
    the sources. *)
Record ForLoopHeader : Type := mkForLoop {
  iter_domain : IterDomain;
  index : Scalar;
  isTrivial : bool
}.

Inductive PredicateType : Type :=
| PT_Manual | PT_Inline | PT_ReductionWrite | PT_Unswitch | PT_Vectorize.

(** [kir::Predicate]: a manual predicate holds a boolean value; the other
    kinds are generated later from the expression they guard. *)
Record Predicate : Type := mkPredicate {
  ptype : PredicateType;
  value : option Scalar
}.

(** [IrBuilder::create<kir::Predicate>(kernel->trueVal())]. *)
Definition truePredicate : Predicate := mkPredicate PT_Manual (Some trueVal).

Inductive MemoryType : Type := Local | Shared | Global.

(** [kir::Allocate] of a buffer. *)
Record AllocateData : Type := mkAllocate {
  alloc_dtype : DataType;
  alloc_memory : MemoryType;
  alloc_size : Scalar;
  alloc_zero_init : bool
}.

(** Modelled from the spec: [ir_utils::allocGlobalBufferForGridComm] (not part
    of the sources) allocates a global-memory buffer of the given element
    count and type. *)
Definition allocGlobalBufferForGridComm
    (buffer_size : Scalar) (dt : DataType) (zero_init : bool) : AllocateData :=
  mkAllocate dt Global buffer_size zero_init.

End IR.

(** ** Expressions of the fusion and kernel IR *)

Module Kir.
Import IR.

Inductive UnaryOpType : Type := UOp_Set | UOp_Neg | UOp_Abs | UOp_Cast.
Inductive BinaryOpType : Type := BOp_Add | BOp_Mul | BOp_Max | BOp_Min.
Inductive TernaryOpType : Type := TOp_Where | TOp_Clamp.

Record ReductionOp : Type := mkReductionOp {
  getReductionOpType : BinaryOpType;
  rop_init : Val;
  rop_out : Val;
  rop_in : Val;
  rop_isAllreduce : bool;
  rop_predicate : option Predicate;
  rop_writePredicate : option Predicate
}.

(** One reduction of a grouped reduction: operator, initial value, output
    and input, as [GroupedReductionOp] keeps them index by index. *)
Record GroupedEntry : Type := mkGroupedEntry {
  ge_type : BinaryOpType;
  ge_init : Val;
  ge_output : Val;
  ge_input : Val
}.

Record GroupedReductionOp : Type := mkGroupedReductionOp {
  reductions : list GroupedEntry;
  grop_isAllreduce : bool;
  grop_predicate : option Predicate;
  grop_writePredicate : option Predicate
}.

Record WelfordOp : Type := mkWelfordOp {
  outAvg : Val; outVar : Val; outN : Val;
  initAvg : Val; initVar : Val; initN : Val;
  inAvg : Val; inVar : option Val; inN : Val;
  wop_isAllreduce : bool;
  wop_predicate : option Predicate;
  wop_writePredicate : option Predicate
}.

Record BroadcastOp : Type := mkBroadcastOp {
  bop_out : Val;
  bop_in : Val;
  getBroadcastDimFlags : list bool;
  bop_predicate : option Predicate
}.

(** The expressions handled and produced by the pass.  [kir::GridReduction]
    and [kir::GroupedGridReduction] extend the reduction they lower with the
    communication buffers; [kir::GridWelford] and [kir::GridBroadcast] wrap
    the indexed operation. *)
Inductive Expr : Type :=
| E_UnaryOp (op : UnaryOpType) (out inp : Val)
| E_BinaryOp (op : BinaryOpType) (out lhs rhs : Val)
| E_TernaryOp (op : TernaryOpType) (out in1 in2 in3 : Val)
| E_ViewAsScalar (out inp : Val) (vector_id : IterDomain)
                 (vindex : option Scalar)
| E_ReductionOp (rop : ReductionOp)
| E_GroupedReductionOp (grop : GroupedReductionOp)
| E_WelfordOp (wop : WelfordOp)
| E_MmaOp (out inA inB init : Val) (options : nat)
| E_BroadcastOp (bop : BroadcastOp)
| E_ForLoop (fl : ForLoopHeader) (body : list Expr)
| E_IfThenElse (pred : Predicate) (thenBody elseBody : list Expr)
| E_Allocate (a : AllocateData)
| E_BlockSync (war_sync : bool)
| E_GridSync (sync_dims : ParallelTypeBitmap) (sync_buffer : AllocateData)
| E_GridReduction (rop : ReductionOp)
                  (reduce_buffer sync_buffer : AllocateData)
                  (entrance_index entrances : Scalar)
                  (thread_predicate : ParallelTypeBitmap)
| E_GroupedGridReduction (grop : GroupedReductionOp)
                         (reduce_buffers : list AllocateData)
                         (sync_buffer : AllocateData)
                         (thread_predicate : ParallelTypeBitmap)
| E_GridWelford (welford_op : WelfordOp)
                (var_buffer avg_buffer n_buffer sync_buffer : AllocateData)
                (entrance_index entrances : Scalar)
                (thread_predicate : ParallelTypeBitmap)
                (predicate writePredicate : option Predicate)
| E_GridBroadcast (broadcast_op : BroadcastOp)
                  (broadcast_buffer sync_buffer : AllocateData)
                  (predicate : option Predicate)
| E_AllocateFusedReduction (grid_expr : Expr).

(** The scopes owned by a scope node. *)
Inductive ScopeSel : Type := InBody | InThen | InElse.

(** Splits a non-empty list into its front and its last element. *)
Fixpoint unsnoc {A : Type} (l : list A) : option (list A * A) :=
  match l with
  | [] => None
  | x :: r =>
      match unsnoc r with
      | None => Some ([], x)
      | Some (front, y) => Some (x :: front, y)
      end
  end.

(** [push_at path e scope] appends [e] to the scope reached from [scope] by
    following [path] through the last expression of each scope on the way.
    It is [None] when the path does not lead to a scope. *)
Fixpoint push_at (path : list ScopeSel) (e : Expr) (scope : list Expr)
  : option (list Expr) :=
  match path with
  | [] => Some (scope ++ [e])
  | sel :: rest =>
      match unsnoc scope with
      | Some (front, E_ForLoop fl body) =>
          match sel with
          | InBody =>
              match push_at rest e body with
              | Some body' => Some (front ++ [E_ForLoop fl body'])
              | None => None
              end
          | _ => None
          end
      | Some (front, E_IfThenElse p thenBody elseBody) =>
          match sel with
          | InThen =>
              match push_at rest e thenBody with
              | Some t' => Some (front ++ [E_IfThenElse p t' elseBody])
              | None => None
              end
          | InElse =>
              match push_at rest e elseBody with
              | Some e' => Some (front ++ [E_IfThenElse p thenBody e'])
              | None => None
              end
          | InBody => None
          end
      | _ => None
      end
  end.

(** The scope a path leads to, when it leads to one. *)
Fixpoint scope_at (path : list ScopeSel) (scope : list Expr)
  : option (list Expr) :=
  match path with
  | [] => Some scope
  | sel :: rest =>
      match unsnoc scope with
      | Some (_, E_ForLoop _ body) =>
          match sel with InBody => scope_at rest body | _ => None end
      | Some (_, E_IfThenElse _ thenBody elseBody) =>
          match sel with
          | InThen => scope_at rest thenBody
          | InElse => scope_at rest elseBody
          | InBody => None
          end
      | _ => None
      end
  end.

End Kir.

(** ** The index lowering pass *)

Module Lower.
Import IR Kir.

(** The parts of the lowering context ([GpuLower::current()]) and of the
    index computation ([Index]) the pass reads.  Their definitions are not
    part of the sources, so the pass is parametric in them. *)
Record GpuLower : Type := mkGpuLower {
  parallelDimensionMap : ParallelType -> option Scalar;
  getPredicatedParallelTypes : TensorView -> ParallelTypeBitmap;
  getParallelBroadcastDomains : TensorView -> ParallelTypeBitmap;
  areMappedLoop : IterDomain -> IterDomain -> bool;
  getProducerIndex :
    TensorView -> TensorView -> list ForLoopHeader -> list Scalar;
  getConsumerIndex : TensorView -> list ForLoopHeader -> list Scalar;
  isTrivialIterDomain : IterDomain -> bool
}.

(** State of the pass.  [active_scope_] is the path from the last top-level
    expression to the scope being filled; the empty path stands for the null
    pointer, that is for the top-level list itself. *)
Record IndexLowering : Type := mkIndexLowering {
  lowered_exprs_ : list Expr;
  active_scope_ : list ScopeSel;
  for_loops_ : list ForLoopHeader
}.

Definition Result (A : Type) : Type := (string + A)%type.

(** Computations of the pass: a failed assertion leaves the state as it was
    when the assertion was reached and stops the computation. *)
Definition M (A : Type) : Type := IndexLowering -> Result A * IndexLowering.

Definition ret {A : Type} (a : A) : M A := fun st => (inr a, st).

Definition bind {A B : Type} (m : M A) (k : A -> M B) : M B :=
  fun st =>
    match m st with
    | (inr a, st') => k a st'
    | (inl err, st') => (inl err, st')
    end.

Definition throw {A : Type} (msg : string) : M A := fun st => (inl msg, st).

Definition TORCH_INTERNAL_ASSERT (cond : bool) (msg : string) : M unit :=
  if cond then ret tt else throw msg.

Definition lift {A : Type} (r : Result A) : M A :=
  match r with inr a => ret a | inl err => throw err end.

Definition gets {A : Type} (f : IndexLowering -> A) : M A :=
  fun st => (inr (f st), st).

Definition set_active_scope (p : list ScopeSel) : M unit :=
  fun st => (inr tt, mkIndexLowering (lowered_exprs_ st) p (for_loops_ st)).

Definition set_for_loops (l : list ForLoopHeader) : M unit :=
  fun st =>
    (inr tt, mkIndexLowering (lowered_exprs_ st) (active_scope_ st) l).

Definition set_lowered_exprs (l : list Expr) : M unit :=
  fun st => (inr tt, mkIndexLowering l (active_scope_ st) (for_loops_ st)).

Declare Scope lower_scope.
Delimit Scope lower_scope with lower.
Notation "x <- c1 ;; c2" := (bind c1 (fun x => c2))
  (at level 61, c1 at next level, right associativity) : lower_scope.
Notation "c1 ;; c2" := (bind c1 (fun _ => c2))
  (at level 61, right associativity) : lower_scope.
Local Open Scope lower_scope.

Definition rfactor_message : string :=
  "Found a reduction stage that has both a non-parallelized reduction and a grid reduction. This is not supported, please use rfactor to do the serialized reduction first, then the grid reduction."%string.

Definition rfactor_message_welford : string :=
  "Found a reduction stage that has both a non-parallelized reduction and a grid reduction.  This is not supported, please use rfactor to do the serialized reduction first, then the grid reduction."%string.

(** Product of the extents of the enclosing loops that are neither trivial
    nor bound to a thread or block dimension (the second loop of both size
    helpers and of [getEntranceCountGridReduce]). *)
Definition mulLoopExtents (buffer_size : Scalar)
    (for_loops : list ForLoopHeader) : Scalar :=
  fold_left
    (fun size fl =>
       if isTrivial fl then size
       else if isThread (iter_domain fl) then size
       else mulExpr size (extent (iter_domain fl)))
    for_loops buffer_size.

Definition usedByReductionOrBroadcast (td : TensorDomain)
    (pt : ParallelType) : bool :=
  existsb
    (fun out_id =>
       ParallelType_eqb (getParallelType out_id) pt &&
       (isReduction out_id || isBroadcast out_id))
    td.

Section Pass.

Variable current : GpuLower.

Definition getGridCommWorkBufferSize (td : TensorDomain)
    (for_loops : list ForLoopHeader) (expansion_factor : Z)
  : Result Scalar :=
  if expansion_factor <? 1 then inl "Invalid expansion factor"%string
  else
    let buffer_size :=
      if expansion_factor =? 1 then oneVal else Int expansion_factor in
    let buffer_size :=
      fold_left
        (fun size pt =>
           match parallelDimensionMap current pt with
           | None => size
           | Some pt_dim =>
               if isOneInt pt_dim then size
               else if isParallelTypeThreadDim pt &&
                       usedByReductionOrBroadcast td pt
               then size
               else mulExpr size pt_dim
           end)
        kParallelTypeThreads buffer_size in
    inr (mulLoopExtents buffer_size for_loops).

Definition getGridSyncBufferSize (td : TensorDomain)
    (for_loops : list ForLoopHeader) : Scalar :=
  let buffer_size :=
    fold_left
      (fun size pt =>
         match parallelDimensionMap current pt with
         | None => size
         | Some pt_dim =>
             if isOneInt pt_dim then size
             else if usedByReductionOrBroadcast td pt then size
             else mulExpr size pt_dim
         end)
      kParallelTypeBIDs oneVal in
  mulLoopExtents buffer_size for_loops.

Definition getEntranceCountGridReduce (for_loops : list ForLoopHeader)
  : Scalar :=
  mulLoopExtents oneVal for_loops.

Definition getEntranceLinIndGridReduce (for_loops : list ForLoopHeader)
  : Scalar :=
  fold_left
    (fun linear_index loop =>
       if isTrivial loop then linear_index
       else if isThread (iter_domain loop) then linear_index
       else addExpr (mulExpr linear_index (extent (iter_domain loop)))
                    (index loop))
    for_loops zeroVal.

Definition lowerSrcIndex (for_loops : list ForLoopHeader) (src dst : Val)
  : Result Val :=
  match src with
  | TV tv =>
      match dst with
      | TV dst_tv =>
          inr (TensorIndex tv (getProducerIndex current tv dst_tv for_loops))
      | _ => inl "dst->isA<TensorView>()"%string
      end
  | _ => inr src
  end.

Definition lowerDstIndex (for_loops : list ForLoopHeader) (dst : Val)
  : Val :=
  match dst with
  | TV tv => TensorIndex tv (getConsumerIndex current tv for_loops)
  | _ => dst
  end.

Definition pushBack (expr : Expr) : M unit :=
  fun st =>
    match push_at (active_scope_ st) expr (lowered_exprs_ st) with
    | Some l =>
        (inr tt, mkIndexLowering l (active_scope_ st) (for_loops_ st))
    | None => (inl "dangling active scope"%string, st)
    end.

(** [pushBack] of each expression of a list, in order. *)
Fixpoint pushBackAll (exprs : list Expr) : M unit :=
  match exprs with
  | [] => ret tt
  | e :: rest => pushBack e ;; pushBackAll rest
  end.

Definition insertAtTopLevel (expr : Expr) : M unit :=
  fun st =>
    match unsnoc (lowered_exprs_ st) with
    | Some (front, last) =>
        (inr tt,
         mkIndexLowering (front ++ [expr; last])
                         (active_scope_ st) (for_loops_ st))
    | None => (inl "!lowered_exprs_.empty()"%string, st)
    end.

Definition src (v dst : Val) : M Val :=
  loops <- gets for_loops_ ;; lift (lowerSrcIndex loops v dst).

Definition dst (v : Val) : M Val :=
  loops <- gets for_loops_ ;; ret (lowerDstIndex loops v).

(** The handlers also record the lowered expression in side tables of the
    lowering context ([GpuLower::propagateExprInfo]); those tables are not
    part of the state of the pass and are left out. *)

Definition handle_UnaryOp (op : UnaryOpType) (out inp : Val) : M unit :=
  i <- src inp out ;;
  o <- dst out ;;
  pushBack (E_UnaryOp op o i).

Definition handle_BinaryOp (op : BinaryOpType) (out lhs rhs : Val)
  : M unit :=
  l <- src lhs out ;;
  r <- src rhs out ;;
  o <- dst out ;;
  pushBack (E_BinaryOp op o l r).

Definition handle_TernaryOp (op : TernaryOpType) (out in1 in2 in3 : Val)
  : M unit :=
  i1 <- src in1 out ;;
  i2 <- src in2 out ;;
  i3 <- src in3 out ;;
  o <- dst out ;;
  pushBack (E_TernaryOp op o i1 i2 i3).

Definition handle_ViewAsScalar (out inp : Val) (vector_id : IterDomain)
  : M unit :=
  i <- src inp out ;;
  o <- dst out ;;
  loops <- gets for_loops_ ;;
  match
    find (fun loop => areMappedLoop current (iter_domain loop) vector_id)
         loops
  with
  | Some loop => pushBack (E_ViewAsScalar o i vector_id (Some (index loop)))
  | None => throw "Can not find index for vector dim"%string
  end.

(** The check of both grid reduction handlers: a reduction axis that is not
    bound to a thread or block dimension and whose extent is not the
    constant one. *)
Definition serialReductionAxis (id : IterDomain) : bool :=
  negb (isThread id) && isReduction id && negb (isOneInt (extent id)).

(** The check of the Welford handler: a reduction axis that is not bound to
    a thread or block dimension. *)
Definition serialReductionAxisWelford (id : IterDomain) : bool :=
  negb (isThread id) && isReduction id.

Definition is_within_a_loop (td : TensorDomain) : bool :=
  existsb (fun id => negb (isTrivialIterDomain current id)) td.

Definition handleBlockReduction (rop : ReductionOp) (out inp : Val)
  : M unit :=
  pushBack
    (E_ReductionOp
       (mkReductionOp (getReductionOpType rop) (rop_init rop) out inp
          (rop_isAllreduce rop) (rop_predicate rop)
          (rop_writePredicate rop))).

Definition handleGridReduction (rop : ReductionOp) (out inp : Val)
  : M unit :=
  match out with
  | TensorIndex out_tv _ =>
      let out_domain := domain out_tv in
      TORCH_INTERNAL_ASSERT (hasGridReduction out_domain)
        "out_domain->hasGridReduction()"%string ;;
      TORCH_INTERNAL_ASSERT
        (negb (existsb serialReductionAxis out_domain)) rfactor_message ;;
      let privatize_buffer := negb (rop_isAllreduce rop) in
      loops <- gets for_loops_ ;;
      work_size <-
        lift (getGridCommWorkBufferSize out_domain
                (if privatize_buffer then loops else [])
                (if rop_isAllreduce rop && is_within_a_loop out_domain
                 then 2 else 1)) ;;
      let reduce_buffer :=
        allocGlobalBufferForGridComm work_size (dtype out) false in
      let sync_buffer :=
        allocGlobalBufferForGridComm
          (getGridSyncBufferSize out_domain
             (if privatize_buffer then loops else []))
          DT_Int true in
      let entrance_ind :=
        if privatize_buffer then getEntranceLinIndGridReduce loops
        else zeroVal in
      let n_entrances :=
        if privatize_buffer then getEntranceCountGridReduce loops
        else oneVal in
      let thread_pred := getPredicatedParallelTypes current out_tv in
      let grid_reduction :=
        E_GridReduction
          (mkReductionOp (getReductionOpType rop) (rop_init rop) out inp
             (rop_isAllreduce rop) (rop_predicate rop)
             (rop_writePredicate rop))
          reduce_buffer sync_buffer entrance_ind n_entrances thread_pred in
      pushBack (E_Allocate reduce_buffer) ;;
      pushBack (E_Allocate sync_buffer) ;;
      pushBack grid_reduction ;;
      if rop_isAllreduce rop
      then insertAtTopLevel (E_AllocateFusedReduction grid_reduction)
      else ret tt
  | _ => throw "out->as<kir::TensorIndex>()"%string
  end.

Definition handle_ReductionOp (rop : ReductionOp) : M unit :=
  match rop_out rop with
  | TV out_tv =>
      let out_domain := domain out_tv in
      let has_block_reduce := hasBlockReduction out_domain in
      let has_grid_reduce := hasGridReduction out_domain in
      out <- dst (rop_out rop) ;;
      inp <- src (rop_in rop) (rop_out rop) ;;
      if has_grid_reduce then handleGridReduction rop out inp
      else if has_block_reduce then handleBlockReduction rop out inp
      else pushBack (E_BinaryOp (getReductionOpType rop) out out inp)
  | _ => throw "ir_utils::isTvOp(rop)"%string
  end.

(** [ir_utils::getTvOutput]: the first output that is a tensor. *)
Fixpoint getTvOutput (l : list GroupedEntry) : option TensorView :=
  match l with
  | [] => None
  | e :: r =>
      match ge_output e with
      | TV tv => Some tv
      | TensorIndex tv _ => Some tv
      | ScalarVal _ _ => getTvOutput r
      end
  end.

Fixpoint mapResult {A B : Type} (f : A -> Result B) (l : list A)
  : Result (list B) :=
  match l with
  | [] => inr []
  | a :: r =>
      match f a with
      | inl err => inl err
      | inr b =>
          match mapResult f r with
          | inl err => inl err
          | inr bs => inr (b :: bs)
          end
      end
  end.

(** Indexing of the outputs and inputs of a grouped reduction. *)
Definition indexEntry (for_loops : list ForLoopHeader) (e : GroupedEntry)
  : Result GroupedEntry :=
  let out := lowerDstIndex for_loops (ge_output e) in
  match lowerSrcIndex for_loops (ge_input e) (ge_output e) with
  | inl err => inl err
  | inr inp => inr (mkGroupedEntry (ge_type e) (ge_init e) out inp)
  end.

Definition handleBlockReduction_grouped (grouped_rop : GroupedReductionOp)
    (indexed : list GroupedEntry) : M unit :=
  pushBack
    (E_GroupedReductionOp
       (mkGroupedReductionOp indexed (grop_isAllreduce grouped_rop)
          (grop_predicate grouped_rop) (grop_writePredicate grouped_rop))).

Definition handleGridReduction_grouped (grouped_rop : GroupedReductionOp)
    (indexed : list GroupedEntry) : M unit :=
  match getTvOutput (reductions grouped_rop) with
  | Some out_tv =>
      let out_domain := domain out_tv in
      TORCH_INTERNAL_ASSERT (hasGridReduction out_domain)
        "out_domain->hasGridReduction()"%string ;;
      TORCH_INTERNAL_ASSERT
        (negb (existsb serialReductionAxis out_domain)) rfactor_message ;;
      loops <- gets for_loops_ ;;
      reduce_buffers <-
        lift (mapResult
                (fun e =>
                   match
                     getGridCommWorkBufferSize out_domain loops
                       (if grop_isAllreduce grouped_rop &&
                           is_within_a_loop out_domain
                        then 2 else 1)
                   with
                   | inl err => inl err
                   | inr size =>
                       inr (allocGlobalBufferForGridComm size
                              (dtype (ge_output e)) false)
                   end)
                indexed) ;;
      let sync_buffer :=
        allocGlobalBufferForGridComm
          (getGridSyncBufferSize out_domain loops) DT_Int true in
      let thread_pred := getPredicatedParallelTypes current out_tv in
      let grid_reduction :=
        E_GroupedGridReduction
          (mkGroupedReductionOp indexed (grop_isAllreduce grouped_rop)
             (grop_predicate grouped_rop)
             (grop_writePredicate grouped_rop))
          reduce_buffers sync_buffer thread_pred in
      pushBackAll (map E_Allocate reduce_buffers) ;;
      pushBack (E_Allocate sync_buffer) ;;
      pushBack grid_reduction ;;
      if grop_isAllreduce grouped_rop
      then insertAtTopLevel (E_AllocateFusedReduction grid_reduction)
      else ret tt
  | None => throw "ir_utils::getTvOutput(grouped_rop)"%string
  end.

Definition handle_GroupedReductionOp (grouped_rop : GroupedReductionOp)
  : M unit :=
  match getTvOutput (reductions grouped_rop) with
  | Some out_tv =>
      let out_domain := domain out_tv in
      let has_block_reduce := hasBlockReduction out_domain in
      let has_grid_reduce := hasGridReduction out_domain in
      loops <- gets for_loops_ ;;
      indexed <- lift (mapResult (indexEntry loops)
                                 (reductions grouped_rop)) ;;
      if has_grid_reduce
      then handleGridReduction_grouped grouped_rop indexed
      else if has_block_reduce
      then handleBlockReduction_grouped grouped_rop indexed
      else
        pushBackAll
          (map (fun e => E_BinaryOp (ge_type e) (ge_output e) (ge_output e)
                                    (ge_input e))
               indexed)
  | None => throw "ir_utils::isTvOp(grouped_rop)"%string
  end.

Definition handleGridWelford (indexed_wop : WelfordOp) : M unit :=
  match outAvg indexed_wop with
  | TensorIndex out_tv _ =>
      let out_domain := domain out_tv in
      let privatize_buffer := negb (wop_isAllreduce indexed_wop) in
      loops <- gets for_loops_ ;;
      work_buffer_size <-
        lift (getGridCommWorkBufferSize out_domain
                (if privatize_buffer then loops else [])
                (if wop_isAllreduce indexed_wop &&
                    is_within_a_loop out_domain
                 then 2 else 1)) ;;
      let out_var_buffer :=
        allocGlobalBufferForGridComm work_buffer_size
          (dtype (outVar indexed_wop)) false in
      let out_avg_buffer :=
        allocGlobalBufferForGridComm work_buffer_size
          (dtype (outAvg indexed_wop)) false in
      let out_N_buffer :=
        allocGlobalBufferForGridComm work_buffer_size
          (dtype (outN indexed_wop)) false in
      let sync_buffer :=
        allocGlobalBufferForGridComm
          (getGridSyncBufferSize out_domain
             (if privatize_buffer then loops else []))
          DT_Int true in
      let entrance_ind :=
        if privatize_buffer then getEntranceLinIndGridReduce loops
        else zeroVal in
      let n_entrances :=
        if privatize_buffer then getEntranceCountGridReduce loops
        else oneVal in
      let thread_pred := getPredicatedParallelTypes current out_tv in
      let block_reduce_separated :=
        hasBlockReduction out_domain &&
        negb (wop_isAllreduce indexed_wop) in
      let grid_predicate :=
        match wop_predicate indexed_wop with
        | Some p =>
            if block_reduce_separated then Some truePredicate else Some p
        | None => None
        end in
      let grid_welford :=
        E_GridWelford indexed_wop out_var_buffer out_avg_buffer
          out_N_buffer sync_buffer entrance_ind n_entrances thread_pred
          grid_predicate (wop_writePredicate indexed_wop) in
      (if block_reduce_separated
       then pushBack (E_WelfordOp indexed_wop) else ret tt) ;;
      pushBack (E_Allocate out_var_buffer) ;;
      pushBack (E_Allocate out_avg_buffer) ;;
      pushBack (E_Allocate out_N_buffer) ;;
      pushBack (E_Allocate sync_buffer) ;;
      pushBack grid_welford ;;
      if wop_isAllreduce indexed_wop
      then insertAtTopLevel (E_AllocateFusedReduction grid_welford)
      else ret tt
  | _ => throw "indexed_wop->out()->as<kir::TensorIndex>()"%string
  end.

Definition handle_WelfordOp (wop : WelfordOp) : M unit :=
  match outAvg wop with
  | TV out_tv =>
      let out_domain := domain out_tv in
      let has_block_reduce := hasBlockReduction out_domain in
      let has_grid_reduce := hasGridReduction out_domain in
      TORCH_INTERNAL_ASSERT
        (negb (has_grid_reduce &&
               existsb serialReductionAxisWelford out_domain))
        rfactor_message_welford ;;
      in_var <-
        match inVar wop with
        | Some v => (i <- src v (outAvg wop) ;; ret (Some i))
        | None => ret None
        end ;;
      in_avg <- src (inAvg wop) (outAvg wop) ;;
      in_N <-
        (if isScalar (inN wop) then ret (inN wop)
         else src (inN wop) (outN wop)) ;;
      out_avg <- dst (outAvg wop) ;;
      out_var <- dst (outVar wop) ;;
      out_N <- dst (outN wop) ;;
      let indexed_wop :=
        mkWelfordOp out_avg out_var out_N
          (initAvg wop) (initVar wop) (initN wop)
          in_avg in_var in_N (wop_isAllreduce wop)
          (wop_predicate wop) (wop_writePredicate wop) in
      if negb has_block_reduce && negb has_grid_reduce
      then pushBack (E_WelfordOp indexed_wop)
      else if negb has_grid_reduce
      then pushBack (E_WelfordOp indexed_wop)
      else handleGridWelford indexed_wop
  | _ => throw "ir_utils::isTvOp(wop)"%string
  end.

Definition handle_MmaOp (out inA inB init : Val) (options : nat)
  : M unit :=
  a <- src inA out ;;
  b <- src inB out ;;
  o <- dst out ;;
  pushBack (E_MmaOp o a b init options).

Definition grid_broadcast_needed (out_tv : TensorView) : bool :=
  let parallel_bitmap := getParallelBroadcastDomains current out_tv in
  bitmap_get parallel_bitmap BIDx || bitmap_get parallel_bitmap BIDy ||
  bitmap_get parallel_bitmap BIDz.

Definition handle_BroadcastOp (bop : BroadcastOp) : M unit :=
  match bop_out bop with
  | TV out_tv =>
      out <- dst (bop_out bop) ;;
      inp <- src (bop_in bop) (bop_out bop) ;;
      let indexed_expr :=
        mkBroadcastOp out inp (getBroadcastDimFlags bop)
                      (bop_predicate bop) in
      if negb (grid_broadcast_needed out_tv)
      then pushBack (E_BroadcastOp indexed_expr)
      else
        let out_domain := domain out_tv in
        work_size <- lift (getGridCommWorkBufferSize out_domain [] 1) ;;
        let broadcast_buffer :=
          allocGlobalBufferForGridComm work_size (dtype out) false in
        let sync_buffer :=
          allocGlobalBufferForGridComm
            (getGridSyncBufferSize out_domain []) DT_Int true in
        pushBack (E_Allocate broadcast_buffer) ;;
        pushBack (E_Allocate sync_buffer) ;;
        pushBack (E_GridBroadcast indexed_expr broadcast_buffer
                    sync_buffer (bop_predicate bop))
  | _ => throw "ir_utils::isTvOp(bop)"%string
  end.

(** The dispatch of [OptOutConstDispatch::handle].  Scope nodes are
    re-emitted with an empty body that is then filled through
    [active_scope_]; the kinds the pass has no handler for are skipped. *)
Fixpoint handle (expr : Expr) : M unit :=
  let handle_exprs :=
    fix handle_exprs (exprs : list Expr) : M unit :=
      match exprs with
      | [] => ret tt
      | e :: rest => handle e ;; handle_exprs rest
      end in
  match expr with
  | E_UnaryOp op out inp => handle_UnaryOp op out inp
  | E_BinaryOp op out lhs rhs => handle_BinaryOp op out lhs rhs
  | E_TernaryOp op out in1 in2 in3 => handle_TernaryOp op out in1 in2 in3
  | E_ViewAsScalar out inp vector_id _ =>
      handle_ViewAsScalar out inp vector_id
  | E_ReductionOp rop => handle_ReductionOp rop
  | E_GroupedReductionOp grop => handle_GroupedReductionOp grop
  | E_WelfordOp wop => handle_WelfordOp wop
  | E_MmaOp out inA inB init options => handle_MmaOp out inA inB init options
  | E_BroadcastOp bop => handle_BroadcastOp bop
  | E_ForLoop for_loop body =>
      prev_scope <- gets active_scope_ ;;
      pushBack (E_ForLoop for_loop []) ;;
      set_active_scope (prev_scope ++ [InBody]) ;;
      loops <- gets for_loops_ ;;
      set_for_loops (loops ++ [for_loop]) ;;
      handle_exprs body ;;
      loops' <- gets for_loops_ ;;
      set_for_loops (removelast loops') ;;
      set_active_scope prev_scope
  | E_IfThenElse pred thenBody elseBody =>
      prev_scope <- gets active_scope_ ;;
      pushBack (E_IfThenElse pred [] []) ;;
      set_active_scope (prev_scope ++ [InThen]) ;;
      handle_exprs thenBody ;;
      set_active_scope (prev_scope ++ [InElse]) ;;
      handle_exprs elseBody ;;
      set_active_scope prev_scope
  | E_Allocate a => pushBack (E_Allocate a)
  | E_BlockSync war => pushBack (E_BlockSync war)
  | E_GridSync dims buf => pushBack (E_GridSync dims buf)
  | E_GridReduction _ _ _ _ _ _
  | E_GroupedGridReduction _ _ _ _
  | E_GridWelford _ _ _ _ _ _ _ _ _ _
  | E_GridBroadcast _ _ _ _
  | E_AllocateFusedReduction _ => ret tt
  end.

Fixpoint generate (exprs : list Expr) : M unit :=
  match exprs with
  | [] => ret tt
  | expr :: rest => handle expr ;; generate rest
  end.

(** Modelled from the spec: the entry point of the pass (declared in
    lower_index.h, which is not part of the sources) runs [generate] from an
    empty state and hands out the lowered list only when no assertion
    failed. *)
Definition getIndexedExprs (incoming_exprs : list Expr)
  : Result (list Expr) :=
  match generate incoming_exprs (mkIndexLowering [] [] []) with
  | (inr _, st) => inr (lowered_exprs_ st)
  | (inl err, _) => inl err
  end.

End Pass.

End Lower.

(** ** The pointwise scheduler heuristic *)

Module Pointwise.
Import IR.

(** [int64_t] arithmetic: results are reduced to the signed 64-bit range. *)
Definition wrap64 (z : Z) : Z := (z + 2 ^ 63) mod 2 ^ 64 - 2 ^ 63.
Definition mul64 (a b : Z) : Z := wrap64 (a * b).
Definition add64 (a b : Z) : Z := wrap64 (a + b).
Definition sub64 (a b : Z) : Z := wrap64 (a - b).

(** ceilDiv of utils.h on [int64_t]: [(a + b - 1) / b]. *)
Definition ceilDiv64 (a b : Z) : Z := Z.quot (sub64 (add64 a b) 1) b.

Definition kThreadX : Z := 128.
Definition int64_max : Z := 2 ^ 63 - 1.

(** Modelled from the spec: [scheduler_utils::lastPow2] (not part of the
    sources), the largest power of two not above its argument and at least
    one. *)
Definition lastPow2 (n : Z) : Z :=
  let n := Z.lor n (Z.shiftr n 1) in
  let n := Z.lor n (Z.shiftr n 2) in
  let n := Z.lor n (Z.shiftr n 4) in
  let n := Z.lor n (Z.shiftr n 8) in
  let n := Z.lor n (Z.shiftr n 16) in
  let n := Z.lor n (Z.shiftr n 32) in
  Z.max 1 (n - Z.shiftr n 1).

(** [std::max_element] followed by a dereference; the source only
    dereferences it on a non-empty range. *)
Definition max_element (l : list Z) : Z :=
  match l with
  | [] => 0
  | x :: r => fold_left Z.max r x
  end.

(** The local variables the break-point search updates. *)
Record SearchState : Type := mkSearchState {
  break_point : nat;
  right_elem_count : Z;
  bdimx : Z;
  bdimy : Z;
  gdimx : Z;
  gdimy : Z;
  min_total_transfer : Z
}.

Definition initialSearchState : SearchState :=
  mkSearchState 0 0 kThreadX 1 1 1 int64_max.

Section Search.

(** Inputs of the search: the evaluated extents of the reference tensor,
    their product, the per-dimension mapping counts, the unroll bound and
    the number of multiprocessors of the device. *)
Variable elem_counts : list Z.
Variable n_elems : Z.
Variable mapping_count : list Z.
Variable max_unroll_factor : Z.
Variable device_multiprocessor_count : Z.

Definition transfer_size_1d : Z :=
  let max_dims := max_element mapping_count in
  fold_left (fun t e => mul64 (mul64 t e) max_dims) elem_counts 1.

Definition cur_right_elem_count (break_point_i : nat) : Z :=
  fold_left mul64 (skipn break_point_i elem_counts) 1.

Definition cur_left_elem_count (break_point_i : nat) : Z :=
  Z.quot n_elems (cur_right_elem_count break_point_i).

Definition cur_transfer_size (break_point_i : nat) : Z :=
  let left_max_dims := max_element (firstn break_point_i mapping_count) in
  let right_max_dims := max_element (skipn break_point_i mapping_count) in
  let t :=
    fold_left (fun t e => mul64 (mul64 t e) left_max_dims)
              (firstn break_point_i elem_counts) 1 in
  fold_left (fun t e => mul64 (mul64 t e) right_max_dims)
            (skipn break_point_i elem_counts) t.

(** One iteration of the loop over the candidate break points. *)
Definition searchStep (st : SearchState) (break_point_i : nat)
  : SearchState :=
  let cur_right := cur_right_elem_count break_point_i in
  if cur_right <=? 1 then st
  else
    let cur_left := cur_left_elem_count break_point_i in
    if cur_left <=? 1 then st
    else
      let cur_transfer := cur_transfer_size break_point_i in
      if (cur_transfer >=? min_total_transfer st) ||
         (mul64 cur_transfer 10 >=? mul64 transfer_size_1d 9)
      then st
      else if cur_right <? max_unroll_factor then st
      else
        let bdimx' :=
          Z.min (ceilDiv64 cur_right max_unroll_factor) kThreadX in
        let bdimy' :=
          if cur_left >? device_multiprocessor_count
          then Z.quot kThreadX bdimx' else 1 in
        let remainder_left := ceilDiv64 cur_left bdimy' in
        let remainder_right :=
          ceilDiv64 cur_right
                    (mul64 (mul64 bdimy' bdimx') max_unroll_factor) in
        let gdimy' :=
          if (remainder_right >? 1) && (bdimy' <=? 1)
          then remainder_right else 1 in
        mkSearchState break_point_i cur_right bdimx' bdimy'
                      remainder_left gdimy' cur_transfer.

(** A candidate the search may adopt: more than one element on each side,
    the estimated transfer below nine tenths of the 1-D estimate, and at
    least [max_unroll_factor] elements on the right. *)
Definition eligible (break_point_i : nat) : bool :=
  (1 <? cur_right_elem_count break_point_i) &&
  (1 <? cur_left_elem_count break_point_i) &&
  (mul64 (cur_transfer_size break_point_i) 10 <? mul64 transfer_size_1d 9) &&
  (max_unroll_factor <=? cur_right_elem_count break_point_i).

(** The loop: candidates are visited from 0 up to the rank of the
    reference tensor. *)
Definition breakPointSearch : SearchState :=
  fold_left searchStep (seq 0 (List.length elem_counts)) initialSearchState.

(** State of the search after the candidates below [k]. *)
Definition searched (k : nat) : SearchState :=
  fold_left searchStep (seq 0 k) initialSearchState.

(** What holds after the candidates below [k]: block-y and grid-y are not
    both in use, and either no candidate was adopted, or the current break
    point is the first cheapest eligible candidate. *)
Definition searchInvariant (k : nat) (st : SearchState) : Prop :=
  ~ (bdimy st > 1 /\ gdimy st > 1) /\
  ((st = initialSearchState /\
    forall j, (j < k)%nat -> eligible j = true ->
              int64_max <= cur_transfer_size j) \/
   (0 < right_elem_count st /\ (break_point st < k)%nat /\
    eligible (break_point st) = true /\
    min_total_transfer st = cur_transfer_size (break_point st) /\
    right_elem_count st = cur_right_elem_count (break_point st) /\
    forall j, (j < k)%nat -> eligible j = true ->
              ((j < break_point st)%nat ->
               cur_transfer_size (break_point st) < cur_transfer_size j) /\
              ((break_point st < j)%nat ->
               cur_transfer_size (break_point st) <= cur_transfer_size j))).

End Search.

(** Launch parameters: the bound block dimensions. *)
Record LaunchParams : Type := mkLaunchParams {
  lp_bdimx : option Z;
  lp_bdimy : option Z
}.

(** Modelled from the spec: the schedule parameters (pointwise_heuristic.h is
    not part of the sources). *)
Record PointwiseParams : Type := mkPointwiseParams {
  tag : string;
  vectorize : bool;
  params_break_point : nat;
  split_block : bool;
  split_grid_y_dim : bool;
  inner_factor : Z;
  lparams : LaunchParams
}.

Definition defaultPointwiseParams : PointwiseParams :=
  mkPointwiseParams ""%string false 0 false false 1
                    (mkLaunchParams None None).

Record Fusion : Type := mkFusion {
  inputs : list TensorView;
  outputs : list TensorView;
  isStochastic : bool
}.

(** What the heuristic reads from the runtime information, the device and
    the scheduler utilities, none of which are part of the sources. *)
Record SchedulerRuntimeInfo : Type := mkRuntimeInfo {
  evaluate : Scalar -> option Z;
  getVectorizableWidth : TensorView -> Z;
  multiProcessorCount : Z;
  disableRNGUnrolling : bool;
  dataTypeSize : DataType -> Z;
  getVectorizableInputsOutputs : TensorView -> list TensorView;
  mappedInputsOutputs : TensorView -> list Z
}.

Definition nonReductionNonBroadcast (td : TensorDomain) : list IterDomain :=
  filter (fun id => negb (isReduction id || isBroadcast id)) td.

(** The reference tensor: the first output with the greatest number of
    root dimensions that are neither reductions nor broadcasts. *)
Definition selectLargestOut (out_tvs : list TensorView)
  : option TensorView * Z :=
  fold_left
    (fun (acc : option TensorView * Z) out_tv =>
       let n_dims :=
         Z.of_nat
           (List.length
              (nonReductionNonBroadcast (getMaybeRFactorDomain out_tv))) in
       if n_dims >? snd acc then (Some out_tv, n_dims) else acc)
    out_tvs (None, -1).

Fixpoint evaluateExtents (info : SchedulerRuntimeInfo)
    (ref_root : list IterDomain) : option (list Z) :=
  match ref_root with
  | [] => Some []
  | id :: r =>
      match evaluate info (extent id) with
      | None => None
      | Some v =>
          match evaluateExtents info r with
          | None => None
          | Some vs => Some (v :: vs)
          end
      end
  end.

Definition maxUnrollFactor (fusion : Fusion) (info : SchedulerRuntimeInfo)
    (n_elems : Z) : Z :=
  let max_input_dtype_size :=
    fold_left (fun m inp => Z.max m (dataTypeSize info (tv_dtype inp)))
              (inputs fusion) 2 in
  let n_tensors :=
    Z.of_nat (List.length (inputs fusion)) +
    Z.of_nat (List.length (outputs fusion)) in
  let max_unroll_factor :=
    ceilDiv64 (Z.quot 16 max_input_dtype_size)
              (Z.max (Z.shiftr (lastPow2 n_tensors) 2) 1) in
  let wave := mul64 (multiProcessorCount info) kThreadX in
  let max_unroll_factor :=
    if (n_elems <? wave) && (max_unroll_factor >? 1)
    then Z.min max_unroll_factor (ceilDiv64 n_elems wave)
    else max_unroll_factor in
  if isStochastic fusion && disableRNGUnrolling info then 1
  else max_unroll_factor.

(** The heuristic.  The heuristic cache only replays what
    [getVectorizableInputsOutputs] and [mappedInputsOutputs] computed
    before, and the debug dump has no effect on the result; both are left
    out.  A failed assertion is the left summand. *)
Definition getPointwiseHeuristics (fusion : Fusion)
    (info : SchedulerRuntimeInfo) : string + PointwiseParams :=
  match fst (selectLargestOut (outputs fusion)) with
  | None => inl "largest_out != nullptr"%string
  | Some largest_out =>
      if (List.length (nonReductionNonBroadcast (domain largest_out))
          =? 0)%nat
      then inr defaultPointwiseParams
      else
        let ref_root := getMaybeRFactorDomain largest_out in
        match evaluateExtents info ref_root with
        | None => inl "Error inferring size for pointwise scheduler."%string
        | Some elem_counts =>
            let n_elems := fold_left mul64 elem_counts 1 in
            let max_unroll_factor := maxUnrollFactor fusion info n_elems in
            let vectorize_factor :=
              fold_left
                (fun f tv => Z.min f (getVectorizableWidth info tv))
                (getVectorizableInputsOutputs info largest_out)
                (max_unroll_factor mod 2 ^ 64) in
            let s :=
              breakPointSearch elem_counts n_elems
                (mappedInputsOutputs info largest_out) max_unroll_factor
                (multiProcessorCount info) in
            if negb ((right_elem_count s >? 0) ||
                     (params_break_point defaultPointwiseParams =? 0)%nat)
            then inl "right_elem_count > 0 || params.break_point == 0"%string
            else if (bdimy s >? 1) && (gdimy s >? 1)
            then inl "!(bdimy > 1 && gdimy > 1)"%string
            else
              let split := bdimy s >? 1 in
              inr (mkPointwiseParams
                     "Pointwise heuristics"%string
                     (negb (vectorize_factor =? 1))
                     (break_point s)
                     split
                     (gdimy s >? 65535)
                     (if vectorize_factor =? 1 then max_unroll_factor
                      else wrap64 vectorize_factor)
                     (mkLaunchParams (Some (bdimx s))
                        (if split then Some (bdimy s) else None)))
        end
  end.

End Pointwise.

(** ** Grouping of reductions *)

Module Grouping.
Import IR Kir.

(** A scheduling transformation of a tensor domain. *)
Inductive Transform : Type :=
| Split (axis : Z) (factor : Z)
| Merge (axis_o axis_i : Z).

(** A reduction output as grouping sees it: the reduction defining it, the
    extents of its root domain and the transformations applied so far. *)
Record ReductionOutput : Type := mkReductionOutput {
  definition : ReductionOp;
  shape : list Scalar;
  history : list Transform
}.

Definition Scalar_eq_dec : forall a b : Scalar, {a = b} + {a <> b}.
Proof.
  decide equality;
    [apply Z.eq_dec | apply bool_dec | apply string_dec].
Defined.

Definition Transform_eq_dec : forall a b : Transform, {a = b} + {a <> b}.
Proof. decide equality; apply Z.eq_dec. Defined.

Definition sameShape (a b : ReductionOutput) : bool :=
  if list_eq_dec Scalar_eq_dec (shape a) (shape b) then true else false.

Definition sameHistory (a b : ReductionOutput) : bool :=
  if list_eq_dec Transform_eq_dec (history a) (history b)
  then true else false.

Definition entryOf (r : ReductionOutput) : GroupedEntry :=
  let rop := definition r in
  mkGroupedEntry (getReductionOpType rop) (rop_init rop) (rop_out rop)
                 (rop_in rop).

(** Modelled from the spec: [groupReductions] is not part of the sources
    (only its tests are).  Grouping is validated first: every reduction must
    have the shape and the transform history of the first one, otherwise
    grouping raises; only then is the grouped reduction created. *)
Definition groupReductions (reduction_outputs : list ReductionOutput)
  : string + GroupedReductionOp :=
  match reduction_outputs with
  | [] => inl "No tensor is given"%string
  | ref :: rest =>
      if negb (forallb (sameShape ref) rest)
      then inl "Invalid grouping: shapes are not the same"%string
      else if negb (forallb (sameHistory ref) rest)
      then inl "Invalid grouping: transformations are not the same"%string
      else inr (mkGroupedReductionOp (map entryOf reduction_outputs)
                                     false None None)
  end.

(** Grouping followed by lowering of the grouped reduction. *)
Definition groupAndLower (current : Lower.GpuLower)
    (reduction_outputs : list ReductionOutput)
  : string + list Expr :=
  match groupReductions reduction_outputs with
  | inl err => inl err
  | inr grouped =>
      Lower.getIndexedExprs current [E_GroupedReductionOp grouped]
  end.

End Grouping.

(** ** Notions used to state the properties *)

Module Props.
Import IR Kir Lower.

Definition isTV (v : Val) : bool :=
  match v with TV _ => true | _ => false end.

(** An operand can be indexed against the output: a tensor operand needs a
    tensor output. *)
Definition srcOk (inp out : Val) : bool := negb (isTV inp) || isTV out.

(** Replaces the scope a path leads to. *)
Fixpoint replace_at (path : list ScopeSel) (new : list Expr)
    (scope : list Expr) : option (list Expr) :=
  match path with
  | [] => Some new
  | sel :: rest =>
      match unsnoc scope with
      | Some (front, E_ForLoop fl body) =>
          match sel with
          | InBody =>
              match replace_at rest new body with
              | Some body' => Some (front ++ [E_ForLoop fl body'])
              | None => None
              end
          | _ => None
          end
      | Some (front, E_IfThenElse p thenBody elseBody) =>
          match sel with
          | InThen =>
              match replace_at rest new thenBody with
              | Some t' => Some (front ++ [E_IfThenElse p t' elseBody])
              | None => None
              end
          | InElse =>
              match replace_at rest new elseBody with
              | Some e' => Some (front ++ [E_IfThenElse p thenBody e'])
              | None => None
              end
          | InBody => None
          end
      | _ => None
      end
  end.

Inductive Kind : Type :=
| K_UnaryOp | K_BinaryOp | K_TernaryOp | K_ViewAsScalar | K_ReductionOp
| K_GroupedReductionOp | K_WelfordOp | K_MmaOp | K_BroadcastOp
| K_Allocate | K_BlockSync | K_GridSync | K_GridReduction
| K_GroupedGridReduction | K_GridWelford | K_GridBroadcast
| K_AllocateFusedReduction.

(** The scope structure of an expression: its kind, and for scope nodes the
    structure of the expressions they own, in order. *)
Inductive Structure : Type :=
| S_Node (k : Kind)
| S_ForLoop (body : list Structure)
| S_IfThenElse (thenBody elseBody : list Structure).

Fixpoint structure (e : Expr) : Structure :=
  match e with
  | E_UnaryOp _ _ _ => S_Node K_UnaryOp
  | E_BinaryOp _ _ _ _ => S_Node K_BinaryOp
  | E_TernaryOp _ _ _ _ _ => S_Node K_TernaryOp
  | E_ViewAsScalar _ _ _ _ => S_Node K_ViewAsScalar
  | E_ReductionOp _ => S_Node K_ReductionOp
  | E_GroupedReductionOp _ => S_Node K_GroupedReductionOp
  | E_WelfordOp _ => S_Node K_WelfordOp
  | E_MmaOp _ _ _ _ _ => S_Node K_MmaOp
  | E_BroadcastOp _ => S_Node K_BroadcastOp
  | E_ForLoop _ body => S_ForLoop (map structure body)
  | E_IfThenElse _ t e => S_IfThenElse (map structure t) (map structure e)
  | E_Allocate _ => S_Node K_Allocate
  | E_BlockSync _ => S_Node K_BlockSync
  | E_GridSync _ _ => S_Node K_GridSync
  | E_GridReduction _ _ _ _ _ _ => S_Node K_GridReduction
  | E_GroupedGridReduction _ _ _ _ => S_Node K_GroupedGridReduction
  | E_GridWelford _ _ _ _ _ _ _ _ _ _ => S_Node K_GridWelford
  | E_GridBroadcast _ _ _ _ => S_Node K_GridBroadcast
  | E_AllocateFusedReduction _ => S_Node K_AllocateFusedReduction
  end.

(** Number of expressions satisfying [p], scopes included. *)
Fixpoint countIn (p : Expr -> bool) (e : Expr) : nat :=
  let here := if p e then 1%nat else 0%nat in
  match e with
  | E_ForLoop _ body =>
      (here + fold_right (fun x n => countIn p x + n) 0 body)%nat
  | E_IfThenElse _ t el =>
      (here + fold_right (fun x n => countIn p x + n) 0 t
            + fold_right (fun x n => countIn p x + n) 0 el)%nat
  | _ => here
  end.

Definition countExprs (p : Expr -> bool) (l : list Expr) : nat :=
  fold_right (fun x n => countIn p x + n)%nat 0%nat l.

Definition isAllocate (e : Expr) : bool :=
  match e with E_Allocate _ => true | _ => false end.

Definition anyExpr (e : Expr) : bool := true.

(** The entrance index and entrance count a lowered node carries. *)
Definition entrancePair (e : Expr) : option (Scalar * Scalar) :=
  match e with
  | E_GridReduction _ _ _ entrance_index entrances _ =>
      Some (entrance_index, entrances)
  | E_GridWelford _ _ _ _ _ entrance_index entrances _ _ _ =>
      Some (entrance_index, entrances)
  | _ => None
  end.

Section WithContext.

Variable current : GpuLower.

(** Expressions that lowering only re-indexes: element-wise operations whose
    operands can be indexed, vector views whose vector axis is mapped to an
    enclosing loop, broadcasts that do not span a grid dimension, scope
    nodes over such expressions, and the nodes passed through unchanged. *)
Fixpoint reindexOnly (for_loops : list ForLoopHeader) (e : Expr) : bool :=
  match e with
  | E_UnaryOp _ out inp => srcOk inp out
  | E_BinaryOp _ out lhs rhs => srcOk lhs out && srcOk rhs out
  | E_TernaryOp _ out in1 in2 in3 =>
      srcOk in1 out && srcOk in2 out && srcOk in3 out
  | E_ViewAsScalar out inp vector_id _ =>
      srcOk inp out &&
      existsb
        (fun loop => areMappedLoop current (iter_domain loop) vector_id)
        for_loops
  | E_MmaOp out inA inB _ _ => srcOk inA out && srcOk inB out
  | E_BroadcastOp bop =>
      match bop_out bop with
      | TV out_tv => negb (grid_broadcast_needed current out_tv)
      | _ => false
      end
  | E_ForLoop fl body => forallb (reindexOnly (for_loops ++ [fl])) body
  | E_IfThenElse _ t el =>
      forallb (reindexOnly for_loops) t &&
      forallb (reindexOnly for_loops) el
  | E_Allocate _ | E_BlockSync _ | E_GridSync _ _ => true
  | _ => false
  end.

(** Product of the parallel dimensions counted by the work buffer: every
    block dimension, and the thread dimensions not used by a reduction or
    broadcast axis of the domain. *)
Definition workDimProduct (env : string -> Z) (td : TensorDomain) : Z :=
  fold_right
    (fun pt acc =>
       match parallelDimensionMap current pt with
       | None => acc
       | Some pt_dim =>
           if isParallelTypeThreadDim pt && usedByReductionOrBroadcast td pt
           then acc else eval env pt_dim * acc
       end)
    1 kParallelTypeThreads.

(** Product of the block dimensions counted by the sync buffer: those not
    used by a reduction or broadcast axis of the domain. *)
Definition syncDimProduct (env : string -> Z) (td : TensorDomain) : Z :=
  fold_right
    (fun pt acc =>
       match parallelDimensionMap current pt with
       | None => acc
       | Some pt_dim =>
           if usedByReductionOrBroadcast td pt
           then acc else eval env pt_dim * acc
       end)
    1 kParallelTypeBIDs.

End WithContext.

(** Product of the extents of the loops that are neither trivial nor bound
    to a thread or block dimension. *)
Definition loopExtentProduct (env : string -> Z)
    (for_loops : list ForLoopHeader) : Z :=
  fold_right
    (fun fl acc =>
       if isTrivial fl || isThread (iter_domain fl) then acc
       else eval env (extent (iter_domain fl)) * acc)
    1 for_loops.

Definition noSerialLoops (for_loops : list ForLoopHeader) : bool :=
  forallb (fun fl => isTrivial fl || isThread (iter_domain fl)) for_loops.

(** A reduction axis that is not bound to a thread or block dimension. *)
Definition serialAxis (id : IterDomain) : Prop :=
  isReduction id = true /\ isThread id = false.

Definition allOutputsTV (g : GroupedReductionOp) : Prop :=
  Forall (fun e => isTV (ge_output e) = true) (reductions g).

(** A reduction, grouped reduction or Welford operation over [td] as its
    output domain. *)
Inductive reducesOver : Expr -> TensorDomain -> Prop :=
| RO_reduction rop tv :
    rop_out rop = TV tv -> reducesOver (E_ReductionOp rop) (domain tv)
| RO_grouped grop tv :
    getTvOutput (reductions grop) = Some tv -> allOutputsTV grop ->
    reducesOver (E_GroupedReductionOp grop) (domain tv)
| RO_welford wop tv :
    outAvg wop = TV tv -> reducesOver (E_WelfordOp wop) (domain tv).

Definition isWelford (e : Expr) : bool :=
  match e with E_WelfordOp _ => true | _ => false end.

(** The 1-D reduction schedule [grid(ceil(N/128)) x block(128)]: BIDx is
    bound to the number of blocks, TIDx to 128 threads, and both axes of the
    output domain are reduction axes. *)
Definition gridBlockSchedule (current : GpuLower) (env : string -> Z)
    (N : Z) (td : TensorDomain) : Prop :=
  exists gdim,
    eval env gdim = ceilDiv N 128 /\
    parallelDimensionMap current BIDx = Some gdim /\
    parallelDimensionMap current TIDx = Some (Int 128) /\
    parallelDimensionMap current BIDy = None /\
    parallelDimensionMap current BIDz = None /\
    parallelDimensionMap current TIDy = None /\
    parallelDimensionMap current TIDz = None /\
    td = [mkIterDomain gdim BIDx true false;
          mkIterDomain (Int 128) TIDx true false].

(** The expressions a scope node owns. *)
Definition bodies (e : Expr) : list Expr :=
  match e with
  | E_ForLoop _ body => body
  | E_IfThenElse _ t el => t ++ el
  | _ => []
  end.

(** Lowering [e] appends one expression of the same structure to the active
    scope and leaves the scope pointer and the loop stack as they were. *)
Definition reindexes (current : GpuLower) (e : Expr) : Prop :=
  forall st sc,
    reindexOnly current (for_loops_ st) e = true ->
    scope_at (active_scope_ st) (lowered_exprs_ st) = Some sc ->
    exists e' l',
      handle current e st =
        (inr tt, mkIndexLowering l' (active_scope_ st) (for_loops_ st)) /\
      replace_at (active_scope_ st) (sc ++ [e']) (lowered_exprs_ st)
        = Some l' /\
      structure e' = structure e.

(** [hoist e l]: [l] with [e] inserted before its last expression. *)
Definition hoist (e : Expr) (l : list Expr) : list Expr :=
  match unsnoc l with
  | Some (front, last) => front ++ [e; last]
  | None => l
  end.

(** The state reached from [st] by appending [emitted] to the active scope
    and, when [fused] is given, inserting that expression before the last
    top-level expression; the scope pointer and the loop stack are kept. *)
Definition emitsInto (st : IndexLowering) (emitted : list Expr)
    (fused : option Expr) (st' : IndexLowering) : Prop :=
  exists sc l1,
    scope_at (active_scope_ st) (lowered_exprs_ st) = Some sc /\
    replace_at (active_scope_ st) (sc ++ emitted) (lowered_exprs_ st)
      = Some l1 /\
    st' = mkIndexLowering
            (match fused with Some e => hoist e l1 | None => l1 end)
            (active_scope_ st) (for_loops_ st).

Definition wellScoped (st : IndexLowering) : Prop :=
  scope_at (active_scope_ st) (lowered_exprs_ st) <> None.

Definition isGridReduction (e : Expr) : bool :=
  match e with E_GridReduction _ _ _ _ _ _ => true | _ => false end.

Definition isGroupedGridReduction (e : Expr) : bool :=
  match e with E_GroupedGridReduction _ _ _ _ => true | _ => false end.

End Props.

(** ** Example schedules *)

Module Examples.
Import IR Kir Lower Props.

(** A lowering context for a kernel run on [gdimx] blocks of 128 threads. *)
Definition gridOf (gdimx : Scalar) : GpuLower :=
  mkGpuLower
    (fun pt =>
       match pt with
       | BIDx => Some gdimx
       | TIDx => Some (Int 128)
       | _ => None
       end)
    (fun _ => [])
    (fun _ => [])
    (fun a b => ParallelType_eqb (getParallelType a) (getParallelType b))
    (fun _ _ loops => map index loops)
    (fun _ loops => map index loops)
    (fun id => isReduction id || isBroadcast id || isThread id ||
               isOneInt (extent id)).

Definition symbolicGrid : GpuLower := gridOf (NamedScalar "gdimx").

Definition axisB : IterDomain :=
  mkIterDomain (NamedScalar "gdimx") BIDx false false.
Definition axisT : IterDomain := mkIterDomain (Int 128) TIDx false false.

Definition tv0 : TensorView :=
  mkTensorView 0 DT_Float [axisB; axisT] [axisB; axisT].
Definition tv1 : TensorView :=
  mkTensorView 1 DT_Float [axisB; axisT] [axisB; axisT].

Definition loopB : ForLoopHeader :=
  mkForLoop axisB (NamedScalar "blockIdx.x") true.
Definition loopT : ForLoopHeader :=
  mkForLoop axisT (NamedScalar "threadIdx.x") true.

Definition inlinePredicate : Predicate := mkPredicate PT_Inline None.

(** A scheduled pointwise kernel: a local buffer, then
    [tv1 = -tv0] guarded by a predicate inside the block and thread loops. *)
Definition pointwiseKernel : list Expr :=
  [E_Allocate (mkAllocate DT_Float Local (Int 1) false);
   E_ForLoop loopB
     [E_ForLoop loopT
        [E_IfThenElse inlinePredicate
           [E_UnaryOp UOp_Neg (TV tv1) (TV tv0)] []]]].

Definition emptyState : IndexLowering := mkIndexLowering [] [] [].

(** Output domain of a 1-D reduction scheduled as
    [grid(ceil(N/128)) x block(128)]: both axes are reduction axes. *)
Definition reductionDomain (gdimx : Scalar) : TensorDomain :=
  [mkIterDomain gdimx BIDx true false;
   mkIterDomain (Int 128) TIDx true false].

(** The same with an additional serial reduction axis of extent one. *)
Definition unitSerialDomain : TensorDomain :=
  reductionDomain (NamedScalar "gdimx") ++
  [mkIterDomain (Int 1) Serial true false].

(** The same with a serial reduction axis of symbolic extent. *)
Definition serialDomain : TensorDomain :=
  reductionDomain (NamedScalar "gdimx") ++
  [mkIterDomain (NamedScalar "i2") Serial true false].

Definition tvOf (name : nat) (td : TensorDomain) : TensorView :=
  mkTensorView name DT_Float td td.

Definition sumInto (out : TensorView) : ReductionOp :=
  mkReductionOp BOp_Add (ScalarVal DT_Float (Int 0)) (TV out) (TV tv0)
                false (Some inlinePredicate) None.

Definition groupedSumInto (out1 out2 : TensorView) : GroupedReductionOp :=
  mkGroupedReductionOp
    [mkGroupedEntry BOp_Add (ScalarVal DT_Float (Int 0)) (TV out1) (TV tv0);
     mkGroupedEntry BOp_Max (ScalarVal DT_Float (Int 0)) (TV out2) (TV tv1)]
    false (Some inlinePredicate) None.

Definition welfordInto (avg : TensorView) : WelfordOp :=
  mkWelfordOp (TV avg) (TV (tvOf 11 (domain avg)))
              (TV (mkTensorView 12 DT_Int (domain avg) (domain avg)))
              (ScalarVal DT_Float (Int 0)) (ScalarVal DT_Float (Int 0))
              (ScalarVal DT_Int (Int 0))
              (TV tv0) None (ScalarVal DT_Int (Int 1))
              false (Some inlinePredicate) None.

(** A binding of the named scalars. *)
Definition sampleBinding : string -> Z := fun _ => 3.

(** A serial loop over an axis of symbolic extent. *)
Definition serialAxisOf (name : string) : IterDomain :=
  mkIterDomain (NamedScalar name) Serial false false.

Definition serialLoop : ForLoopHeader :=
  mkForLoop (serialAxisOf "i0") (NamedScalar "i") false.

(** A pointwise fusion [out = in0 + in1] over a [100 x 100] reference
    tensor, where the second input is broadcast along the outer dimension:
    two tensors map to the outer dimension and three to the inner one. *)
Definition axisOf (name : string) : IterDomain :=
  mkIterDomain (NamedScalar name) Serial false false.

Definition pointwiseOut : TensorView :=
  mkTensorView 2 DT_Float [axisOf "i0"; axisOf "i1"]
               [axisOf "i0"; axisOf "i1"].

Definition pointwiseFusion : Pointwise.Fusion :=
  Pointwise.mkFusion
    [mkTensorView 0 DT_Float [axisOf "i0"; axisOf "i1"]
                  [axisOf "i0"; axisOf "i1"];
     mkTensorView 1 DT_Float [axisOf "i1"] [axisOf "i1"]]
    [pointwiseOut] false.

Definition pointwiseInfo : Pointwise.SchedulerRuntimeInfo :=
  Pointwise.mkRuntimeInfo
    (fun s => Some (eval (fun _ => 100) s))
    (fun _ => 4)
    80
    false
    (fun dt =>
       match dt with
       | DT_Double | DT_Int => 8
       | DT_Float | DT_Int32 => 4
       | DT_Half => 2
       | DT_Bool => 1
       end)
    (fun _ => [])
    (fun _ => [2; 3]).

(** The reductions of the grouping tests: row sums of two different
    symbolic inputs, and row sums of one input split by different
    factors. *)
Definition rowSum (name : nat) (rows cols : string)
    (splits : list Grouping.Transform) : Grouping.ReductionOutput :=
  Grouping.mkReductionOutput
    (sumInto
       (tvOf name
          [mkIterDomain (NamedScalar rows) Serial false false;
           mkIterDomain (NamedScalar cols) Serial true false]))
    [NamedScalar rows; NamedScalar cols]
    splits.

End Examples.

(** ** Parts of the pointwise scheduler *)

Module Schedule.
Import IR.

(** A tensor of the fusion with what [schedulePointwise] asks of the graph
    around it: whether it has uses and whether it has a definition. *)
Record FusionTv : Type := mkFusionTv {
  tensor : TensorView;
  hasUses : bool;
  hasDefinition : bool
}.

(** Number of dimensions of the rfactor domain that are neither reductions
    nor broadcasts. *)
Definition nRootDims (tv : TensorView) : nat :=
  List.length
    (filter (fun dim => negb (isReduction dim) && negb (isBroadcast dim))
            (getMaybeRFactorDomain tv)).

(** The greatest [nRootDims] over the inputs that have uses and over the
    outputs. *)
Definition maxRootDims (inputs outputs : list FusionTv) : nat :=
  let input_tvs := filter hasUses inputs in
  let max_dims :=
    fold_left (fun m inp => Nat.max (nRootDims (tensor inp)) m)
              input_tvs 0%nat in
  fold_left (fun m out => Nat.max (nRootDims (tensor out)) m)
            outputs max_dims.

Inductive Reference : Type :=
| AllZeroDim
| ReferenceTv (reference_tv : FusionTv).

(** Choice of the reference tensor in [schedulePointwise]: nothing to
    schedule when every tensor has zero dimensions; otherwise the first
    output that has a definition and as many root dimensions as the
    maximum, and a failed assertion when there is none.  The inputs and
    outputs are the ones of the fusion once the outputs that have uses were
    forked. *)
Definition selectReference (inputs outputs : list FusionTv)
  : string + Reference :=
  let max_dims := maxRootDims inputs outputs in
  if (max_dims =? 0)%nat then inr AllZeroDim
  else
    match
      find (fun out => hasDefinition out &&
                       (nRootDims (tensor out) =? max_dims)%nat)
           outputs
    with
    | Some reference_tv => inr (ReferenceTv reference_tv)
    | None =>
        inl "Could not find a fully broadcasted output to reference schedule on."%string
    end.

(** The loop that looks for the inner-most axis of the reference tensor,
    over the axes from the last to the first: reductions are skipped, and
    the loop stops at the first axis that is not one. *)
Fixpoint innerMostLoop (reversed : list IterDomain)
    (inner_most_id : option IterDomain) : option IterDomain :=
  match reversed with
  | [] => inner_most_id
  | it :: rest =>
      if isReduction it then innerMostLoop rest inner_most_id
      else
        let inner_most_id :=
          if isBroadcast it &&
             match inner_most_id with None => true | Some _ => false end
          then Some it else inner_most_id in
        let inner_most_id := Some it in
        inner_most_id
  end.

Definition innerMostId (td : TensorDomain) : option IterDomain :=
  innerMostLoop (rev td) None.

(** [IterDomain::parallelize]. *)
Definition parallelize (pt : ParallelType) (id : IterDomain) : IterDomain :=
  mkIterDomain (extent id) pt (isReduction id) (isBroadcast id).

(** Clearing of the vectorization mark on the axes of one tensor. *)
Definition clearVectorizeDomain (td : TensorDomain) : TensorDomain :=
  map (fun id =>
         if ParallelType_eqb (getParallelType id) Vectorize
         then parallelize Serial id else id)
      td.

(** The clean-up after propagation: when the schedule vectorizes, every
    tensor that is not in [vectorized_tensor] has its vectorized axes made
    serial.  Tensors are identified by their name. *)
Definition clearVectorize (vectorize : bool) (vectorized_tensor : list nat)
    (all_tvs : list TensorView) : list TensorView :=
  if vectorize then
    map (fun tv =>
           if existsb (Nat.eqb (tv_name tv)) vectorized_tensor then tv
           else mkTensorView (tv_name tv) (tv_dtype tv)
                  (getMaybeRFactorDomain tv)
                  (clearVectorizeDomain (domain tv)))
        all_tvs
  else all_tvs.

(** Position of the first element satisfying [p]. *)
Fixpoint find_index {A : Type} (p : A -> bool) (l : list A) : option nat :=
  match l with
  | [] => None
  | x :: r =>
      if p x then Some 0%nat
      else match find_index p r with
           | Some i => Some (S i)
           | None => None
           end
  end.

(** The compute-at position inside the unswitch: one past the first
    Unswitch axis, or -1 when there is none. *)
Definition unswitchPos (td : TensorDomain) : Z :=
  match
    find_index (fun id => ParallelType_eqb (getParallelType id) Unswitch) td
  with
  | None => -1
  | Some i => Z.of_nat i + 1
  end.

End Schedule.

(** ** Notions used to state further properties *)

Module MoreProps.
Import IR Kir Lower Props.

(** A computation started in a state satisfying [P] ends in a state
    satisfying [Q], or fails with a message satisfying [E]. *)
Definition triple {A : Type} (P : IndexLowering -> Prop) (m : M A)
    (Q : A -> IndexLowering -> Prop) (E : string -> Prop) : Prop :=
  forall st,
    P st ->
    match m st with
    | (inr a, st') => Q a st'
    | (inl msg, _) => E msg
    end.

(** The scope pointer is [p], the loop stack is [loops], and the pointer
    leads to a scope. *)
Definition scoped (p : list ScopeSel) (loops : list ForLoopHeader)
    (st : IndexLowering) : Prop :=
  active_scope_ st = p /\ for_loops_ st = loops /\ wellScoped st.

(** Messages of the pass other than the two that report a broken scope
    pointer or an empty top-level list. *)
Definition sound (msg : string) : Prop :=
  msg <> "dangling active scope"%string /\
  msg <> "!lowered_exprs_.empty()"%string.

(** Every expression keeps the scope pointer and the loop stack, and never
    breaks the scope pointer. *)
Definition keepsScopes (current : GpuLower) (e : Expr) : Prop :=
  forall p loops,
    triple (scoped p loops) (handle current e) (fun _ => scoped p loops)
           sound.

(** Loops whose extent counts in the buffer sizes and entrance numbers. *)
Definition counted (fl : ForLoopHeader) : bool :=
  negb (isTrivial fl) && negb (isThread (iter_domain fl)).

(** Under [env], the index of every counted loop is within its extent. *)
Definition indicesInRange (env : string -> Z)
    (loops : list ForLoopHeader) : Prop :=
  Forall
    (fun fl =>
       counted fl = true ->
       0 <= eval env (index fl) < eval env (extent (iter_domain fl)))
    loops.

(** A serial loop nest inside which a grid reduction is lowered. *)
Definition nestedLoops : list ForLoopHeader :=
  [mkForLoop (mkIterDomain (Int 4) Serial false false) (NamedScalar "i")
             false;
   mkForLoop (mkIterDomain (Int 128) TIDx false false)
             (NamedScalar "threadIdx.x") true;
   mkForLoop (mkIterDomain (Int 5) Serial false false) (NamedScalar "j")
             false].

Definition nestedState : IndexLowering :=
  mkIndexLowering [E_ForLoop Examples.serialLoop []] [InBody] nestedLoops.

Definition indexBinding (i j : Z) : string -> Z :=
  fun name =>
    if String.eqb name "i" then i
    else if String.eqb name "j" then j else 0.

End MoreProps.

(** ** Notions used to state properties of the pointwise heuristic *)

Module SearchNotions.
Import IR Pointwise.

(** The state the loop body sets when it adopts the candidate
    [break_point_i]. *)
Definition adoptedState (elem_counts : list Z) (n_elems : Z)
    (mapping_count : list Z) (max_unroll_factor : Z)
    (device_multiprocessor_count : Z) (break_point_i : nat) : SearchState :=
  let cur_right := cur_right_elem_count elem_counts break_point_i in
  let cur_left := cur_left_elem_count elem_counts n_elems break_point_i in
  let bdimx' := Z.min (ceilDiv64 cur_right max_unroll_factor) kThreadX in
  let bdimy' :=
    if cur_left >? device_multiprocessor_count
    then Z.quot kThreadX bdimx' else 1 in
  let remainder_right :=
    ceilDiv64 cur_right (mul64 (mul64 bdimy' bdimx') max_unroll_factor) in
  mkSearchState break_point_i cur_right bdimx' bdimy'
    (ceilDiv64 cur_left bdimy')
    (if (remainder_right >? 1) && (bdimy' <=? 1) then remainder_right else 1)
    (cur_transfer_size elem_counts mapping_count break_point_i).

(** The block holds between 1 and [kThreadX] threads and the grid is not
    empty. *)
Definition launchBounds (s : SearchState) : Prop :=
  1 <= bdimx s <= kThreadX /\
  1 <= bdimy s /\
  bdimx s * bdimy s <= kThreadX /\
  1 <= gdimx s /\
  1 <= gdimy s.

(** Number of root dimensions that are neither reductions nor
    broadcasts, as the heuristic counts them. *)
Definition countedDims (tv : TensorView) : Z :=
  Z.of_nat
    (List.length (nonReductionNonBroadcast (getMaybeRFactorDomain tv))).

(** A pointwise fusion over six dimensions of extent 32: three double
    inputs, a float input and a half input give a boolean output, so 31
    bytes are mapped to every dimension of the reference tensor. *)
Definition overflowDomain : TensorDomain :=
  repeat (mkIterDomain (Int 32) Serial false false) 6.

Definition overflowTensor (name : nat) (dt : DataType) : TensorView :=
  mkTensorView name dt overflowDomain overflowDomain.

Definition overflowFusion : Fusion :=
  mkFusion
    [overflowTensor 0 DT_Double; overflowTensor 1 DT_Double;
     overflowTensor 2 DT_Double; overflowTensor 3 DT_Float;
     overflowTensor 4 DT_Half]
    [overflowTensor 5 DT_Bool] false.

Definition overflowInfo : SchedulerRuntimeInfo :=
  mkRuntimeInfo
    (fun s => match s with Int n => Some n | _ => None end)
    (fun _ => 1)
    80
    false
    (fun dt =>
       match dt with
       | DT_Double | DT_Int => 8
       | DT_Float | DT_Int32 => 4
       | DT_Half => 2
       | DT_Bool => 1
       end)
    (fun _ => [])
    (fun _ => repeat 31 6).

End SearchNotions.

(** ** Scopes and paths *)

Module ScopeFacts.
Import IR Kir Lower Props.

Lemma unsnoc_app {A : Type} (l : list A) (x : A) :
  unsnoc (l ++ [x]) = Some (l, x).
Proof.
  induction l as [|a l IH]; simpl; [reflexivity|].
  now rewrite IH.
Qed.

Lemma unsnoc_inv {A : Type} (l front : list A) (x : A) :
  unsnoc l = Some (front, x) -> l = front ++ [x].
Proof.
  revert front x.
  induction l as [|a l IH]; simpl; intros front x H; [discriminate|].
  destruct (unsnoc l) as [[f y]|] eqn:E.
  - inversion H; subst. simpl. f_equal. now apply IH.
  - inversion H; subst. destruct l; [reflexivity|].
    simpl in E. destruct (unsnoc l) as [[? ?]|]; discriminate.
Qed.

Lemma push_at_replace (p : list ScopeSel) :
  forall l sc e,
    scope_at p l = Some sc ->
    push_at p e l = replace_at p (sc ++ [e]) l.
Proof.
  induction p as [|sel p IH]; simpl; intros l sc e H.
  - now inversion H.
  - destruct (unsnoc l) as [[front last]|]; [|discriminate].
    destruct last; try discriminate; destruct sel; try discriminate;
      now rewrite (IH _ _ e H).
Qed.

Lemma replace_at_scope (p : list ScopeSel) :
  forall l sc new,
    scope_at p l = Some sc ->
    exists l', replace_at p new l = Some l' /\ scope_at p l' = Some new.
Proof.
  induction p as [|sel p IH]; simpl; intros l sc new H.
  - eexists; split; reflexivity.
  - destruct (unsnoc l) as [[front last]|]; [|discriminate].
    destruct last; try discriminate; destruct sel; try discriminate;
      destruct (IH _ _ new H) as (b' & Hr & Hs); rewrite Hr;
      eexists; split; try reflexivity; now rewrite unsnoc_app.
Qed.

Lemma replace_replace (p : list ScopeSel) :
  forall l a l1 b,
    replace_at p a l = Some l1 ->
    replace_at p b l1 = replace_at p b l.
Proof.
  induction p as [|sel p IH]; simpl; intros l a l1 b H; [reflexivity|].
  destruct (unsnoc l) as [[front last]|]; [|discriminate].
  destruct last; try discriminate; destruct sel; try discriminate.
  - destruct (replace_at p a body) as [body'|] eqn:E; [|discriminate].
    inversion H; subst. rewrite unsnoc_app. now rewrite (IH _ _ _ b E).
  - destruct (replace_at p a thenBody) as [t'|] eqn:E; [|discriminate].
    inversion H; subst. rewrite unsnoc_app. now rewrite (IH _ _ _ b E).
  - destruct (replace_at p a elseBody) as [e'|] eqn:E; [|discriminate].
    inversion H; subst. rewrite unsnoc_app. now rewrite (IH _ _ _ b E).
Qed.

Lemma scope_at_enter (p : list ScopeSel) :
  forall l front x sel,
    scope_at p l = Some (front ++ [x]) ->
    scope_at (p ++ [sel]) l = scope_at [sel] [x].
Proof.
  induction p as [|s p IH]; simpl; intros l front x sel H.
  - inversion H; subst. now rewrite unsnoc_app.
  - destruct (unsnoc l) as [[f last]|]; [|discriminate].
    destruct last; try discriminate; destruct s; try discriminate;
      now apply (IH _ front).
Qed.

Lemma replace_at_enter (p : list ScopeSel) :
  forall l front x sel new,
    scope_at p l = Some (front ++ [x]) ->
    replace_at (p ++ [sel]) new l =
    match replace_at [sel] new [x] with
    | Some [x'] => replace_at p (front ++ [x']) l
    | _ => None
    end.
Proof.
  induction p as [|s p IH]; simpl; intros l front x sel new H.
  - inversion H; subst. rewrite unsnoc_app.
    destruct x; try reflexivity; destruct sel; reflexivity.
  - destruct (unsnoc l) as [[f last]|]; [|discriminate].
    destruct last; try discriminate; destruct s; try discriminate;
      rewrite (IH _ front x sel new H); simpl;
      destruct x; try reflexivity; destruct sel; reflexivity.
Qed.

End ScopeFacts.

(** ** Re-indexing of expressions without reductions *)

Module ReindexFacts.
Import IR Kir Lower Props ScopeFacts.
Local Open Scope lower_scope.

Lemma Expr_bodies_ind (P : Expr -> Prop) :
  (forall e, Forall P (bodies e) -> P e) -> forall e, P e.
Proof.
  intros H. fix IH 1. intros e. apply H.
  destruct e; simpl; try constructor.
  - induction body; constructor; auto.
  - apply Forall_app; split;
      [induction thenBody | induction elseBody]; constructor; auto.
Qed.

Lemma replace_at_result (p : list ScopeSel) :
  forall l new l',
    replace_at p new l = Some l' -> scope_at p l' = Some new.
Proof.
  induction p as [|sel p IH]; simpl; intros l new l' H.
  - now inversion H.
  - destruct (unsnoc l) as [[front last]|]; [|discriminate].
    destruct last; try discriminate; destruct sel; try discriminate.
    + destruct (replace_at p new body) eqn:E; [|discriminate].
      inversion H; subst. rewrite unsnoc_app. eauto.
    + destruct (replace_at p new thenBody) eqn:E; [|discriminate].
      inversion H; subst. rewrite unsnoc_app. eauto.
    + destruct (replace_at p new elseBody) eqn:E; [|discriminate].
      inversion H; subst. rewrite unsnoc_app. eauto.
Qed.

Lemma replace_at_id (p : list ScopeSel) :
  forall l sc, scope_at p l = Some sc -> replace_at p sc l = Some l.
Proof.
  induction p as [|sel p IH]; simpl; intros l sc H.
  - now inversion H.
  - destruct (unsnoc l) as [[front last]|] eqn:E; [|discriminate].
    apply unsnoc_inv in E. subst l.
    destruct last; try discriminate; destruct sel; try discriminate;
      now rewrite (IH _ _ H).
Qed.

Lemma pushBack_spec (e : Expr) (st : IndexLowering) (sc : list Expr) :
  scope_at (active_scope_ st) (lowered_exprs_ st) = Some sc ->
  exists l',
    pushBack e st =
      (inr tt, mkIndexLowering l' (active_scope_ st) (for_loops_ st)) /\
    replace_at (active_scope_ st) (sc ++ [e]) (lowered_exprs_ st) = Some l' /\
    scope_at (active_scope_ st) l' = Some (sc ++ [e]).
Proof.
  intros H. unfold pushBack.
  rewrite (push_at_replace _ _ _ e H).
  destruct (replace_at_scope _ _ _ (sc ++ [e]) H) as (l' & Hr & Hs).
  rewrite Hr. eauto.
Qed.

Lemma lowerSrcIndex_ok (current : GpuLower) (loops : list ForLoopHeader)
    (inp out : Val) :
  srcOk inp out = true ->
  exists v, lowerSrcIndex current loops inp out = inr v.
Proof.
  unfold srcOk, lowerSrcIndex.
  destruct inp; simpl; eauto.
  destruct out; simpl; try discriminate; eauto.
Qed.

Ltac run_src :=
  match goal with
  | |- context [lowerSrcIndex ?c ?l ?i ?o] =>
      let v := fresh "v" in
      let Hv := fresh "Hv" in
      destruct (lowerSrcIndex_ok c l i o) as [v Hv];
      [assumption | rewrite Hv; simpl]
  end.

Ltac split_andb :=
  repeat match goal with
         | H : _ && _ = true |- _ => apply andb_prop in H; destruct H
         end.

Ltac finish_push st sc Hsc e :=
  destruct (pushBack_spec e st sc Hsc) as (l' & Hp & Hr & _);
  exists e, l'; rewrite Hp; repeat split; assumption.

Lemma handle_ForLoop (current : GpuLower) (fl : ForLoopHeader)
    (body : list Expr) :
  handle current (E_ForLoop fl body) =
  (prev_scope <- gets active_scope_ ;;
   pushBack (E_ForLoop fl []) ;;
   set_active_scope (prev_scope ++ [InBody]) ;;
   loops <- gets for_loops_ ;;
   set_for_loops (loops ++ [fl]) ;;
   generate current body ;;
   loops' <- gets for_loops_ ;;
   set_for_loops (removelast loops') ;;
   set_active_scope prev_scope).
Proof. reflexivity. Qed.

Lemma handle_IfThenElse (current : GpuLower) (pred : Predicate)
    (thenBody elseBody : list Expr) :
  handle current (E_IfThenElse pred thenBody elseBody) =
  (prev_scope <- gets active_scope_ ;;
   pushBack (E_IfThenElse pred [] []) ;;
   set_active_scope (prev_scope ++ [InThen]) ;;
   generate current thenBody ;;
   set_active_scope (prev_scope ++ [InElse]) ;;
   generate current elseBody ;;
   set_active_scope prev_scope).
Proof. reflexivity. Qed.

Lemma generate_reindexes (current : GpuLower) (es : list Expr) :
  Forall (reindexes current) es ->
  forall st sc,
    forallb (reindexOnly current (for_loops_ st)) es = true ->
    scope_at (active_scope_ st) (lowered_exprs_ st) = Some sc ->
    exists es' l',
      generate current es st =
        (inr tt, mkIndexLowering l' (active_scope_ st) (for_loops_ st)) /\
      replace_at (active_scope_ st) (sc ++ es') (lowered_exprs_ st)
        = Some l' /\
      map structure es' = map structure es.
Proof.
  induction 1 as [|e es He _ IH]; intros st sc Hpure Hsc.
  - exists [], (lowered_exprs_ st). simpl. unfold ret.
    rewrite app_nil_r. destruct st; simpl in *.
    repeat split. now apply replace_at_id.
  - simpl in Hpure. apply andb_prop in Hpure. destruct Hpure as [Hp1 Hp2].
    destruct (He st sc Hp1 Hsc) as (e' & l1 & Hrun & Hrep & Hstr).
    pose proof (replace_at_result _ _ _ _ Hrep) as Hsc1.
    destruct (IH (mkIndexLowering l1 (active_scope_ st) (for_loops_ st))
                 (sc ++ [e']) Hp2 Hsc1) as (es' & l2 & Hrun2 & Hrep2 & Hstr2).
    simpl in *.
    exists (e' :: es'), l2. unfold bind. rewrite Hrun, Hrun2.
    repeat split.
    + rewrite (replace_replace _ _ _ _ _ Hrep) in Hrep2.
      now rewrite <- app_assoc in Hrep2.
    + simpl. now rewrite Hstr, Hstr2.
Qed.

Lemma handle_reindexes (current : GpuLower) (e : Expr) :
  reindexes current e.
Proof.
  induction e as [e IH] using Expr_bodies_ind.
  intros st sc Hpure Hsc.
  destruct e; simpl in Hpure; try discriminate; split_andb.
  - (* UnaryOp *)
    simpl. unfold handle_UnaryOp, src, dst, gets, lift, bind, ret. simpl.
    run_src.
    match goal with |- context [pushBack ?x] => finish_push st sc Hsc x end.
  - (* BinaryOp *)
    simpl. unfold handle_BinaryOp, src, dst, gets, lift, bind, ret. simpl.
    do 2 run_src.
    match goal with |- context [pushBack ?x] => finish_push st sc Hsc x end.
  - (* TernaryOp *)
    simpl. unfold handle_TernaryOp, src, dst, gets, lift, bind, ret. simpl.
    do 3 run_src.
    match goal with |- context [pushBack ?x] => finish_push st sc Hsc x end.
  - (* ViewAsScalar *)
    simpl. unfold handle_ViewAsScalar, src, dst, gets, lift, bind, ret.
    simpl. run_src.
    match goal with
    | H : existsb ?f ?l = true |- _ =>
        destruct (find f l) as [loop|] eqn:Ef;
        [|apply existsb_exists in H; destruct H as (x & Hin & Hx);
          pose proof (find_none _ _ Ef _ Hin) as Hn; simpl in Hn;
          congruence]
    end.
    match goal with |- context [pushBack ?x] => finish_push st sc Hsc x end.
  - (* MmaOp *)
    simpl. unfold handle_MmaOp, src, dst, gets, lift, bind, ret. simpl.
    do 2 run_src.
    match goal with |- context [pushBack ?x] => finish_push st sc Hsc x end.
  - (* BroadcastOp *)
    simpl. unfold handle_BroadcastOp.
    destruct (bop_out bop) as [| out_tv |] eqn:Eout; try discriminate.
    unfold src, dst, gets, lift, bind, ret. simpl.
    rewrite Hpure. simpl. destruct (bop_in bop); simpl;
    match goal with |- context [pushBack ?x] => finish_push st sc Hsc x end.
  - (* ForLoop *)
    rewrite handle_ForLoop. simpl in IH.
    unfold bind at 1. unfold gets at 1. unfold bind at 1.
    destruct (pushBack_spec (E_ForLoop fl []) st sc Hsc)
      as (l1 & Hp & Hr1 & Hs1).
    rewrite Hp. unfold bind at 1. unfold set_active_scope at 1. simpl.
    unfold bind at 1. unfold gets at 1. unfold bind at 1.
    unfold set_for_loops at 1. simpl. unfold bind at 1.
    pose (st1 := mkIndexLowering l1 (active_scope_ st ++ [InBody])
                                 (for_loops_ st ++ [fl])).
    assert (Hsc1 : scope_at (active_scope_ st1) (lowered_exprs_ st1)
                   = Some []).
    { simpl. rewrite (scope_at_enter _ _ _ _ InBody Hs1). simpl.
      reflexivity. }
    destruct (generate_reindexes current body IH st1 [] Hpure Hsc1)
      as (body' & l2 & Hrun & Hrep & Hstr).
    fold st1. rewrite Hrun. simpl.
    unfold bind, gets, set_for_loops, set_active_scope. simpl.
    rewrite removelast_last.
    exists (E_ForLoop fl body'), l2. repeat split.
    + simpl in Hrep.
      rewrite (replace_at_enter _ _ _ _ InBody body' Hs1) in Hrep.
      simpl in Hrep.
      now rewrite (replace_replace _ _ _ _ _ Hr1) in Hrep.
    + simpl. now rewrite Hstr.
  - (* IfThenElse *)
    rewrite handle_IfThenElse. simpl in IH.
    apply Forall_app in IH. destruct IH as [IHt IHe].
    unfold bind at 1. unfold gets at 1. unfold bind at 1.
    destruct (pushBack_spec (E_IfThenElse pred [] []) st sc Hsc)
      as (l1 & Hp & Hr1 & Hs1).
    rewrite Hp. unfold bind at 1. unfold set_active_scope at 1. simpl.
    unfold bind at 1.
    pose (st1 := mkIndexLowering l1 (active_scope_ st ++ [InThen])
                                 (for_loops_ st)).
    assert (Hsc1 : scope_at (active_scope_ st1) (lowered_exprs_ st1)
                   = Some []).
    { simpl. rewrite (scope_at_enter _ _ _ _ InThen Hs1). reflexivity. }
    destruct (generate_reindexes current thenBody IHt st1 [] H Hsc1)
      as (then' & l2 & Hrun & Hrep & Hstr).
    fold st1. rewrite Hrun. simpl. simpl in Hrep.
    rewrite (replace_at_enter _ _ _ _ InThen then' Hs1) in Hrep.
    simpl in Hrep.
    pose proof (replace_at_result _ _ _ _ Hrep) as Hs2.
    unfold bind at 1. unfold set_active_scope at 1. simpl.
    unfold bind at 1.
    pose (st2 := mkIndexLowering l2 (active_scope_ st ++ [InElse])
                                 (for_loops_ st)).
    assert (Hsc2 : scope_at (active_scope_ st2) (lowered_exprs_ st2)
                   = Some []).
    { simpl. rewrite (scope_at_enter _ _ _ _ InElse Hs2). reflexivity. }
    destruct (generate_reindexes current elseBody IHe st2 [] H0 Hsc2)
      as (else' & l3 & Hrun3 & Hrep3 & Hstr3).
    fold st2. rewrite Hrun3. simpl.
    unfold set_active_scope. simpl.
    exists (E_IfThenElse pred then' else'), l3. repeat split.
    + simpl in Hrep3.
      rewrite (replace_at_enter _ _ _ _ InElse else' Hs2) in Hrep3.
      simpl in Hrep3.
      rewrite (replace_replace _ _ _ _ _ Hrep) in Hrep3.
      now rewrite (replace_replace _ _ _ _ _ Hr1) in Hrep3.
    + simpl. now rewrite Hstr, Hstr3.
  - (* Allocate *)
    simpl. finish_push st sc Hsc (E_Allocate a).
  - (* BlockSync *)
    simpl. finish_push st sc Hsc (E_BlockSync war_sync).
  - (* GridSync *)
    simpl. finish_push st sc Hsc (E_GridSync sync_dims sync_buffer).
Qed.

End ReindexFacts.

(** ** Properties of the lowering of expressions without reductions *)

Module ReindexProps.
Import IR Kir Lower Props ScopeFacts ReindexFacts.

Lemma countIn_structure (p : Expr -> bool) :
  (forall x y, structure x = structure y -> p x = p y) ->
  forall e e', structure e = structure e' -> countIn p e = countIn p e'.
Proof.
  intros Hp e. induction e as [e IH] using Expr_bodies_ind.
  assert (Hl : forall l l', Forall (fun x => forall e' : Expr,
                 structure x = structure e' -> countIn p x = countIn p e') l ->
               map structure l = map structure l' ->
               fold_right (fun x n => (countIn p x + n)%nat) 0%nat l =
               fold_right (fun x n => (countIn p x + n)%nat) 0%nat l').
  { induction l as [|x l IHl]; intros l' HF Hm; destruct l';
      try discriminate; [reflexivity|].
    simpl in Hm. inversion Hm. inversion HF; subst. simpl.
    f_equal; auto. }
  intros e' Hs. pose proof (Hp _ _ Hs) as Hpe.
  destruct e; destruct e'; simpl in Hs; try discriminate;
    simpl; rewrite ?Hpe; try reflexivity.
  - inversion Hs. simpl in IH. f_equal. now apply Hl.
  - inversion Hs. simpl in IH. apply Forall_app in IH. destruct IH.
    f_equal; [f_equal|]; now apply Hl.
Qed.

Lemma countExprs_structure (p : Expr -> bool) :
  (forall x y, structure x = structure y -> p x = p y) ->
  forall l l', map structure l = map structure l' ->
               countExprs p l = countExprs p l'.
Proof.
  intros Hp. induction l as [|x l IH]; intros l' Hm; destruct l';
    try discriminate; [reflexivity|].
  simpl in Hm. inversion Hm. unfold countExprs. simpl.
  f_equal; [now apply countIn_structure | now apply IH].
Qed.

(** C6.  A list of expressions that lowering only re-indexes (no reduction,
    no Welford, no broadcast over a grid dimension, operands that can be
    indexed) is lowered successfully, and the lowered list has the same
    structure as the source: the same kinds of nodes in the same order with
    the same scope nesting, hence the same number of nodes and the same
    number of Allocate nodes. *)
Theorem reindexing_mirrors_source (current : GpuLower) (exprs : list Expr) :
  forallb (reindexOnly current []) exprs = true ->
  exists lowered,
    generate current exprs (mkIndexLowering [] [] [])
      = (inr tt, mkIndexLowering lowered [] []) /\
    map structure lowered = map structure exprs /\
    countExprs anyExpr lowered = countExprs anyExpr exprs /\
    countExprs isAllocate lowered = countExprs isAllocate exprs.
Proof.
  intros Hpure.
  assert (HF : Forall (reindexes current) exprs).
  { apply Forall_forall. intros e _. apply handle_reindexes. }
  destruct (generate_reindexes current exprs HF (mkIndexLowering [] [] []) []
              Hpure eq_refl) as (es' & l' & Hrun & Hrep & Hstr).
  simpl in Hrep. inversion Hrep; subst l'.
  exists es'. simpl in Hrun.
  repeat split; try assumption.
  - now apply countExprs_structure.
  - apply countExprs_structure; [|assumption].
    intros x y Hxy. destruct x; destruct y; simpl in Hxy;
      try discriminate; reflexivity.
Qed.

Lemma reindexing_mirrors_source_witness :
  exists lowered,
    generate Examples.symbolicGrid Examples.pointwiseKernel
             (mkIndexLowering [] [] [])
      = (inr tt, mkIndexLowering lowered [] []) /\
    map structure lowered = map structure Examples.pointwiseKernel /\
    countExprs anyExpr lowered = countExprs anyExpr Examples.pointwiseKernel /\
    countExprs isAllocate lowered
      = countExprs isAllocate Examples.pointwiseKernel.
Proof.
  apply (reindexing_mirrors_source Examples.symbolicGrid
           Examples.pointwiseKernel).
  reflexivity.
Defined.

End ReindexProps.

(** ** Buffer sizes and emission of the grid reductions *)

Module ReductionFacts.
Import IR Kir Lower Props ScopeFacts ReindexFacts.
Local Open Scope lower_scope.

Lemma eval_mulExpr (env : string -> Z) (a b : Scalar) :
  eval env (mulExpr a b) = eval env a * eval env b.
Proof.
  destruct b as [zb| | | | |];
    [destruct zb as [|pb|pb]; [|destruct pb|]|..];
    (destruct a as [za| | | | |];
     [destruct za as [|pa|pa]; [|destruct pa|]|..]);
    cbv beta iota fix delta [mulExpr eval zeroVal];
    try reflexivity; try lia; try ring.
Qed.

Lemma eval_addExpr (env : string -> Z) (a b : Scalar) :
  eval env (addExpr a b) = eval env a + eval env b.
Proof.
  destruct b as [zb| | | | |];
    [destruct zb as [|pb|pb]|..];
    (destruct a as [za| | | | |];
     [destruct za as [|pa|pa]|..]);
    cbv beta iota fix delta [addExpr eval zeroVal];
    try reflexivity; try lia; try ring.
Qed.

Lemma eval_mulLoopExtents (env : string -> Z) (loops : list ForLoopHeader) :
  forall b,
    eval env (mulLoopExtents b loops) =
    eval env b * loopExtentProduct env loops.
Proof.
  unfold mulLoopExtents.
  induction loops as [|fl loops IH]; intros b; simpl; [lia|].
  rewrite IH.
  destruct (isTrivial fl); simpl; [reflexivity|].
  destruct (isThread (iter_domain fl)); simpl; [reflexivity|].
  rewrite eval_mulExpr. lia.
Qed.

Lemma isOneInt_eval (env : string -> Z) (v : Scalar) :
  isOneInt v = true -> eval env v = 1.
Proof.
  destruct v; simpl; try discriminate.
  destruct z as [|[]|]; simpl; try discriminate; reflexivity.
Qed.

Lemma eval_workDims (current : GpuLower) (env : string -> Z)
    (td : TensorDomain) (pts : list ParallelType) :
  forall b,
    eval env
      (fold_left
         (fun size pt =>
            match parallelDimensionMap current pt with
            | None => size
            | Some pt_dim =>
                if isOneInt pt_dim then size
                else if isParallelTypeThreadDim pt &&
                        usedByReductionOrBroadcast td pt
                then size
                else mulExpr size pt_dim
            end) pts b) =
    eval env b *
    fold_right
      (fun pt acc =>
         match parallelDimensionMap current pt with
         | None => acc
         | Some pt_dim =>
             if isParallelTypeThreadDim pt && usedByReductionOrBroadcast td pt
             then acc else eval env pt_dim * acc
         end) 1 pts.
Proof.
  induction pts as [|pt pts IH]; intros b; simpl; [lia|].
  rewrite IH.
  destruct (parallelDimensionMap current pt) as [d|]; [|reflexivity].
  destruct (isOneInt d) eqn:E1.
  - rewrite (isOneInt_eval env d E1).
    destruct (isParallelTypeThreadDim pt && usedByReductionOrBroadcast td pt);
      lia.
  - destruct (isParallelTypeThreadDim pt && usedByReductionOrBroadcast td pt);
      [reflexivity|].
    rewrite eval_mulExpr. lia.
Qed.

Lemma eval_syncDims (current : GpuLower) (env : string -> Z)
    (td : TensorDomain) (pts : list ParallelType) :
  forall b,
    eval env
      (fold_left
         (fun size pt =>
            match parallelDimensionMap current pt with
            | None => size
            | Some pt_dim =>
                if isOneInt pt_dim then size
                else if usedByReductionOrBroadcast td pt then size
                else mulExpr size pt_dim
            end) pts b) =
    eval env b *
    fold_right
      (fun pt acc =>
         match parallelDimensionMap current pt with
         | None => acc
         | Some pt_dim =>
             if usedByReductionOrBroadcast td pt
             then acc else eval env pt_dim * acc
         end) 1 pts.
Proof.
  induction pts as [|pt pts IH]; intros b; simpl; [lia|].
  rewrite IH.
  destruct (parallelDimensionMap current pt) as [d|]; [|reflexivity].
  destruct (isOneInt d) eqn:E1.
  - rewrite (isOneInt_eval env d E1).
    destruct (usedByReductionOrBroadcast td pt); lia.
  - destruct (usedByReductionOrBroadcast td pt); [reflexivity|].
    rewrite eval_mulExpr. lia.
Qed.

(** The work buffer holds the expansion factor times the counted parallel
    dimensions times the extents of the serial loops passed in. *)
Lemma eval_workBufferSize (current : GpuLower) (env : string -> Z)
    (td : TensorDomain) (loops : list ForLoopHeader) (k : Z) (size : Scalar) :
  getGridCommWorkBufferSize current td loops k = inr size ->
  eval env size =
  k * workDimProduct current env td * loopExtentProduct env loops.
Proof.
  unfold getGridCommWorkBufferSize, workDimProduct. cbv zeta.
  destruct (k <? 1) eqn:Ek; [discriminate|].
  intros H.
  apply (f_equal (fun r : Result Scalar =>
                    match r with inr x => eval env x | inl _ => 0 end)) in H.
  cbv beta iota in H. rewrite <- H.
  rewrite eval_mulLoopExtents, eval_workDims.
  destruct (k =? 1) eqn:E1; [apply Z.eqb_eq in E1; subst|]; reflexivity.
Qed.

Lemma eval_syncBufferSize (current : GpuLower) (env : string -> Z)
    (td : TensorDomain) (loops : list ForLoopHeader) :
  eval env (getGridSyncBufferSize current td loops) =
  syncDimProduct current env td * loopExtentProduct env loops.
Proof.
  unfold getGridSyncBufferSize, syncDimProduct. cbv zeta.
  rewrite eval_mulLoopExtents, eval_syncDims.
  change (eval env oneVal) with 1. ring.
Qed.

Lemma workBufferSize_total (current : GpuLower) (td : TensorDomain)
    (loops : list ForLoopHeader) (b : bool) :
  exists size,
    getGridCommWorkBufferSize current td loops (if b then 2 else 1)
      = inr size.
Proof.
  unfold getGridCommWorkBufferSize. destruct b; simpl; eauto.
Qed.

Lemma loopExtentProduct_noSerial (env : string -> Z)
    (loops : list ForLoopHeader) :
  noSerialLoops loops = true -> loopExtentProduct env loops = 1.
Proof.
  unfold noSerialLoops, loopExtentProduct.
  induction loops as [|fl loops IH]; simpl; [reflexivity|].
  intros H. apply andb_prop in H. destruct H as [H1 H2].
  rewrite H1. auto.
Qed.

Lemma pushBackAll_spec (es : list Expr) :
  forall st sc,
    scope_at (active_scope_ st) (lowered_exprs_ st) = Some sc ->
    exists l',
      pushBackAll es st =
        (inr tt, mkIndexLowering l' (active_scope_ st) (for_loops_ st)) /\
      replace_at (active_scope_ st) (sc ++ es) (lowered_exprs_ st)
        = Some l' /\
      scope_at (active_scope_ st) l' = Some (sc ++ es).
Proof.
  induction es as [|e es IH]; intros st sc Hsc; simpl.
  - exists (lowered_exprs_ st). rewrite app_nil_r. unfold ret.
    destruct st; simpl in *. repeat split; [|assumption].
    now apply replace_at_id.
  - destruct (pushBack_spec e st sc Hsc) as (l1 & Hp & Hr & Hs).
    unfold bind. rewrite Hp.
    destruct (IH (mkIndexLowering l1 (active_scope_ st) (for_loops_ st))
                 (sc ++ [e]) Hs) as (l2 & Hp2 & Hr2 & Hs2).
    simpl in *. rewrite Hp2. exists l2.
    rewrite <- app_assoc in Hr2, Hs2. simpl in Hr2, Hs2.
    repeat split; [|assumption].
    now rewrite (replace_replace _ _ _ _ _ Hr) in Hr2.
Qed.

Lemma unsnoc_none {A : Type} (l : list A) : unsnoc l = None -> l = [].
Proof.
  destruct l as [|a l]; [reflexivity|]. simpl.
  destruct (unsnoc l) as [[? ?]|]; discriminate.
Qed.

Lemma replace_at_nonempty (p : list ScopeSel) (new l l1 : list Expr) :
  replace_at p new l = Some l1 -> new <> [] -> l1 <> [].
Proof.
  destruct p as [|sel p]; simpl.
  - intros H. inversion H. auto.
  - intros H _. destruct (unsnoc l) as [[front last]|]; [|discriminate].
    destruct last; try discriminate; destruct sel; try discriminate;
      match type of H with
      | match ?x with _ => _ end = _ => destruct x; [|discriminate]
      end; inversion H; intros E; now apply app_eq_nil in E.
Qed.

Lemma insertAtTopLevel_spec (e : Expr) (l : list Expr)
    (p : list ScopeSel) (loops : list ForLoopHeader) :
  l <> [] ->
  insertAtTopLevel e (mkIndexLowering l p loops) =
  (inr tt, mkIndexLowering (hoist e l) p loops).
Proof.
  intros Hl. unfold insertAtTopLevel, hoist. simpl.
  destruct (unsnoc l) as [[front last]|] eqn:E; [reflexivity|].
  now apply unsnoc_none in E.
Qed.

#[local] Arguments pushBack : simpl never.
#[local] Arguments pushBackAll : simpl never.
#[local] Arguments insertAtTopLevel : simpl never.
#[local] Opaque getGridCommWorkBufferSize getGridSyncBufferSize
  getEntranceLinIndGridReduce getEntranceCountGridReduce is_within_a_loop
  hasGridReduction hasBlockReduction.

Ltac push_step Hsc :=
  match goal with
  | |- context [pushBack ?e ?s] =>
      let l := fresh "l" in
      let Hp := fresh "Hp" in
      let Hr := fresh "Hr" in
      let Hs := fresh "Hs" in
      destruct (pushBack_spec e s _ Hsc) as (l & Hp & Hr & Hs);
      cbn [active_scope_ lowered_exprs_ for_loops_] in Hp, Hr, Hs;
      rewrite Hp; cbn beta iota
  end.

Ltac unfold_monad :=
  unfold TORCH_INTERNAL_ASSERT, src, dst, gets, lift, bind, ret, throw.

Lemma lowerSrcIndex_TV (current : GpuLower) (loops : list ForLoopHeader)
    (inp : Val) (tv : TensorView) :
  exists v, lowerSrcIndex current loops inp (TV tv) = inr v.
Proof. apply lowerSrcIndex_ok. unfold srcOk. simpl. apply orb_true_r. Qed.

(** What the grid lowering of a single reduction emits. *)
Lemma reduction_grid_run (current : GpuLower) (rop : ReductionOp)
    (tv : TensorView) (st : IndexLowering) :
  rop_out rop = TV tv ->
  hasGridReduction (domain tv) = true ->
  existsb serialReductionAxis (domain tv) = false ->
  wellScoped st ->
  exists size inp st',
    getGridCommWorkBufferSize current (domain tv)
      (if rop_isAllreduce rop then [] else for_loops_ st)
      (if rop_isAllreduce rop && is_within_a_loop current (domain tv)
       then 2 else 1) = inr size /\
    handle current (E_ReductionOp rop) st = (inr tt, st') /\
    let reduce_buffer := mkAllocate (tv_dtype tv) Global size false in
    let sync_buffer :=
      mkAllocate DT_Int Global
        (getGridSyncBufferSize current (domain tv)
           (if rop_isAllreduce rop then [] else for_loops_ st)) true in
    let node :=
      E_GridReduction
        (mkReductionOp (getReductionOpType rop) (rop_init rop)
           (TensorIndex tv (getConsumerIndex current tv (for_loops_ st)))
           inp (rop_isAllreduce rop) (rop_predicate rop)
           (rop_writePredicate rop))
        reduce_buffer sync_buffer
        (if rop_isAllreduce rop then zeroVal
         else getEntranceLinIndGridReduce (for_loops_ st))
        (if rop_isAllreduce rop then oneVal
         else getEntranceCountGridReduce (for_loops_ st))
        (getPredicatedParallelTypes current tv) in
    emitsInto st [E_Allocate reduce_buffer; E_Allocate sync_buffer; node]
      (if rop_isAllreduce rop
       then Some (E_AllocateFusedReduction node) else None) st'.
Proof.
  intros Hout Hgrid Hserial Hwf.
  unfold wellScoped in Hwf.
  destruct (scope_at (active_scope_ st) (lowered_exprs_ st)) as [sc|] eqn:Hsc;
    [clear Hwf | congruence].
  destruct (workBufferSize_total current (domain tv)
              (if rop_isAllreduce rop then [] else for_loops_ st)
              (rop_isAllreduce rop && is_within_a_loop current (domain tv)))
    as [size Hsize].
  destruct (lowerSrcIndex_TV current (for_loops_ st) (rop_in rop) tv)
    as [inp Hinp].
  exists size, inp.
  simpl. unfold handle_ReductionOp. rewrite Hout.
  unfold_monad. simpl. rewrite Hinp. simpl. rewrite Hgrid.
  unfold handleGridReduction. unfold_monad. simpl.
  rewrite ?Hgrid, ?Hserial. simpl.
  destruct (rop_isAllreduce rop) eqn:Eall; simpl in *; rewrite Hsize; simpl.
  - push_step Hsc. push_step Hs. push_step Hs0.
    rewrite insertAtTopLevel_spec.
    + eexists. split; [reflexivity|]. split; [reflexivity|].
      exists sc, l1. split; [assumption|]. split; [|reflexivity].
      rewrite (replace_replace _ _ _ _ _ Hr0) in Hr1.
      rewrite (replace_replace _ _ _ _ _ Hr) in Hr1.
      now rewrite <- !app_assoc in Hr1.
    + apply (replace_at_nonempty _ _ _ _ Hr1). now destruct sc.
  - push_step Hsc. push_step Hs. push_step Hs0.
    eexists. split; [reflexivity|]. split; [reflexivity|].
    exists sc, l1. split; [assumption|]. split; [|reflexivity].
    rewrite (replace_replace _ _ _ _ _ Hr0) in Hr1.
    rewrite (replace_replace _ _ _ _ _ Hr) in Hr1.
    now rewrite <- !app_assoc in Hr1.
Qed.

(** One more [pushBack] on top of the pushes accumulated so far. *)
Ltac push_acc :=
  match goal with
  | Hacc : replace_at ?p ?new ?l0 = Some ?lc,
    Hs : scope_at ?p ?lc = Some ?new
    |- context [pushBack ?e (mkIndexLowering ?lc ?p ?loops)] =>
      let l := fresh "l" in
      let Hp := fresh "Hp" in
      let Hr := fresh "Hr" in
      let Hs' := fresh "Hs" in
      destruct (pushBack_spec e (mkIndexLowering lc p loops) new Hs)
        as (l & Hp & Hr & Hs');
      cbn [active_scope_ lowered_exprs_ for_loops_] in Hp, Hr, Hs';
      rewrite Hp; cbn beta iota;
      try (rewrite (replace_replace _ _ _ _ _ Hacc) in Hr);
      clear Hacc Hs Hp
  end.

Lemma dtype_lowerDstIndex (current : GpuLower) (loops : list ForLoopHeader)
    (v : Val) :
  dtype (lowerDstIndex current loops v) = dtype v.
Proof. destruct v; reflexivity. Qed.

Lemma indexEntries_total (current : GpuLower) (loops : list ForLoopHeader)
    (l : list GroupedEntry) :
  Forall (fun e => isTV (ge_output e) = true) l ->
  exists indexed,
    mapResult (indexEntry current loops) l = inr indexed /\
    map (fun e => dtype (ge_output e)) indexed =
    map (fun e => dtype (ge_output e)) l.
Proof.
  induction 1 as [|e l He _ IH]; simpl.
  - exists []. split; reflexivity.
  - destruct IH as (ix & Hix & Hdt). unfold indexEntry at 1.
    destruct (lowerSrcIndex_ok current loops (ge_input e) (ge_output e))
      as [v Hv].
    { unfold srcOk. rewrite He. apply orb_true_r. }
    rewrite Hv, Hix. eexists. split; [reflexivity|].
    simpl. now rewrite dtype_lowerDstIndex, Hdt.
Qed.

Lemma workBuffers_total (current : GpuLower) (td : TensorDomain)
    (loops : list ForLoopHeader) (k : Z) (size : Scalar)
    (l : list GroupedEntry) :
  getGridCommWorkBufferSize current td loops k = inr size ->
  mapResult
    (fun e =>
       match getGridCommWorkBufferSize current td loops k with
       | inl err => inl err
       | inr sz =>
           inr (allocGlobalBufferForGridComm sz (dtype (ge_output e)) false)
       end) l =
  inr (map (fun e => mkAllocate (dtype (ge_output e)) Global size false) l).
Proof.
  intros H. rewrite H.
  induction l as [|e l IH]; simpl; [reflexivity|].
  now rewrite IH.
Qed.

(** What the grid lowering of a grouped reduction emits. *)
Lemma grouped_grid_run (current : GpuLower) (grop : GroupedReductionOp)
    (tv : TensorView) (st : IndexLowering) :
  getTvOutput (reductions grop) = Some tv ->
  allOutputsTV grop ->
  hasGridReduction (domain tv) = true ->
  existsb serialReductionAxis (domain tv) = false ->
  wellScoped st ->
  exists size indexed st',
    getGridCommWorkBufferSize current (domain tv) (for_loops_ st)
      (if grop_isAllreduce grop && is_within_a_loop current (domain tv)
       then 2 else 1) = inr size /\
    mapResult (indexEntry current (for_loops_ st)) (reductions grop)
      = inr indexed /\
    handle current (E_GroupedReductionOp grop) st = (inr tt, st') /\
    let work :=
      map (fun e => mkAllocate (dtype (ge_output e)) Global size false)
          (reductions grop) in
    let sync_buffer :=
      mkAllocate DT_Int Global
        (getGridSyncBufferSize current (domain tv) (for_loops_ st)) true in
    let node :=
      E_GroupedGridReduction
        (mkGroupedReductionOp indexed (grop_isAllreduce grop)
           (grop_predicate grop) (grop_writePredicate grop))
        work sync_buffer (getPredicatedParallelTypes current tv) in
    emitsInto st (map E_Allocate work ++ [E_Allocate sync_buffer; node])
      (if grop_isAllreduce grop
       then Some (E_AllocateFusedReduction node) else None) st'.
Proof.
  intros Hout Hall Hgrid Hserial Hwf.
  unfold wellScoped in Hwf.
  destruct st as [l0 p loops]. simpl in *.
  destruct (scope_at p l0) as [sc|] eqn:Hsc; [clear Hwf | congruence].
  destruct (workBufferSize_total current (domain tv) loops
              (grop_isAllreduce grop && is_within_a_loop current (domain tv)))
    as [size Hsize].
  destruct (indexEntries_total current loops (reductions grop) Hall)
    as (indexed & Hix & Hdt).
  exists size, indexed.
  unfold handle_GroupedReductionOp. rewrite Hout.
  unfold_monad. simpl. rewrite Hix. simpl. rewrite Hgrid.
  unfold handleGridReduction_grouped. rewrite Hout.
  unfold_monad. simpl. rewrite Hgrid, Hserial. simpl.
  rewrite (workBuffers_total _ _ _ _ _ indexed Hsize). simpl.
  assert (Hmap :
            map (fun e => mkAllocate (dtype (ge_output e)) Global size false)
                indexed =
            map (fun e => mkAllocate (dtype (ge_output e)) Global size false)
                (reductions grop)).
  { rewrite <- (map_map (fun e => dtype (ge_output e))
                        (fun d => mkAllocate d Global size false) indexed).
    rewrite Hdt. now rewrite map_map. }
  rewrite Hmap.
  match goal with
  | |- context [pushBackAll ?es ?s] =>
      destruct (pushBackAll_spec es s sc Hsc) as (l1 & Hp & Hacc & Hs)
  end.
  simpl in Hp, Hacc, Hs. rewrite Hp. cbn beta iota.
  push_acc. push_acc.
  rewrite <- !app_assoc in Hr0. simpl in Hr0.
  destruct (grop_isAllreduce grop) eqn:Eall.
  - rewrite insertAtTopLevel_spec.
    + eexists. split; [exact Hsize|]. split; [reflexivity|].
      split; [reflexivity|].
      exists sc, l2. simpl. repeat split; assumption.
    + apply (replace_at_nonempty _ _ _ _ Hr0).
      intros E. apply app_eq_nil in E. destruct E as [_ E].
      apply app_eq_nil in E. destruct E as [_ E]. discriminate.
  - eexists. split; [exact Hsize|]. split; [reflexivity|].
    split; [reflexivity|].
    exists sc, l2. simpl. repeat split; assumption.
Qed.

Ltac welford_finish Hsize Hdt Hdn Hout sc tv :=
  rewrite ?andb_false_r; cbn beta iota;
  unfold handleGridWelford; unfold_monad; simpl;
  rewrite ?Hdt, ?Hdn, ?Hout; simpl;
  match goal with
  | |- context [wop_isAllreduce ?w] =>
      destruct (wop_isAllreduce w) eqn:Eall
  end;
  simpl in *; rewrite Hsize; simpl;
  [ rewrite andb_false_r; simpl; repeat push_acc;
    rewrite <- ?app_assoc in *; simpl in *;
    rewrite insertAtTopLevel_spec;
    [| match goal with
       | H : replace_at _ _ _ = Some ?l |- ?l <> [] =>
           apply (replace_at_nonempty _ _ _ _ H); now destruct sc
       end ]
  | rewrite andb_true_r; destruct (hasBlockReduction (domain tv)); simpl;
    repeat push_acc; rewrite <- ?app_assoc in *; simpl in * ];
  (eexists; split; [reflexivity|]; split; [reflexivity|];
   eexists sc, _; simpl; repeat split; eassumption).


(** What the grid lowering of a Welford operation emits. *)
Lemma welford_grid_run (current : GpuLower) (wop : WelfordOp)
    (tv : TensorView) (st : IndexLowering) :
  outAvg wop = TV tv ->
  srcOk (inN wop) (outN wop) = true ->
  hasGridReduction (domain tv) = true ->
  existsb serialReductionAxisWelford (domain tv) = false ->
  wellScoped st ->
  exists size in_avg in_var in_N st',
    getGridCommWorkBufferSize current (domain tv)
      (if wop_isAllreduce wop then [] else for_loops_ st)
      (if wop_isAllreduce wop && is_within_a_loop current (domain tv)
       then 2 else 1) = inr size /\
    handle current (E_WelfordOp wop) st = (inr tt, st') /\
    let loops := for_loops_ st in
    let indexed_wop :=
      mkWelfordOp (TensorIndex tv (getConsumerIndex current tv loops))
        (lowerDstIndex current loops (outVar wop))
        (lowerDstIndex current loops (outN wop))
        (initAvg wop) (initVar wop) (initN wop) in_avg in_var in_N
        (wop_isAllreduce wop) (wop_predicate wop)
        (wop_writePredicate wop) in
    let separated :=
      hasBlockReduction (domain tv) && negb (wop_isAllreduce wop) in
    let buffer := fun v => mkAllocate (dtype v) Global size false in
    let sync_buffer :=
      mkAllocate DT_Int Global
        (getGridSyncBufferSize current (domain tv)
           (if wop_isAllreduce wop then [] else loops)) true in
    let node :=
      E_GridWelford indexed_wop (buffer (outVar wop)) (buffer (outAvg wop))
        (buffer (outN wop)) sync_buffer
        (if wop_isAllreduce wop then zeroVal
         else getEntranceLinIndGridReduce loops)
        (if wop_isAllreduce wop then oneVal
         else getEntranceCountGridReduce loops)
        (getPredicatedParallelTypes current tv)
        (match wop_predicate wop with
         | Some p => Some (if separated then truePredicate else p)
         | None => None
         end)
        (wop_writePredicate wop) in
    emitsInto st
      ((if separated then [E_WelfordOp indexed_wop] else []) ++
       [E_Allocate (buffer (outVar wop)); E_Allocate (buffer (outAvg wop));
        E_Allocate (buffer (outN wop)); E_Allocate sync_buffer; node])
      (if wop_isAllreduce wop
       then Some (E_AllocateFusedReduction node) else None) st'.
Proof.
  intros Hout HN Hgrid Hserial Hwf.
  unfold wellScoped in Hwf.
  destruct st as [l0 p loops]. simpl in *.
  destruct (scope_at p l0) as [sc|] eqn:Hsc; [clear Hwf | congruence].
  pose proof (replace_at_id _ _ _ Hsc) as Hacc.
  destruct (workBufferSize_total current (domain tv)
              (if wop_isAllreduce wop then [] else loops)
              (wop_isAllreduce wop && is_within_a_loop current (domain tv)))
    as [size Hsize].
  destruct (lowerSrcIndex_TV current loops (inAvg wop) tv) as [in_avg Havg].
  assert (Hvar : exists in_var,
             match inVar wop with
             | Some v =>
                 match lowerSrcIndex current loops v (TV tv) with
                 | inr i => Some (Some i)
                 | inl _ => None
                 end
             | None => Some None
             end = Some in_var).
  { destruct (inVar wop) as [v|]; [|eauto].
    destruct (lowerSrcIndex_TV current loops v tv) as [i Hi].
    rewrite Hi. eauto. }
  destruct Hvar as [in_var Hvar].
  assert (HinN : exists in_N,
             (if isScalar (inN wop) then inr (inN wop)
              else lowerSrcIndex current loops (inN wop) (outN wop))
             = inr in_N).
  { destruct (isScalar (inN wop)); [eauto|].
    now apply lowerSrcIndex_ok. }
  destruct HinN as [in_N HinN].
  exists size, in_avg, in_var, in_N.
  unfold handle_WelfordOp. rewrite Hout.
  unfold_monad. simpl. rewrite Hgrid, Hserial. simpl.
  assert (Hdt : dtype (lowerDstIndex current loops (outVar wop))
                = dtype (outVar wop)) by apply dtype_lowerDstIndex.
  assert (Hdn : dtype (lowerDstIndex current loops (outN wop))
                = dtype (outN wop)) by apply dtype_lowerDstIndex.
  pose proof Hsc as Hsc0.
  destruct (inVar wop) as [v|]; simpl.
  - destruct (lowerSrcIndex current loops v (TV tv)) as [|i] eqn:Ei;
      [discriminate|]. inversion Hvar; subst in_var. simpl.
    rewrite Havg. simpl.
    destruct (isScalar (inN wop)); simpl;
      [inversion HinN; subst in_N | rewrite HinN; simpl];
      welford_finish Hsize Hdt Hdn Hout sc tv.
  - inversion Hvar; subst in_var. rewrite Havg. simpl.
    destruct (isScalar (inN wop)); simpl;
      [inversion HinN; subst in_N | rewrite HinN; simpl];
      welford_finish Hsize Hdt Hdn Hout sc tv.
Qed.

Lemma generate_aborts (current : GpuLower) (e : Expr) (rest : list Expr)
    (st : IndexLowering) (msg : string) :
  handle current e st = (inl msg, st) ->
  generate current (e :: rest) st = (inl msg, st).
Proof. intros H. simpl. unfold bind. now rewrite H. Qed.

Lemma reduction_aborts (current : GpuLower) (rop : ReductionOp)
    (tv : TensorView) (st : IndexLowering) :
  rop_out rop = TV tv ->
  hasGridReduction (domain tv) = true ->
  existsb serialReductionAxis (domain tv) = true ->
  handle current (E_ReductionOp rop) st = (inl rfactor_message, st).
Proof.
  intros Hout Hgrid Hserial.
  destruct (lowerSrcIndex_TV current (for_loops_ st) (rop_in rop) tv)
    as [inp Hinp].
  simpl. unfold handle_ReductionOp. rewrite Hout.
  unfold TORCH_INTERNAL_ASSERT, src, dst, gets, lift, bind, ret, throw.
  simpl. rewrite Hinp. simpl. rewrite Hgrid.
  unfold handleGridReduction.
  unfold TORCH_INTERNAL_ASSERT, src, dst, gets, lift, bind, ret, throw.
  rewrite ?Hgrid, ?Hserial. simpl. rewrite ?Hgrid, ?Hserial. reflexivity.
Qed.

Lemma grouped_aborts (current : GpuLower) (grop : GroupedReductionOp)
    (tv : TensorView) (st : IndexLowering) :
  getTvOutput (reductions grop) = Some tv ->
  allOutputsTV grop ->
  hasGridReduction (domain tv) = true ->
  existsb serialReductionAxis (domain tv) = true ->
  handle current (E_GroupedReductionOp grop) st = (inl rfactor_message, st).
Proof.
  intros Hout Hall Hgrid Hserial.
  destruct (indexEntries_total current (for_loops_ st) (reductions grop) Hall)
    as (indexed & Hix & _).
  simpl. unfold handle_GroupedReductionOp. rewrite Hout.
  unfold TORCH_INTERNAL_ASSERT, src, dst, gets, lift, bind, ret, throw.
  simpl. rewrite Hix. simpl. rewrite Hgrid.
  unfold handleGridReduction_grouped. rewrite Hout.
  unfold TORCH_INTERNAL_ASSERT, src, dst, gets, lift, bind, ret, throw.
  rewrite ?Hgrid, ?Hserial. simpl. rewrite ?Hgrid, ?Hserial. reflexivity.
Qed.

Lemma welford_aborts (current : GpuLower) (wop : WelfordOp)
    (tv : TensorView) (st : IndexLowering) :
  outAvg wop = TV tv ->
  hasGridReduction (domain tv) = true ->
  existsb serialReductionAxisWelford (domain tv) = true ->
  handle current (E_WelfordOp wop) st = (inl rfactor_message_welford, st).
Proof.
  intros Hout Hgrid Hserial.
  simpl. unfold handle_WelfordOp. rewrite Hout.
  unfold TORCH_INTERNAL_ASSERT, src, dst, gets, lift, bind, ret, throw.
  rewrite ?Hgrid, ?Hserial. simpl. rewrite ?Hgrid, ?Hserial. reflexivity.
Qed.

#[local] Transparent getGridCommWorkBufferSize getGridSyncBufferSize
  getEntranceLinIndGridReduce getEntranceCountGridReduce is_within_a_loop
  hasGridReduction hasBlockReduction.

End ReductionFacts.

(** ** Properties of the lowering of reductions *)

Module ReductionProps.
Import IR Kir Lower Props ScopeFacts ReindexFacts ReductionFacts.

Lemma serial_axis_found (td : TensorDomain) (id : IterDomain) :
  In id td -> serialAxis id -> isOneInt (extent id) = false ->
  existsb serialReductionAxis td = true.
Proof.
  intros Hin [Hr Ht] Hone. apply existsb_exists. exists id.
  split; [assumption|]. unfold serialReductionAxis.
  now rewrite Hr, Ht, Hone.
Qed.

Lemma serial_axis_found_welford (td : TensorDomain) (id : IterDomain) :
  In id td -> serialAxis id ->
  existsb serialReductionAxisWelford td = true.
Proof.
  intros Hin [Hr Ht]. apply existsb_exists. exists id.
  split; [assumption|]. unfold serialReductionAxisWelford.
  now rewrite Hr, Ht.
Qed.

(** C1, as amended.  For a ReductionOp or GroupedReductionOp whose output
    domain has a grid reduction and a reduction axis that is not bound to a
    thread or block dimension and whose extent is not the constant one, and
    for a WelfordOp whose output domain has a grid reduction and any
    reduction axis not bound to a thread or block dimension, lowering of the
    operation stops with the error that asks for rfactor; the state of the
    pass is the one before the operation (nothing is emitted), and the
    expressions after it are not lowered. *)
Theorem serial_grid_reduction_aborts (current : GpuLower) (e : Expr)
    (td : TensorDomain) (st : IndexLowering) (rest : list Expr) :
  reducesOver e td ->
  hasGridReduction td = true ->
  (exists id, In id td /\ serialAxis id /\
              (isWelford e = false -> isOneInt (extent id) = false)) ->
  exists msg,
    (msg = rfactor_message \/ msg = rfactor_message_welford) /\
    handle current e st = (inl msg, st) /\
    generate current (e :: rest) st = (inl msg, st).
Proof.
  intros Hred Hgrid (id & Hin & Hser & Hone).
  destruct Hred as [rop tv Hout | grop tv Hout Hall | wop tv Hout].
  - exists rfactor_message. split; [now left|].
    assert (H : handle current (E_ReductionOp rop) st
                = (inl rfactor_message, st)).
    { apply (reduction_aborts _ _ tv); auto.
      apply (serial_axis_found _ id); auto. }
    split; [exact H | now apply generate_aborts].
  - exists rfactor_message. split; [now left|].
    assert (H : handle current (E_GroupedReductionOp grop) st
                = (inl rfactor_message, st)).
    { apply (grouped_aborts _ _ tv); auto.
      apply (serial_axis_found _ id); auto. }
    split; [exact H | now apply generate_aborts].
  - exists rfactor_message_welford. split; [now right|].
    assert (H : handle current (E_WelfordOp wop) st
                = (inl rfactor_message_welford, st)).
    { apply (welford_aborts _ _ tv); auto.
      apply (serial_axis_found_welford _ id); auto. }
    split; [exact H | now apply generate_aborts].
Qed.

Lemma serial_grid_reduction_aborts_witness :
  exists msg,
    (msg = rfactor_message \/ msg = rfactor_message_welford) /\
    handle Examples.symbolicGrid
      (E_ReductionOp
         (Examples.sumInto (Examples.tvOf 5 Examples.serialDomain)))
      Examples.emptyState = (inl msg, Examples.emptyState) /\
    generate Examples.symbolicGrid
      (E_ReductionOp
         (Examples.sumInto (Examples.tvOf 5 Examples.serialDomain))
       :: Examples.pointwiseKernel)
      Examples.emptyState = (inl msg, Examples.emptyState).
Proof.
  apply (serial_grid_reduction_aborts Examples.symbolicGrid
           (E_ReductionOp
              (Examples.sumInto (Examples.tvOf 5 Examples.serialDomain)))
           Examples.serialDomain).
  - exact (RO_reduction
             (Examples.sumInto (Examples.tvOf 5 Examples.serialDomain))
             (Examples.tvOf 5 Examples.serialDomain) eq_refl).
  - reflexivity.
  - exists (mkIterDomain (NamedScalar "i2") Serial true false).
    split; [simpl; auto|]. split; [split; reflexivity|]. reflexivity.
Defined.

(** C1, counterexample.  The output domain below has a grid reduction and a
    reduction axis bound to no thread or block dimension (a serial axis of
    extent one), yet the reduction is lowered to a grid reduction. *)
Lemma serial_unit_axis_is_lowered :
  reducesOver
    (E_ReductionOp
       (Examples.sumInto (Examples.tvOf 5 Examples.unitSerialDomain)))
    Examples.unitSerialDomain /\
  hasGridReduction Examples.unitSerialDomain = true /\
  (exists id, In id Examples.unitSerialDomain /\ serialAxis id) /\
  exists lowered,
    generate Examples.symbolicGrid
      [E_ReductionOp
         (Examples.sumInto (Examples.tvOf 5 Examples.unitSerialDomain))]
      Examples.emptyState
      = (inr tt, mkIndexLowering lowered [] []) /\
    countExprs isGridReduction lowered = 1%nat.
Proof.
  split.
  { exact (RO_reduction
             (Examples.sumInto (Examples.tvOf 5 Examples.unitSerialDomain))
             (Examples.tvOf 5 Examples.unitSerialDomain) eq_refl). }
  split; [reflexivity|]. split.
  { exists (mkIterDomain (Int 1) Serial true false).
    split; [simpl; auto | split; reflexivity]. }
  eexists. split; [vm_compute; reflexivity | reflexivity].
Qed.

Lemma unit_axes_pass (td : TensorDomain) :
  (forall id, In id td -> serialAxis id -> isOneInt (extent id) = true) ->
  existsb serialReductionAxis td = false.
Proof.
  intros H. apply not_true_is_false. intros E.
  apply existsb_exists in E. destruct E as (id & Hin & Hid).
  unfold serialReductionAxis in Hid.
  apply andb_prop in Hid. destruct Hid as [Hid Hone].
  apply andb_prop in Hid. destruct Hid as [Ht Hr].
  apply negb_true_iff in Ht. apply negb_true_iff in Hone.
  rewrite (H id Hin (conj Hr Ht)) in Hone. discriminate.
Qed.

(** C9.  Over one output domain that has a grid reduction and whose
    reduction axes bound to no thread or block dimension all have the
    constant extent one, a ReductionOp and a GroupedReductionOp are lowered
    (to a grid reduction and a grouped grid reduction), while a WelfordOp
    over the same domain stops with the rfactor error and emits nothing. *)
Theorem unit_serial_axis_exemption (current : GpuLower) (rop : ReductionOp)
    (grop : GroupedReductionOp) (wop : WelfordOp) (tv : TensorView)
    (st : IndexLowering) :
  rop_out rop = TV tv ->
  getTvOutput (reductions grop) = Some tv ->
  allOutputsTV grop ->
  outAvg wop = TV tv ->
  hasGridReduction (domain tv) = true ->
  (exists id, In id (domain tv) /\ serialAxis id) ->
  (forall id, In id (domain tv) -> serialAxis id ->
              isOneInt (extent id) = true) ->
  wellScoped st ->
  (exists st' emitted fused,
      handle current (E_ReductionOp rop) st = (inr tt, st') /\
      emitsInto st emitted fused st' /\
      existsb isGridReduction emitted = true) /\
  (exists st' emitted fused,
      handle current (E_GroupedReductionOp grop) st = (inr tt, st') /\
      emitsInto st emitted fused st' /\
      existsb isGroupedGridReduction emitted = true) /\
  handle current (E_WelfordOp wop) st = (inl rfactor_message_welford, st).
Proof.
  intros Hrop Hgrop Hall Hwop Hgrid (id & Hin & Hser) Hunit Hwf.
  pose proof (unit_axes_pass _ Hunit) as Hpass.
  split; [|split].
  - destruct (reduction_grid_run current rop tv st Hrop Hgrid Hpass Hwf)
      as (size & inp & st' & _ & Hrun & Hemit).
    exists st'. do 2 eexists. split; [exact Hrun|].
    split; [exact Hemit|]. reflexivity.
  - destruct (grouped_grid_run current grop tv st Hgrop Hall Hgrid Hpass Hwf)
      as (size & indexed & st' & _ & _ & Hrun & Hemit).
    exists st'. do 2 eexists. split; [exact Hrun|].
    split; [exact Hemit|].
    rewrite existsb_app. simpl. apply orb_true_r.
  - apply (welford_aborts _ _ tv); auto.
    now apply (serial_axis_found_welford _ id).
Qed.

Lemma unit_serial_axis_exemption_witness :
  let tv := Examples.tvOf 5 Examples.unitSerialDomain in
  (exists st' emitted fused,
      handle Examples.symbolicGrid (E_ReductionOp (Examples.sumInto tv))
             Examples.emptyState = (inr tt, st') /\
      emitsInto Examples.emptyState emitted fused st' /\
      existsb isGridReduction emitted = true) /\
  (exists st' emitted fused,
      handle Examples.symbolicGrid
             (E_GroupedReductionOp (Examples.groupedSumInto tv tv))
             Examples.emptyState = (inr tt, st') /\
      emitsInto Examples.emptyState emitted fused st' /\
      existsb isGroupedGridReduction emitted = true) /\
  handle Examples.symbolicGrid (E_WelfordOp (Examples.welfordInto tv))
         Examples.emptyState
    = (inl rfactor_message_welford, Examples.emptyState).
Proof.
  intros tv.
  apply (unit_serial_axis_exemption Examples.symbolicGrid
           (Examples.sumInto tv) (Examples.groupedSumInto tv tv)
           (Examples.welfordInto tv) tv Examples.emptyState).
  - reflexivity.
  - reflexivity.
  - repeat constructor.
  - reflexivity.
  - reflexivity.
  - exists (mkIterDomain (Int 1) Serial true false).
    split; [simpl; auto | split; reflexivity].
  - intros id Hin [Hr Ht]. simpl in Hin.
    destruct Hin as [<-|[<-|[<-|[]]]]; try discriminate; reflexivity.
  - discriminate.
Defined.

Lemma count_allocates (p : Expr -> bool) (b : bool)
    (ws : list AllocateData) (tl : list Expr) :
  (forall a, p (E_Allocate a) = b) ->
  countExprs p (map E_Allocate ws ++ tl) =
  ((if b then List.length ws else 0) + countExprs p tl)%nat.
Proof.
  intros Hp. unfold countExprs.
  induction ws as [|w ws IH]; simpl.
  - now destruct b.
  - rewrite IH, Hp. destruct b; simpl; reflexivity.
Qed.

Lemma indexEntries_Forall2 (current : GpuLower)
    (loops : list ForLoopHeader) (l : list GroupedEntry) :
  forall indexed,
    mapResult (indexEntry current loops) l = inr indexed ->
    Forall2
      (fun e e' =>
         ge_type e' = ge_type e /\
         ge_init e' = ge_init e /\
         ge_output e' = lowerDstIndex current loops (ge_output e) /\
         lowerSrcIndex current loops (ge_input e) (ge_output e)
           = inr (ge_input e'))
      l indexed.
Proof.
  induction l as [|e l IH]; simpl; intros indexed H.
  - inversion H. constructor.
  - unfold indexEntry in H at 1.
    destruct (lowerSrcIndex current loops (ge_input e) (ge_output e))
      as [err|inp] eqn:E; [discriminate|].
    destruct (mapResult (indexEntry current loops) l) as [err|rest];
      [discriminate|].
    inversion H; subst. constructor; [|now apply IH].
    simpl. repeat split; try reflexivity. exact E.
Qed.

(** C3.  A GroupedReductionOp whose output domain has a grid reduction (and
    passes the serial-axis check) is lowered to: one work-buffer Allocate
    per grouped output, each of the size given by the work-buffer formula
    and of the element type of that output; then one sync-buffer Allocate;
    then one GroupedGridReduction owning these buffers.  These are appended
    to the active scope in this order and nothing else is, apart from the
    allocation of the fused reduction hoisted to the top level for an
    allreduce.  The work-buffer formula is, under any binding of the
    symbolic extents, the expansion factor times the counted parallel
    dimensions times the extents of the counted enclosing loops; the shared
    sync buffer holds the counted block dimensions times the same loop
    extents.  The node groups exactly the reductions of the source, in
    order: each entry keeps the operation type and the initial value and
    carries the indexed output and input. *)
Theorem grouped_grid_reduction_emission (current : GpuLower)
    (env : string -> Z) (grop : GroupedReductionOp) (tv : TensorView)
    (st : IndexLowering) :
  getTvOutput (reductions grop) = Some tv ->
  allOutputsTV grop ->
  hasGridReduction (domain tv) = true ->
  existsb serialReductionAxis (domain tv) = false ->
  wellScoped st ->
  exists size indexed st',
    getGridCommWorkBufferSize current (domain tv) (for_loops_ st)
      (if grop_isAllreduce grop && is_within_a_loop current (domain tv)
       then 2 else 1) = inr size /\
    handle current (E_GroupedReductionOp grop) st = (inr tt, st') /\
    let work :=
      map (fun e => mkAllocate (dtype (ge_output e)) Global size false)
          (reductions grop) in
    let sync_buffer :=
      mkAllocate DT_Int Global
        (getGridSyncBufferSize current (domain tv) (for_loops_ st)) true in
    let node :=
      E_GroupedGridReduction
        (mkGroupedReductionOp indexed (grop_isAllreduce grop)
           (grop_predicate grop) (grop_writePredicate grop))
        work sync_buffer (getPredicatedParallelTypes current tv) in
    List.length work = List.length (reductions grop) /\
    emitsInto st (map E_Allocate work ++ [E_Allocate sync_buffer; node])
      (if grop_isAllreduce grop
       then Some (E_AllocateFusedReduction node) else None) st' /\
    countExprs isGroupedGridReduction
      (map E_Allocate work ++ [E_Allocate sync_buffer; node]) = 1%nat /\
    countExprs isAllocate
      (map E_Allocate work ++ [E_Allocate sync_buffer; node])
      = S (List.length (reductions grop)) /\
    Forall
      (fun b =>
         eval env (alloc_size b) =
         (if grop_isAllreduce grop && is_within_a_loop current (domain tv)
          then 2 else 1) *
         workDimProduct current env (domain tv) *
         loopExtentProduct env (for_loops_ st))
      work /\
    eval env (alloc_size sync_buffer) =
      syncDimProduct current env (domain tv) *
      loopExtentProduct env (for_loops_ st) /\
    mapResult (indexEntry current (for_loops_ st)) (reductions grop)
      = inr indexed /\
    Forall2
      (fun e e' =>
         ge_type e' = ge_type e /\
         ge_init e' = ge_init e /\
         ge_output e' =
           lowerDstIndex current (for_loops_ st) (ge_output e) /\
         lowerSrcIndex current (for_loops_ st) (ge_input e) (ge_output e)
           = inr (ge_input e'))
      (reductions grop) indexed.
Proof.
  intros Hout Hall Hgrid Hserial Hwf.
  destruct (grouped_grid_run current grop tv st Hout Hall Hgrid Hserial Hwf)
    as (size & indexed & st' & Hsize & Hix & Hrun & Hemit).
  exists size, indexed, st'. split; [exact Hsize|]. split; [exact Hrun|].
  cbv zeta. split; [apply length_map|]. split; [exact Hemit|].
  split; [|split; [|split; [|split; [|split]]]].
  - rewrite (count_allocates _ false) by reflexivity. reflexivity.
  - rewrite (count_allocates _ true) by reflexivity.
    rewrite length_map. simpl. lia.
  - apply Forall_forall. intros b Hb.
    apply in_map_iff in Hb. destruct Hb as (e & <- & _).
    cbn [alloc_size].
    apply (eval_workBufferSize _ _ _ _ _ _ Hsize).
  - cbn [alloc_size]. apply eval_syncBufferSize.
  - exact Hix.
  - now apply indexEntries_Forall2.
Qed.

Lemma grouped_grid_reduction_emission_witness :
  let tv := Examples.tvOf 5 (Examples.reductionDomain (NamedScalar "gdimx")) in
  let grop := Examples.groupedSumInto tv tv in
  let current := Examples.symbolicGrid in
  let env := Examples.sampleBinding in
  let st := mkIndexLowering [E_ForLoop Examples.serialLoop []] [InBody]
                            [Examples.serialLoop] in
  exists size indexed st',
    getGridCommWorkBufferSize current (domain tv) (for_loops_ st)
      (if grop_isAllreduce grop && is_within_a_loop current (domain tv)
       then 2 else 1) = inr size /\
    handle current (E_GroupedReductionOp grop) st = (inr tt, st') /\
    let work :=
      map (fun e => mkAllocate (dtype (ge_output e)) Global size false)
          (reductions grop) in
    let sync_buffer :=
      mkAllocate DT_Int Global
        (getGridSyncBufferSize current (domain tv) (for_loops_ st)) true in
    let node :=
      E_GroupedGridReduction
        (mkGroupedReductionOp indexed (grop_isAllreduce grop)
           (grop_predicate grop) (grop_writePredicate grop))
        work sync_buffer (getPredicatedParallelTypes current tv) in
    List.length work = List.length (reductions grop) /\
    emitsInto st (map E_Allocate work ++ [E_Allocate sync_buffer; node])
      (if grop_isAllreduce grop
       then Some (E_AllocateFusedReduction node) else None) st' /\
    countExprs isGroupedGridReduction
      (map E_Allocate work ++ [E_Allocate sync_buffer; node]) = 1%nat /\
    countExprs isAllocate
      (map E_Allocate work ++ [E_Allocate sync_buffer; node])
      = S (List.length (reductions grop)) /\
    Forall
      (fun b =>
         eval env (alloc_size b) =
         (if grop_isAllreduce grop && is_within_a_loop current (domain tv)
          then 2 else 1) *
         workDimProduct current env (domain tv) *
         loopExtentProduct env (for_loops_ st))
      work /\
    eval env (alloc_size sync_buffer) =
      syncDimProduct current env (domain tv) *
      loopExtentProduct env (for_loops_ st) /\
    mapResult (indexEntry current (for_loops_ st)) (reductions grop)
      = inr indexed /\
    Forall2
      (fun e e' =>
         ge_type e' = ge_type e /\
         ge_init e' = ge_init e /\
         ge_output e' =
           lowerDstIndex current (for_loops_ st) (ge_output e) /\
         lowerSrcIndex current (for_loops_ st) (ge_input e) (ge_output e)
           = inr (ge_input e'))
      (reductions grop) indexed.
Proof.
  intros tv grop current env st.
  apply (grouped_grid_reduction_emission current env grop tv st).
  - reflexivity.
  - repeat constructor.
  - reflexivity.
  - reflexivity.
  - discriminate.
Defined.

(** C10.  The grid lowering of a GroupedReductionOp sizes every work buffer
    as the expansion factor times the counted parallel dimensions times the
    extents of all enclosing loops that are neither trivial nor bound to a
    thread or block dimension, and the sync buffer as the counted block
    dimensions times the same loop extents, whether or not the operation is
    an allreduce; the GroupedGridReduction carries no entrance index and
    count.  The grid lowering of a single ReductionOp that is an allreduce
    leaves the loop extents out of both sizes and carries the entrance index
    0 and the entrance count 1. *)
Theorem grouped_buffers_always_privatized (current : GpuLower)
    (env : string -> Z) (grop : GroupedReductionOp) (rop : ReductionOp)
    (tv : TensorView) (st : IndexLowering) :
  getTvOutput (reductions grop) = Some tv ->
  allOutputsTV grop ->
  rop_out rop = TV tv ->
  rop_isAllreduce rop = true ->
  hasGridReduction (domain tv) = true ->
  existsb serialReductionAxis (domain tv) = false ->
  wellScoped st ->
  let loopExtents := loopExtentProduct env (for_loops_ st) in
  (exists g work sync tp fused st',
      handle current (E_GroupedReductionOp grop) st = (inr tt, st') /\
      emitsInto st
        (map E_Allocate work ++
         [E_Allocate sync; E_GroupedGridReduction g work sync tp])
        fused st' /\
      Forall
        (fun b =>
           eval env (alloc_size b) =
           (if grop_isAllreduce grop &&
               is_within_a_loop current (domain tv) then 2 else 1) *
           workDimProduct current env (domain tv) * loopExtents)
        work /\
      eval env (alloc_size sync) =
        syncDimProduct current env (domain tv) * loopExtents /\
      entrancePair (E_GroupedGridReduction g work sync tp) = None) /\
  (exists r reduce_buffer sync tp fused st',
      handle current (E_ReductionOp rop) st = (inr tt, st') /\
      emitsInto st
        [E_Allocate reduce_buffer; E_Allocate sync;
         E_GridReduction r reduce_buffer sync zeroVal oneVal tp]
        fused st' /\
      eval env (alloc_size reduce_buffer) =
        (if is_within_a_loop current (domain tv) then 2 else 1) *
        workDimProduct current env (domain tv) /\
      eval env (alloc_size sync) = syncDimProduct current env (domain tv) /\
      entrancePair (E_GridReduction r reduce_buffer sync zeroVal oneVal tp)
        = Some (zeroVal, oneVal)).
Proof.
  intros Hgrop Hall Hrop Hallreduce Hgrid Hserial Hwf loopExtents.
  split.
  - destruct (grouped_grid_run current grop tv st Hgrop Hall Hgrid Hserial Hwf)
      as (size & indexed & st' & Hsize & _ & Hrun & Hemit).
    cbv zeta in Hemit.
    do 5 eexists. exists st'. split; [exact Hrun|].
    split; [exact Hemit|]. split; [|split; [|reflexivity]].
    + apply Forall_forall. intros b Hb.
      apply in_map_iff in Hb. destruct Hb as (e & <- & _). simpl.
      apply (eval_workBufferSize _ _ _ _ _ _ Hsize).
    + simpl. apply eval_syncBufferSize.
  - destruct (reduction_grid_run current rop tv st Hrop Hgrid Hserial Hwf)
      as (size & inp & st' & Hsize & Hrun & Hemit).
    rewrite Hallreduce in *. simpl in Hsize. cbv zeta in Hemit.
    do 5 eexists. exists st'. split; [exact Hrun|].
    split; [exact Hemit|]. split; [|split; [|reflexivity]].
    + simpl. rewrite (eval_workBufferSize _ env _ _ _ _ Hsize).
      simpl. ring.
    + simpl. rewrite eval_syncBufferSize. simpl. ring.
Qed.

Lemma grouped_buffers_always_privatized_witness :
  let tv := Examples.tvOf 5 (Examples.reductionDomain (NamedScalar "gdimx")) in
  let grop := Examples.groupedSumInto tv tv in
  let rop :=
    mkReductionOp BOp_Add (ScalarVal DT_Float (Int 0)) (TV tv)
                  (TV Examples.tv0) true None None in
  let st := mkIndexLowering [E_ForLoop Examples.serialLoop []] [InBody]
                            [Examples.serialLoop] in
  let current := Examples.symbolicGrid in
  let env := Examples.sampleBinding in
  let loopExtents := loopExtentProduct env (for_loops_ st) in
  (exists g work sync tp fused st',
      handle current (E_GroupedReductionOp grop) st = (inr tt, st') /\
      emitsInto st
        (map E_Allocate work ++
         [E_Allocate sync; E_GroupedGridReduction g work sync tp])
        fused st' /\
      Forall
        (fun b =>
           eval env (alloc_size b) =
           (if grop_isAllreduce grop &&
               is_within_a_loop current (domain tv) then 2 else 1) *
           workDimProduct current env (domain tv) * loopExtents)
        work /\
      eval env (alloc_size sync) =
        syncDimProduct current env (domain tv) * loopExtents /\
      entrancePair (E_GroupedGridReduction g work sync tp) = None) /\
  (exists r reduce_buffer sync tp fused st',
      handle current (E_ReductionOp rop) st = (inr tt, st') /\
      emitsInto st
        [E_Allocate reduce_buffer; E_Allocate sync;
         E_GridReduction r reduce_buffer sync zeroVal oneVal tp]
        fused st' /\
      eval env (alloc_size reduce_buffer) =
        (if is_within_a_loop current (domain tv) then 2 else 1) *
        workDimProduct current env (domain tv) /\
      eval env (alloc_size sync) = syncDimProduct current env (domain tv) /\
      entrancePair (E_GridReduction r reduce_buffer sync zeroVal oneVal tp)
        = Some (zeroVal, oneVal)).
Proof.
  intros tv grop rop st current env.
  apply (grouped_buffers_always_privatized current env grop rop tv st).
  - reflexivity.
  - repeat constructor.
  - reflexivity.
  - reflexivity.
  - reflexivity.
  - reflexivity.
  - discriminate.
Defined.

(** C5, as amended.  A WelfordOp whose output domain has both a block and a
    grid reduction and which is not an allreduce is lowered to the indexed
    block-level Welford operation, emitted on its own first, then the three
    work buffers and the sync buffer, then the GridWelford node over the
    same indexed operation.  The block-level operation keeps the predicate
    and the write predicate of the source operation; the GridWelford node
    gets the always-true predicate when the source operation has a
    predicate, and the write predicate of the source operation. *)
Theorem separated_block_welford (current : GpuLower) (wop : WelfordOp)
    (tv : TensorView) (st : IndexLowering) :
  outAvg wop = TV tv ->
  srcOk (inN wop) (outN wop) = true ->
  hasBlockReduction (domain tv) = true ->
  hasGridReduction (domain tv) = true ->
  wop_isAllreduce wop = false ->
  existsb serialReductionAxisWelford (domain tv) = false ->
  wellScoped st ->
  exists block_wop var_buffer avg_buffer n_buffer sync index count tp st',
    handle current (E_WelfordOp wop) st = (inr tt, st') /\
    emitsInto st
      [E_WelfordOp block_wop;
       E_Allocate var_buffer; E_Allocate avg_buffer; E_Allocate n_buffer;
       E_Allocate sync;
       E_GridWelford block_wop var_buffer avg_buffer n_buffer sync
         index count tp
         (match wop_predicate wop with
          | Some _ => Some truePredicate
          | None => None
          end)
         (wop_writePredicate wop)]
      None st' /\
    wop_predicate block_wop = wop_predicate wop /\
    wop_writePredicate block_wop = wop_writePredicate wop.
Proof.
  intros Hout HN Hblock Hgrid Hall Hserial Hwf.
  destruct (welford_grid_run current wop tv st Hout HN Hgrid Hserial Hwf)
    as (size & in_avg & in_var & in_N & st' & _ & Hrun & Hemit).
  cbv zeta in Hemit. rewrite Hall, Hblock in Hemit. simpl in Hemit.
  destruct (wop_predicate wop) as [p|];
    do 8 eexists; exists st'; (split; [exact Hrun|]);
    (split; [exact Hemit | split; reflexivity]).
Qed.

Lemma separated_block_welford_witness :
  let tv := Examples.tvOf 5 (Examples.reductionDomain (NamedScalar "gdimx")) in
  let wop := Examples.welfordInto tv in
  exists block_wop var_buffer avg_buffer n_buffer sync index count tp st',
    handle Examples.symbolicGrid (E_WelfordOp wop) Examples.emptyState
      = (inr tt, st') /\
    emitsInto Examples.emptyState
      [E_WelfordOp block_wop;
       E_Allocate var_buffer; E_Allocate avg_buffer; E_Allocate n_buffer;
       E_Allocate sync;
       E_GridWelford block_wop var_buffer avg_buffer n_buffer sync
         index count tp (Some truePredicate) None]
      None st' /\
    wop_predicate block_wop = Some Examples.inlinePredicate /\
    wop_writePredicate block_wop = None.
Proof.
  intros tv wop.
  apply (separated_block_welford Examples.symbolicGrid wop tv
           Examples.emptyState).
  - reflexivity.
  - reflexivity.
  - reflexivity.
  - reflexivity.
  - reflexivity.
  - reflexivity.
  - discriminate.
Defined.

(** C5, counterexample.  The Welford operation below has a block and a grid
    reduction and is not an allreduce; the block-level operation emitted
    first carries the predicate of the source operation, which is not the
    always-true predicate, and the always-true predicate is on the
    GridWelford node. *)
Lemma block_welford_keeps_predicate :
  let tv := Examples.tvOf 5 (Examples.reductionDomain (NamedScalar "gdimx")) in
  let wop := Examples.welfordInto tv in
  hasBlockReduction (domain tv) = true /\
  hasGridReduction (domain tv) = true /\
  wop_isAllreduce wop = false /\
  exists block_wop a1 a2 a3 a4 w b1 b2 b3 b4 i c tp wp,
    generate Examples.symbolicGrid [E_WelfordOp wop] Examples.emptyState =
      (inr tt,
       mkIndexLowering
         [E_WelfordOp block_wop; a1; a2; a3; a4;
          E_GridWelford w b1 b2 b3 b4 i c tp (Some truePredicate) wp]
         [] []) /\
    wop_predicate block_wop = Some Examples.inlinePredicate /\
    wop_predicate block_wop <> Some truePredicate.
Proof.
  intros tv wop. repeat split.
  do 14 eexists. split; [vm_compute; reflexivity|].
  split; [reflexivity | discriminate].
Qed.

Lemma gridBlock_workDims (current : GpuLower) (env : string -> Z) (N : Z)
    (td : TensorDomain) :
  gridBlockSchedule current env N td ->
  workDimProduct current env td = ceilDiv N 128 /\
  syncDimProduct current env td = 1.
Proof.
  intros (gdim & Hg & Hbx & Htx & Hby & Hbz & Hty & Htz & ->).
  unfold workDimProduct, syncDimProduct. simpl.
  rewrite Hbx, Htx, Hby, Hbz, Hty, Htz. simpl. split; lia.
Qed.

Lemma ceilDiv_double (N : Z) :
  0 < N -> N mod 128 = 0 -> ceilDiv (2 * N) 128 = 2 * ceilDiv N 128.
Proof.
  intros Hpos Hmod. unfold ceilDiv.
  rewrite !Z.quot_div_nonneg by lia.
  apply Z.mod_divide in Hmod; [|lia]. destruct Hmod as [k ->].
  replace (2 * (k * 128) + 128 - 1) with (127 + (2 * k) * 128) by ring.
  replace (k * 128 + 128 - 1) with (127 + k * 128) by ring.
  rewrite !Z.div_add by lia. reflexivity.
Qed.

(** C2, as amended.  For the 1-D reduction scheduled as
    [grid(ceil(N/128)) x block(128)] with no enclosing serial loop, the
    work buffer holds [ceil(N/128)] elements, the number of blocks, and the
    sync buffer holds one element, because the block dimension is itself a
    reduction axis of the output.  With N doubled the work buffer holds
    [ceil(2N/128)] elements, which is twice as many when N is a multiple of
    128, and the sync buffer still holds one. *)
Theorem grid_block_buffer_sizes (c1 c2 : GpuLower) (env : string -> Z)
    (N : Z) (td1 td2 : TensorDomain) (loops : list ForLoopHeader) :
  0 < N ->
  gridBlockSchedule c1 env N td1 ->
  gridBlockSchedule c2 env (2 * N) td2 ->
  noSerialLoops loops = true ->
  exists w1 w2,
    getGridCommWorkBufferSize c1 td1 loops 1 = inr w1 /\
    getGridCommWorkBufferSize c2 td2 loops 1 = inr w2 /\
    eval env w1 = ceilDiv N 128 /\
    eval env w2 = ceilDiv (2 * N) 128 /\
    (N mod 128 = 0 -> eval env w2 = 2 * eval env w1) /\
    eval env (getGridSyncBufferSize c1 td1 loops) = 1 /\
    eval env (getGridSyncBufferSize c2 td2 loops) = 1.
Proof.
  intros Hpos H1 H2 Hloops.
  destruct (workBufferSize_total c1 td1 loops false) as [w1 Hw1].
  destruct (workBufferSize_total c2 td2 loops false) as [w2 Hw2].
  destruct (gridBlock_workDims _ _ _ _ H1) as [Hd1 Hs1].
  destruct (gridBlock_workDims _ _ _ _ H2) as [Hd2 Hs2].
  pose proof (loopExtentProduct_noSerial env loops Hloops) as HL.
  assert (E1 : eval env w1 = ceilDiv N 128).
  { rewrite (eval_workBufferSize _ _ _ _ _ _ Hw1), Hd1, HL. ring. }
  assert (E2 : eval env w2 = ceilDiv (2 * N) 128).
  { rewrite (eval_workBufferSize _ _ _ _ _ _ Hw2), Hd2, HL. ring. }
  exists w1, w2. repeat split; try assumption.
  - intros Hmod. rewrite E1, E2. now apply ceilDiv_double.
  - rewrite eval_syncBufferSize, Hs1, HL. reflexivity.
  - rewrite eval_syncBufferSize, Hs2, HL. reflexivity.
Qed.

Lemma gridBlockSchedule_example (N : Z) :
  gridBlockSchedule (Examples.gridOf (Int (ceilDiv N 128)))
    Examples.sampleBinding N
    (Examples.reductionDomain (Int (ceilDiv N 128))).
Proof.
  exists (Int (ceilDiv N 128)). repeat split; reflexivity.
Qed.

Lemma grid_block_buffer_sizes_witness :
  exists w1 w2,
    getGridCommWorkBufferSize (Examples.gridOf (Int 2))
      (Examples.reductionDomain (Int 2)) [Examples.loopB; Examples.loopT] 1
      = inr w1 /\
    getGridCommWorkBufferSize (Examples.gridOf (Int 4))
      (Examples.reductionDomain (Int 4)) [Examples.loopB; Examples.loopT] 1
      = inr w2 /\
    eval Examples.sampleBinding w1 = ceilDiv 256 128 /\
    eval Examples.sampleBinding w2 = ceilDiv (2 * 256) 128 /\
    (256 mod 128 = 0 ->
     eval Examples.sampleBinding w2 = 2 * eval Examples.sampleBinding w1) /\
    eval Examples.sampleBinding
      (getGridSyncBufferSize (Examples.gridOf (Int 2))
         (Examples.reductionDomain (Int 2))
         [Examples.loopB; Examples.loopT]) = 1 /\
    eval Examples.sampleBinding
      (getGridSyncBufferSize (Examples.gridOf (Int 4))
         (Examples.reductionDomain (Int 4))
         [Examples.loopB; Examples.loopT]) = 1.
Proof.
  apply (grid_block_buffer_sizes (Examples.gridOf (Int 2))
           (Examples.gridOf (Int 4)) Examples.sampleBinding 256
           (Examples.reductionDomain (Int 2))
           (Examples.reductionDomain (Int 4))
           [Examples.loopB; Examples.loopT]).
  - lia.
  - exact (gridBlockSchedule_example 256).
  - exact (gridBlockSchedule_example (2 * 256)).
  - reflexivity.
Defined.

(** C2, counterexample.  With N = 256 the grid has two blocks, but the sync
    buffer holds one element, not two; and from N = 64 to N = 128 the work
    buffer stays at one element instead of doubling. *)
Lemma sync_buffer_is_not_grid_size :
  gridBlockSchedule (Examples.gridOf (Int 2)) Examples.sampleBinding 256
    (Examples.reductionDomain (Int 2)) /\
  ceilDiv 256 128 = 2 /\
  eval Examples.sampleBinding
    (getGridSyncBufferSize (Examples.gridOf (Int 2))
       (Examples.reductionDomain (Int 2)) []) = 1 /\
  eval Examples.sampleBinding
    (getGridSyncBufferSize (Examples.gridOf (Int 2))
       (Examples.reductionDomain (Int 2)) []) <> ceilDiv 256 128 /\
  gridBlockSchedule (Examples.gridOf (Int 1)) Examples.sampleBinding 64
    (Examples.reductionDomain (Int 1)) /\
  gridBlockSchedule (Examples.gridOf (Int 1)) Examples.sampleBinding (2 * 64)
    (Examples.reductionDomain (Int 1)) /\
  getGridCommWorkBufferSize (Examples.gridOf (Int 1))
    (Examples.reductionDomain (Int 1)) [] 1 = inr (Int 1).
Proof.
  split; [exact (gridBlockSchedule_example 256)|].
  split; [reflexivity|]. split; [reflexivity|].
  split; [vm_compute; discriminate|].
  split; [exact (gridBlockSchedule_example 64)|].
  split; [exact (gridBlockSchedule_example (2 * 64))|].
  reflexivity.
Qed.

End ReductionProps.

(** ** Properties of the break-point search *)

Module PointwiseProps.
Import IR Pointwise.

Section SearchFacts.

Variable elem_counts : list Z.
Variable n_elems : Z.
Variable mapping_count : list Z.
Variable max_unroll_factor : Z.
Variable device_multiprocessor_count : Z.

Local Abbreviation step :=
  (searchStep elem_counts n_elems mapping_count max_unroll_factor
              device_multiprocessor_count).
Local Abbreviation cost := (cur_transfer_size elem_counts mapping_count).
Local Abbreviation right := (cur_right_elem_count elem_counts).
Local Abbreviation ok :=
  (eligible elem_counts n_elems mapping_count max_unroll_factor).

(** The loop body either keeps the state or adopts the candidate. *)
Lemma searchStep_cases (st : SearchState) (i : nat) :
  (step st i = st /\
   (ok i = false \/ min_total_transfer st <= cost i)) \/
  (ok i = true /\ cost i < min_total_transfer st /\
   break_point (step st i) = i /\
   right_elem_count (step st i) = right i /\
   min_total_transfer (step st i) = cost i /\
   1 < right i /\
   ~ (bdimy (step st i) > 1 /\ gdimy (step st i) > 1)).
Proof.
  unfold searchStep, eligible.
  destruct (cur_right_elem_count elem_counts i <=? 1) eqn:E1.
  { left. split; [reflexivity|]. left.
    apply Z.leb_le in E1.
    destruct (1 <? cur_right_elem_count elem_counts i) eqn:E; [|reflexivity].
    apply Z.ltb_lt in E. lia. }
  apply Z.leb_gt in E1.
  destruct (cur_left_elem_count elem_counts n_elems i <=? 1) eqn:E2.
  { left. split; [reflexivity|]. left.
    apply Z.leb_le in E2.
    destruct (1 <? cur_left_elem_count elem_counts n_elems i) eqn:E;
      [|now rewrite andb_false_r].
    apply Z.ltb_lt in E. lia. }
  apply Z.leb_gt in E2.
  destruct (cur_transfer_size elem_counts mapping_count i
              >=? min_total_transfer st) eqn:E3.
  { left. split; [reflexivity|]. right. apply Z.geb_le in E3. lia. }
  rewrite Z.geb_leb in E3. apply Z.leb_gt in E3.
  destruct (mul64 (cur_transfer_size elem_counts mapping_count i) 10
              >=? mul64 (transfer_size_1d elem_counts mapping_count) 9)
    eqn:E4.
  { left. split; [reflexivity|]. left.
    apply Z.geb_le in E4.
    destruct (mul64 (cur_transfer_size elem_counts mapping_count i) 10
                <? mul64 (transfer_size_1d elem_counts mapping_count) 9)
      eqn:E; [|now rewrite andb_false_r].
    apply Z.ltb_lt in E. lia. }
  rewrite Z.geb_leb in E4. apply Z.leb_gt in E4.
  simpl.
  destruct (cur_right_elem_count elem_counts i <? max_unroll_factor) eqn:E5.
  { left. split; [reflexivity|]. left.
    apply Z.ltb_lt in E5.
    destruct (max_unroll_factor <=? cur_right_elem_count elem_counts i)
      eqn:E; [|now rewrite andb_false_r].
    apply Z.leb_le in E. lia. }
  apply Z.ltb_ge in E5.
  right. simpl.
  repeat split; try assumption.
  - apply Z.ltb_lt in E1, E2, E4. apply Z.leb_le in E5.
    now rewrite E1, E2, E4, E5.
  - intros [Hb Hg].
    match goal with
    | H : (if ?c then _ else 1) > 1 |- _ => destruct c eqn:Ec; [|lia]
    end.
    apply andb_prop in Ec. destruct Ec as [_ Ec].
    apply Z.leb_le in Ec. lia.
Qed.

Lemma seq_fold_snoc {A : Type} (f : A -> nat -> A) (a : A) (k : nat) :
  fold_left f (seq 0 (S k)) a = f (fold_left f (seq 0 k) a) k.
Proof. rewrite seq_S, fold_left_app. reflexivity. Qed.

Lemma searched_invariant (k : nat) :
  searchInvariant elem_counts n_elems mapping_count max_unroll_factor k
    (searched elem_counts n_elems mapping_count max_unroll_factor
              device_multiprocessor_count k).
Proof.
  unfold searchInvariant, searched.
  induction k as [|k IH].
  - split; [simpl; lia|].
    left. split; [reflexivity|]. intros j Hj. lia.
  - rewrite seq_fold_snoc.
    set (st := fold_left step (seq 0 k) initialSearchState) in *.
    destruct IH as [Hex IH].
    destruct (searchStep_cases st k)
      as [[Hsame Hwhy] | (Hok & Hlt & Hbp & Hrc & Hmin & Hr1 & Hex')].
    + rewrite Hsame. split; [assumption|].
      destruct IH as [[Hinit Hall] | (Hpos & Hbp & Hokb & Hmin & Hrc & Hall)].
      * left. split; [assumption|]. intros j Hj Hokj.
        assert (Hc : (j < k)%nat \/ j = k) by lia.
        destruct Hc as [Hc | ->]; [now apply Hall|].
        destruct Hwhy as [Hno | Hge]; [congruence|].
        rewrite Hinit in Hge. exact Hge.
      * right. repeat split; try assumption; try lia.
        -- assert (Hc : (j < k)%nat \/ j = k) by lia.
           destruct Hc as [Hc | ->]; [now apply Hall|]. lia.
        -- assert (Hc : (j < k)%nat \/ j = k) by lia.
           destruct Hc as [Hc | ->]; [now apply Hall|].
           destruct Hwhy as [Hno | Hge]; [congruence|].
           rewrite Hmin in Hge. intros _. exact Hge.
    + split; [assumption|]. right.
      rewrite Hbp, Hrc, Hmin.
      repeat split; try assumption; try lia.
      intros Hjk.
      destruct IH as [[Hinit Hall] | (Hpos & Hb & Hokb & Hm & Hrc' & Hall)].
      * rewrite Hinit in Hlt. simpl in Hlt.
        specialize (Hall j Hjk H0). lia.
      * rewrite Hm in Hlt.
        destruct (Hall j Hjk H0) as [Ha Hb'].
        assert (Hc : (j < break_point st)%nat \/ j = break_point st \/
                     (break_point st < j)%nat) by lia.
        destruct Hc as [Hc | [-> | Hc]];
          [specialize (Ha Hc) | | specialize (Hb' Hc)]; lia.
Qed.

End SearchFacts.

Lemma breakPointSearch_invariant (ec : list Z) (ne : Z) (mc : list Z)
    (muf sm : Z) :
  searchInvariant ec ne mc muf (List.length ec)
                  (breakPointSearch ec ne mc muf sm).
Proof. apply searched_invariant. Qed.

Lemma eligible_inv (ec : list Z) (ne : Z) (mc : list Z) (muf : Z) (i : nat) :
  eligible ec ne mc muf i = true ->
  1 < cur_right_elem_count ec i /\
  1 < cur_left_elem_count ec ne i /\
  mul64 (cur_transfer_size ec mc i) 10 < mul64 (transfer_size_1d ec mc) 9 /\
  muf <= cur_right_elem_count ec i.
Proof.
  unfold eligible. intros H.
  apply andb_prop in H. destruct H as [H H4].
  apply andb_prop in H. destruct H as [H H3].
  apply andb_prop in H. destruct H as [H1 H2].
  apply Z.ltb_lt in H1, H2, H3. apply Z.leb_le in H4. auto.
Qed.

(** What the search guarantees in [int64_t] arithmetic.  When the search
    ends with a break point adopted, that break point
    is a candidate whose estimated transfer, times ten, is below nine times
    the 1-D estimate (so it saves at least 10% whenever these products do
    not overflow), whose right-hand element count is at least the maximum
    unroll factor, and which is the first cheapest such candidate: every
    earlier adoptable candidate costs strictly more and every later one
    costs at least as much.  At every step of the ascending scan, the
    state changes only for a candidate that meets these two conditions and
    whose cost is strictly below the best cost so far. *)
Theorem break_point_adoption (ec : list Z) (ne : Z) (mc : list Z)
    (muf sm : Z) :
  let s := breakPointSearch ec ne mc muf sm in
  let cost := cur_transfer_size ec mc in
  let bp := break_point s in
  0 < right_elem_count s ->
  (bp < List.length ec)%nat /\
  mul64 (cost bp) 10 < mul64 (transfer_size_1d ec mc) 9 /\
  (cost bp * 10 = mul64 (cost bp) 10 ->
   transfer_size_1d ec mc * 9 = mul64 (transfer_size_1d ec mc) 9 ->
   10 * cost bp <= 9 * transfer_size_1d ec mc) /\
  muf <= cur_right_elem_count ec bp /\
  right_elem_count s = cur_right_elem_count ec bp /\
  min_total_transfer s = cost bp /\
  (forall j, (j < List.length ec)%nat -> eligible ec ne mc muf j = true ->
             ((j < bp)%nat -> cost bp < cost j) /\
             ((bp < j)%nat -> cost bp <= cost j)) /\
  (forall st i,
      searchStep ec ne mc muf sm st i <> st ->
      mul64 (cost i) 10 < mul64 (transfer_size_1d ec mc) 9 /\
      muf <= cur_right_elem_count ec i /\
      cost i < min_total_transfer st /\
      break_point (searchStep ec ne mc muf sm st i) = i /\
      min_total_transfer (searchStep ec ne mc muf sm st i) = cost i).
Proof.
  intros s cost bp Hpos.
  destruct (breakPointSearch_invariant ec ne mc muf sm) as [_ Hinv].
  fold s in Hinv.
  destruct Hinv as [[Hinit _] | (_ & Hbp & Hok & Hmin & Hrc & Hall)].
  { rewrite Hinit in Hpos. simpl in Hpos. lia. }
  destruct (eligible_inv _ _ _ _ _ Hok) as (_ & _ & H10 & Hmuf).
  fold bp in Hbp, Hok, Hmin, Hrc, Hall, H10, Hmuf.
  repeat split; try assumption.
  - intros E1 E2. fold cost in H10. lia.
  - now apply Hall.
  - now apply Hall.
  - destruct (searchStep_cases ec ne mc muf sm st i)
      as [[Hsame _] | (Hoki & _)]; [congruence|].
    now destruct (eligible_inv _ _ _ _ _ Hoki) as (_ & _ & ? & _).
  - destruct (searchStep_cases ec ne mc muf sm st i)
      as [[Hsame _] | (Hoki & _)]; [congruence|].
    now destruct (eligible_inv _ _ _ _ _ Hoki) as (_ & _ & _ & ?).
  - destruct (searchStep_cases ec ne mc muf sm st i)
      as [[Hsame _] | (_ & Hlt & _)]; [congruence | assumption].
  - destruct (searchStep_cases ec ne mc muf sm st i)
      as [[Hsame _] | (_ & _ & Hb & _)]; [congruence | assumption].
  - destruct (searchStep_cases ec ne mc muf sm st i)
      as [[Hsame _] | (_ & _ & _ & _ & Hm & _)]; [congruence | assumption].
Qed.

Lemma break_point_adoption_witness :
  let ec := [100; 100; 100] in
  let mc := [1; 2; 3] in
  let s := breakPointSearch ec 1000000 mc 4 80 in
  let cost := cur_transfer_size ec mc in
  let bp := break_point s in
  (bp < List.length ec)%nat /\
  mul64 (cost bp) 10 < mul64 (transfer_size_1d ec mc) 9 /\
  (cost bp * 10 = mul64 (cost bp) 10 ->
   transfer_size_1d ec mc * 9 = mul64 (transfer_size_1d ec mc) 9 ->
   10 * cost bp <= 9 * transfer_size_1d ec mc) /\
  4 <= cur_right_elem_count ec bp /\
  right_elem_count s = cur_right_elem_count ec bp /\
  min_total_transfer s = cost bp /\
  (forall j, (j < List.length ec)%nat -> eligible ec 1000000 mc 4 j = true ->
             ((j < bp)%nat -> cost bp < cost j) /\
             ((bp < j)%nat -> cost bp <= cost j)) /\
  (forall st i,
      searchStep ec 1000000 mc 4 80 st i <> st ->
      mul64 (cost i) 10 < mul64 (transfer_size_1d ec mc) 9 /\
      4 <= cur_right_elem_count ec i /\
      cost i < min_total_transfer st /\
      break_point (searchStep ec 1000000 mc 4 80 st i) = i /\
      min_total_transfer (searchStep ec 1000000 mc 4 80 st i) = cost i).
Proof.
  apply (break_point_adoption [100; 100; 100] 1000000 [1; 2; 3] 4 80).
  vm_compute. reflexivity.
Defined.

(** C7.  The rule that a break point is adopted only if it saves at least
    10% of the 1-D estimate fails where ten times the estimate leaves
    [int64_t].  For the fusion over six dimensions of extent 32 with 31
    bytes mapped to every dimension, the estimates are exact (no product
    wraps), the estimate of break point 1 equals the 1-D estimate, so it
    saves nothing, yet ten times the estimate wraps to a negative number,
    the test of the loop passes, and the search and the heuristic adopt
    break point 1. *)
Theorem zero_saving_break_point_adopted :
  let ec := repeat 32 6 in
  let mc := repeat 31 6 in
  let s := breakPointSearch ec (fold_left mul64 ec 1) mc 2 80 in
  evaluateExtents SearchNotions.overflowInfo SearchNotions.overflowDomain
    = Some ec /\
  mappedInputsOutputs SearchNotions.overflowInfo
    (SearchNotions.overflowTensor 5 DT_Bool) = mc /\
  maxUnrollFactor SearchNotions.overflowFusion SearchNotions.overflowInfo
    (fold_left mul64 ec 1) = 2 /\
  transfer_size_1d ec mc = 32 ^ 6 * 31 ^ 6 /\
  cur_transfer_size ec mc 1 = transfer_size_1d ec mc /\
  ~ (10 * cur_transfer_size ec mc 1 <= 9 * transfer_size_1d ec mc) /\
  mul64 (cur_transfer_size ec mc 1) 10 < 0 /\
  break_point s = 1%nat /\
  right_elem_count s = 32 ^ 5 /\
  exists params,
    getPointwiseHeuristics SearchNotions.overflowFusion
      SearchNotions.overflowInfo = inr params /\
    params_break_point params = 1%nat.
Proof.
  cbv zeta.
  split; [vm_compute; reflexivity|].
  split; [vm_compute; reflexivity|].
  split; [vm_compute; reflexivity|].
  split; [vm_compute; reflexivity|].
  split; [vm_compute; reflexivity|].
  split; [vm_compute; intros H; apply H; reflexivity|].
  split; [vm_compute; reflexivity|].
  split; [vm_compute; reflexivity|].
  split; [vm_compute; reflexivity|].
  eexists. split; [vm_compute; reflexivity|]. reflexivity.
Qed.

(** The assertion of the heuristic on bdimy and gdimy never fails. *)
Lemma exclusivity_assertion_holds (fusion : Fusion)
    (info : SchedulerRuntimeInfo) :
  getPointwiseHeuristics fusion info
    <> inl "!(bdimy > 1 && gdimy > 1)"%string.
Proof.
  unfold getPointwiseHeuristics.
  destruct (fst (selectLargestOut (outputs fusion))) as [out|];
    [|discriminate].
  destruct (List.length (nonReductionNonBroadcast (domain out)) =? 0)%nat;
    [discriminate|].
  destruct (evaluateExtents info (getMaybeRFactorDomain out)) as [ec|];
    [|discriminate].
  cbv zeta.
  match goal with
  | |- context [breakPointSearch ?a ?b ?c ?d ?e] =>
      destruct (breakPointSearch_invariant a b c d e) as [Hs _];
      set (s := breakPointSearch a b c d e) in *
  end.
  destruct (negb _); [discriminate|].
  destruct ((bdimy s >? 1) && (gdimy s >? 1)) eqn:E; [|discriminate].
  apply andb_prop in E. destruct E as [Eb Eg].
  apply Z.gtb_lt in Eb, Eg. exfalso. apply Hs. lia.
Qed.

(** C8.  The break-point search never ends with bdimy > 1 and gdimy > 1
    together, whatever its inputs; the parameters the heuristic produces are
    either the default ones or built from such a search result, with
    split_block set from bdimy > 1 and the split-grid-y flag from
    gdimy > 65535, so the two flags are never both set. *)
Theorem block_and_grid_y_exclusive (fusion : Fusion)
    (info : SchedulerRuntimeInfo) (params : PointwiseParams) :
  getPointwiseHeuristics fusion info = inr params ->
  (forall ec ne mc muf sm,
      ~ (bdimy (breakPointSearch ec ne mc muf sm) > 1 /\
         gdimy (breakPointSearch ec ne mc muf sm) > 1)) /\
  (params = defaultPointwiseParams \/
   exists ec mc muf,
     let s := breakPointSearch ec (fold_left mul64 ec 1) mc muf
                               (multiProcessorCount info) in
     split_block params = (bdimy s >? 1) /\
     split_grid_y_dim params = (gdimy s >? 65535)) /\
  ~ (split_block params = true /\ split_grid_y_dim params = true).
Proof.
  intros H.
  assert (Hex : forall ec ne mc muf sm,
             ~ (bdimy (breakPointSearch ec ne mc muf sm) > 1 /\
                gdimy (breakPointSearch ec ne mc muf sm) > 1)).
  { intros. apply (breakPointSearch_invariant ec ne mc muf sm). }
  split; [exact Hex|].
  split.
  - unfold getPointwiseHeuristics in H.
    destruct (fst (selectLargestOut (outputs fusion))) as [out|];
      [|discriminate].
    destruct (List.length (nonReductionNonBroadcast (domain out)) =? 0)%nat.
    { left. now inversion H. }
    destruct (evaluateExtents info (getMaybeRFactorDomain out)) as [ec|];
      [|discriminate].
    cbv zeta in H.
    match type of H with
    | context [breakPointSearch ?a ?b ?c ?d ?e] =>
        set (s := breakPointSearch a b c d e) in *
    end.
    destruct (negb _); [discriminate|].
    destruct ((bdimy s >? 1) && (gdimy s >? 1)); [discriminate|].
    right. inversion H; subst params; clear H. simpl.
    do 3 eexists. split; reflexivity.
  - unfold getPointwiseHeuristics in H.
    destruct (fst (selectLargestOut (outputs fusion))) as [out|];
      [|discriminate].
    destruct (List.length (nonReductionNonBroadcast (domain out)) =? 0)%nat.
    { inversion H. simpl. intros [? _]. discriminate. }
    destruct (evaluateExtents info (getMaybeRFactorDomain out)) as [ec|];
      [|discriminate].
    cbv zeta in H.
    match type of H with
    | context [breakPointSearch ?a ?b ?c ?d ?e] =>
        pose proof (Hex a b c d e) as Hs;
        set (s := breakPointSearch a b c d e) in *
    end.
    destruct (negb _); [discriminate|].
    destruct ((bdimy s >? 1) && (gdimy s >? 1)); [discriminate|].
    inversion H; subst params; clear H. simpl.
    intros [Hb Hg]. apply Hs.
    apply Z.gtb_lt in Hb, Hg. lia.
Qed.

Lemma block_and_grid_y_exclusive_witness :
  exists params,
    getPointwiseHeuristics Examples.pointwiseFusion Examples.pointwiseInfo
      = inr params /\
    ~ (split_block params = true /\ split_grid_y_dim params = true).
Proof.
  eexists. split; [vm_compute; reflexivity|].
  apply (block_and_grid_y_exclusive Examples.pointwiseFusion
           Examples.pointwiseInfo).
  vm_compute. reflexivity.
Defined.

End PointwiseProps.

(** ** Validation of grouping *)

Module GroupingProps.
Import IR Kir Grouping.

(** C4.  Grouping two reductions whose shapes differ, or whose transform
    histories differ, raises at grouping time: no grouped reduction is
    created, and grouping followed by lowering yields the error and no
    lowered expression. *)
Theorem mismatched_grouping_raises (current : Lower.GpuLower)
    (r1 r2 : ReductionOutput) :
  shape r1 <> shape r2 \/ history r1 <> history r2 ->
  (exists msg, groupReductions [r1; r2] = inl msg) /\
  (exists msg, groupAndLower current [r1; r2] = inl msg).
Proof.
  intros H.
  assert (Hg : exists msg, groupReductions [r1; r2] = inl msg).
  { unfold groupReductions, sameShape, sameHistory. simpl.
    destruct (list_eq_dec Scalar_eq_dec (shape r1) (shape r2)) as [Es|Es];
      simpl; [|eauto].
    destruct (list_eq_dec Transform_eq_dec (history r1) (history r2))
      as [Eh|Eh]; simpl; [|eauto].
    destruct H; contradiction. }
  split; [exact Hg|].
  destruct Hg as [msg Hmsg]. exists msg.
  unfold groupAndLower. now rewrite Hmsg.
Qed.

Lemma mismatched_grouping_raises_witness :
  ((exists msg,
       groupReductions
         [Examples.rowSum 2 "i0" "i1" []; Examples.rowSum 3 "i2" "i3" []]
       = inl msg) /\
   (exists msg,
       groupAndLower Examples.symbolicGrid
         [Examples.rowSum 2 "i0" "i1" []; Examples.rowSum 3 "i2" "i3" []]
       = inl msg)) /\
  ((exists msg,
       groupReductions
         [Examples.rowSum 1 "i0" "i1" [Split 1 128];
          Examples.rowSum 2 "i0" "i1" [Split 1 64]]
       = inl msg) /\
   (exists msg,
       groupAndLower Examples.symbolicGrid
         [Examples.rowSum 1 "i0" "i1" [Split 1 128];
          Examples.rowSum 2 "i0" "i1" [Split 1 64]]
       = inl msg)).
Proof.
  split.
  - apply (mismatched_grouping_raises Examples.symbolicGrid
             (Examples.rowSum 2 "i0" "i1" [])
             (Examples.rowSum 3 "i2" "i3" [])).
    left. simpl. discriminate.
  - apply (mismatched_grouping_raises Examples.symbolicGrid
             (Examples.rowSum 1 "i0" "i1" [Split 1 128])
             (Examples.rowSum 2 "i0" "i1" [Split 1 64])).
    right. simpl. discriminate.
Defined.

End GroupingProps.

(** ** Entrance numbers and loops of the grid reductions *)

Module EntranceProps.
Import IR Kir Lower Props MoreProps ScopeFacts ReindexFacts ReductionFacts.

Lemma counted_false (fl : ForLoopHeader) :
  counted fl = false ->
  (if isTrivial fl then true else isThread (iter_domain fl)) = true.
Proof.
  unfold counted. destruct (isTrivial fl); [reflexivity|].
  destruct (isThread (iter_domain fl)); [reflexivity | discriminate].
Qed.

Lemma mulLoopExtents_counted (loops : list ForLoopHeader) :
  forall b, mulLoopExtents b loops = mulLoopExtents b (filter counted loops).
Proof.
  unfold mulLoopExtents.
  induction loops as [|fl loops IH]; intros b; simpl; [reflexivity|].
  unfold counted at 1.
  destruct (isTrivial fl) eqn:Et; simpl; [apply IH|].
  destruct (isThread (iter_domain fl)) eqn:Eh; simpl; [apply IH|].
  rewrite Et, Eh. apply IH.
Qed.

Lemma linearIndex_counted (loops : list ForLoopHeader) :
  forall a,
    fold_left
      (fun linear_index loop =>
         if isTrivial loop then linear_index
         else if isThread (iter_domain loop) then linear_index
         else addExpr (mulExpr linear_index (extent (iter_domain loop)))
                      (index loop))
      loops a =
    fold_left
      (fun linear_index loop =>
         addExpr (mulExpr linear_index (extent (iter_domain loop)))
                 (index loop))
      (filter counted loops) a.
Proof.
  induction loops as [|fl loops IH]; intros a; simpl; [reflexivity|].
  unfold counted at 1.
  destruct (isTrivial fl) eqn:Et; simpl; [apply IH|].
  destruct (isThread (iter_domain fl)) eqn:Eh; simpl; apply IH.
Qed.

(** X1.  The buffer sizes and the entrance numbers of a grid reduction do
    not depend on the enclosing loops that are trivial or bound to a thread
    or block dimension: they are the same expressions as for the counted
    loops alone. *)
Theorem uncounted_loops_are_ignored (current : GpuLower) (td : TensorDomain)
    (loops : list ForLoopHeader) (expansion_factor : Z) :
  getGridCommWorkBufferSize current td loops expansion_factor =
    getGridCommWorkBufferSize current td (filter counted loops)
                              expansion_factor /\
  getGridSyncBufferSize current td loops =
    getGridSyncBufferSize current td (filter counted loops) /\
  getEntranceCountGridReduce loops =
    getEntranceCountGridReduce (filter counted loops) /\
  getEntranceLinIndGridReduce loops =
    getEntranceLinIndGridReduce (filter counted loops).
Proof.
  repeat split.
  - unfold getGridCommWorkBufferSize.
    destruct (expansion_factor <? 1); [reflexivity|].
    cbv zeta. now rewrite mulLoopExtents_counted.
  - unfold getGridSyncBufferSize. cbv zeta.
    now rewrite mulLoopExtents_counted.
  - unfold getEntranceCountGridReduce. apply mulLoopExtents_counted.
  - unfold getEntranceLinIndGridReduce.
    rewrite linearIndex_counted.
    rewrite (linearIndex_counted (filter counted loops)).
    f_equal. induction loops as [|fl loops IH]; simpl; [reflexivity|].
    destruct (counted fl) eqn:E; simpl; [rewrite E; f_equal|]; exact IH.
Qed.

(** Value of the linear index and of the count from arbitrary starting
    values. *)
Lemma entrance_fold_range (env : string -> Z) (loops : list ForLoopHeader) :
  indicesInRange env loops ->
  forall lin cnt,
    0 <= eval env lin < eval env cnt ->
    0 <= eval env
           (fold_left
              (fun linear_index loop =>
                 if isTrivial loop then linear_index
                 else if isThread (iter_domain loop) then linear_index
                 else addExpr
                        (mulExpr linear_index (extent (iter_domain loop)))
                        (index loop))
              loops lin)
      < eval env (mulLoopExtents cnt loops).
Proof.
  unfold mulLoopExtents.
  induction 1 as [|fl loops Hfl _ IH]; intros lin cnt Hr; simpl;
    [exact Hr|].
  unfold counted in Hfl.
  destruct (isTrivial fl); simpl in *; [now apply IH|].
  destruct (isThread (iter_domain fl)); simpl in *; [now apply IH|].
  apply IH. rewrite eval_addExpr, !eval_mulExpr.
  specialize (Hfl eq_refl). nia.
Qed.

(** X2.  When the index of every counted enclosing loop lies within the
    extent of its loop, the entrance index of a grid reduction lies within
    the entrance count, and the entrance count is the product of the
    extents of the counted loops. *)
Theorem entrance_index_in_range (env : string -> Z)
    (loops : list ForLoopHeader) :
  indicesInRange env loops ->
  0 <= eval env (getEntranceLinIndGridReduce loops)
    < eval env (getEntranceCountGridReduce loops) /\
  eval env (getEntranceCountGridReduce loops) = loopExtentProduct env loops.
Proof.
  intros H. split.
  - unfold getEntranceLinIndGridReduce, getEntranceCountGridReduce.
    apply entrance_fold_range; [assumption | simpl; lia].
  - unfold getEntranceCountGridReduce.
    rewrite eval_mulLoopExtents. change (eval env oneVal) with 1. ring.
Qed.

Lemma indicesInRange_example (i j : Z) :
  0 <= i < 4 -> 0 <= j < 5 ->
  indicesInRange (indexBinding i j) nestedLoops.
Proof.
  intros Hi Hj. unfold indicesInRange, nestedLoops.
  repeat (apply Forall_cons;
          [intros Hc; unfold indexBinding; simpl in *;
           try discriminate; lia|]).
  apply Forall_nil.
Qed.

Lemma entrance_index_in_range_witness :
  0 <= eval (indexBinding 3 4) (getEntranceLinIndGridReduce nestedLoops)
    < eval (indexBinding 3 4) (getEntranceCountGridReduce nestedLoops) /\
  eval (indexBinding 3 4) (getEntranceCountGridReduce nestedLoops)
    = loopExtentProduct (indexBinding 3 4) nestedLoops.
Proof.
  apply (entrance_index_in_range (indexBinding 3 4) nestedLoops).
  apply indicesInRange_example; lia.
Defined.

Lemma linear_fold_snoc (loops : list ForLoopHeader) (fl : ForLoopHeader)
    (a : Scalar) :
  fold_left
    (fun linear_index loop =>
       addExpr (mulExpr linear_index (extent (iter_domain loop)))
               (index loop))
    (loops ++ [fl]) a =
  addExpr
    (mulExpr
       (fold_left
          (fun linear_index loop =>
             addExpr (mulExpr linear_index (extent (iter_domain loop)))
                     (index loop))
          loops a)
       (extent (iter_domain fl)))
    (index fl).
Proof. now rewrite fold_left_app. Qed.

Lemma mixed_radix_injective (env1 env2 : string -> Z)
    (loops : list ForLoopHeader) (a : Scalar) :
  Forall (fun fl =>
            eval env1 (extent (iter_domain fl)) =
            eval env2 (extent (iter_domain fl)) /\
            0 <= eval env1 (index fl) < eval env1 (extent (iter_domain fl)) /\
            0 <= eval env2 (index fl) < eval env2 (extent (iter_domain fl)))
         loops ->
  eval env1
    (fold_left
       (fun linear_index loop =>
          addExpr (mulExpr linear_index (extent (iter_domain loop)))
                  (index loop)) loops a) =
  eval env2
    (fold_left
       (fun linear_index loop =>
          addExpr (mulExpr linear_index (extent (iter_domain loop)))
                  (index loop)) loops a) ->
  eval env1 a = eval env2 a /\
  Forall (fun fl => eval env1 (index fl) = eval env2 (index fl)) loops.
Proof.
  induction loops as [|fl loops IH] using rev_ind; intros HF Heq.
  - simpl in Heq. split; [assumption | constructor].
  - apply Forall_app in HF. destruct HF as [HF Hfl].
    inversion Hfl as [|? ? (He & H1 & H2) _]; subst.
    rewrite linear_fold_snoc in Heq.
    rewrite !eval_addExpr, !eval_mulExpr in Heq.
    set (x1 := eval env1 (fold_left _ loops a)) in *.
    set (x2 := eval env2 (fold_left _ loops a)) in *.
    assert (Hx : x1 = x2 /\ eval env1 (index fl) = eval env2 (index fl)).
    { rewrite He in *.
      set (e := eval env2 (extent (iter_domain fl))) in *.
      set (i1 := eval env1 (index fl)) in *.
      set (i2 := eval env2 (index fl)) in *.
      assert (Hx : x1 = x2).
      { destruct (Z.lt_trichotomy x1 x2) as [Hlt | [Heq' | Hgt]];
          [exfalso | assumption | exfalso].
        - assert (x1 * e + e <= x2 * e) by nia. lia.
        - assert (x2 * e + e <= x1 * e) by nia. lia. }
      split; [assumption|]. subst x1. lia. }
    destruct Hx as [Hx Hi]. destruct (IH HF Hx) as [Ha Hall].
    split; [assumption|]. apply Forall_app. split; [assumption|].
    constructor; [assumption | constructor].
Qed.

(** X3.  The entrance index is injective on the counted loops: two
    iterations of the enclosing loops (two bindings that agree on the
    extents and keep every counted index within its extent) that give the
    same entrance index have the same index in every counted loop, so
    distinct iterations use distinct slots of the work buffer. *)
Theorem entrance_index_injective (env1 env2 : string -> Z)
    (loops : list ForLoopHeader) :
  indicesInRange env1 loops ->
  indicesInRange env2 loops ->
  Forall (fun fl => eval env1 (extent (iter_domain fl)) =
                    eval env2 (extent (iter_domain fl))) loops ->
  eval env1 (getEntranceLinIndGridReduce loops) =
  eval env2 (getEntranceLinIndGridReduce loops) ->
  Forall (fun fl => counted fl = true ->
                    eval env1 (index fl) = eval env2 (index fl)) loops.
Proof.
  intros H1 H2 He Heq.
  unfold getEntranceLinIndGridReduce in Heq.
  rewrite linearIndex_counted in Heq.
  assert (HF : Forall
                 (fun fl =>
                    eval env1 (extent (iter_domain fl)) =
                    eval env2 (extent (iter_domain fl)) /\
                    0 <= eval env1 (index fl)
                      < eval env1 (extent (iter_domain fl)) /\
                    0 <= eval env2 (index fl)
                      < eval env2 (extent (iter_domain fl)))
                 (filter counted loops)).
  { apply Forall_forall. intros fl Hin.
    apply filter_In in Hin. destruct Hin as [Hin Hc].
    unfold indicesInRange in H1, H2.
    rewrite Forall_forall in H1, H2, He. auto. }
  destruct (mixed_radix_injective env1 env2 _ zeroVal HF Heq) as [_ Hall].
  apply Forall_forall. intros fl Hin Hc.
  rewrite Forall_forall in Hall. apply Hall.
  apply filter_In. auto.
Qed.

Lemma entrance_index_injective_witness :
  Forall (fun fl => counted fl = true ->
                    eval (indexBinding 2 3) (index fl) =
                    eval (indexBinding 2 3) (index fl)) nestedLoops.
Proof.
  apply (entrance_index_injective (indexBinding 2 3) (indexBinding 2 3)
           nestedLoops).
  - apply indicesInRange_example; lia.
  - apply indicesInRange_example; lia.
  - repeat constructor.
  - reflexivity.
Defined.

End EntranceProps.

(** ** Scope pointer and loop stack *)

Module ScopeDiscipline.
Import IR Kir Lower Props MoreProps ScopeFacts ReindexFacts ReductionFacts.
Local Open Scope lower_scope.

Lemma sound_neq (msg : string) :
  String.eqb msg "dangling active scope" = false ->
  String.eqb msg "!lowered_exprs_.empty()" = false ->
  sound msg.
Proof. intros H1 H2. split; now apply String.eqb_neq. Qed.

Ltac sound_msg := apply sound_neq; reflexivity.

Lemma triple_ret {A : Type} (P : IndexLowering -> Prop) (a : A)
    (E : string -> Prop) :
  triple P (ret a) (fun _ => P) E.
Proof. intros st H. exact H. Qed.

Lemma triple_throw {A : Type} (P : IndexLowering -> Prop) (msg : string)
    (Q : A -> IndexLowering -> Prop) (E : string -> Prop) :
  E msg -> triple P (throw msg) Q E.
Proof. intros H st _. exact H. Qed.

Lemma triple_bind {A B : Type} (P : IndexLowering -> Prop) (m : M A)
    (k : A -> M B) (R : A -> IndexLowering -> Prop)
    (Q : B -> IndexLowering -> Prop) (E : string -> Prop) :
  triple P m R E ->
  (forall a, triple (R a) (k a) Q E) ->
  triple P (bind m k) Q E.
Proof.
  intros Hm Hk st HP. unfold bind. specialize (Hm st HP).
  destruct (m st) as [[err|a] st1]; [exact Hm|].
  apply (Hk a st1 Hm).
Qed.

Lemma triple_weaken {A : Type} (P : IndexLowering -> Prop) (m : M A)
    (Q Q' : A -> IndexLowering -> Prop) (E : string -> Prop) :
  triple P m Q E -> (forall a st, Q a st -> Q' a st) -> triple P m Q' E.
Proof.
  intros Hm HQ st HP. specialize (Hm st HP).
  destruct (m st) as [[err|a] st1]; auto.
Qed.

Lemma triple_gets {A : Type} (P : IndexLowering -> Prop)
    (f : IndexLowering -> A) (E : string -> Prop) :
  triple P (gets f) (fun a st => P st /\ a = f st) E.
Proof. intros st H. simpl. auto. Qed.

Lemma triple_gets_same {A : Type} (P : IndexLowering -> Prop)
    (f : IndexLowering -> A) (E : string -> Prop) :
  triple P (gets f) (fun _ => P) E.
Proof. intros st H. exact H. Qed.

Lemma triple_assert (P : IndexLowering -> Prop) (c : bool) (msg : string)
    (E : string -> Prop) :
  E msg -> triple P (TORCH_INTERNAL_ASSERT c msg) (fun _ => P) E.
Proof. intros H st HP. unfold TORCH_INTERNAL_ASSERT. now destruct c. Qed.

Lemma triple_lift {A : Type} (P : IndexLowering -> Prop) (r : Result A)
    (E : string -> Prop) :
  (forall err, r = inl err -> E err) -> triple P (lift r) (fun _ => P) E.
Proof.
  intros H st HP. unfold lift. destruct r as [err|a]; simpl; auto.
Qed.

Lemma lowerSrcIndex_sound (current : GpuLower) (loops : list ForLoopHeader)
    (v d : Val) (err : string) :
  lowerSrcIndex current loops v d = inl err -> sound err.
Proof.
  unfold lowerSrcIndex. destruct v; try discriminate.
  destruct d; try discriminate; intros H; inversion H; sound_msg.
Qed.

Lemma workBufferSize_sound (current : GpuLower) (td : TensorDomain)
    (loops : list ForLoopHeader) (k : Z) (err : string) :
  getGridCommWorkBufferSize current td loops k = inl err -> sound err.
Proof.
  unfold getGridCommWorkBufferSize. destruct (k <? 1); [|discriminate].
  intros H. inversion H. sound_msg.
Qed.

Lemma mapResult_sound {A B : Type} (f : A -> Result B) (l : list A)
    (err : string) :
  (forall a e, f a = inl e -> sound e) ->
  mapResult f l = inl err -> sound err.
Proof.
  intros Hf. induction l as [|a l IH]; simpl; [discriminate|].
  destruct (f a) as [e|b] eqn:Ea.
  - intros H. inversion H; subst. eauto.
  - destruct (mapResult f l); [|discriminate].
    intros H. inversion H; subst. auto.
Qed.

Section Scoped.

Variable current : GpuLower.
Variable p : list ScopeSel.
Variable loops : list ForLoopHeader.

Local Abbreviation J := (scoped p loops).

Lemma triple_src (v d : Val) :
  triple J (src current v d) (fun _ => J) sound.
Proof.
  unfold src. eapply triple_bind; [apply triple_gets|].
  intros l. eapply triple_weaken.
  - apply (triple_lift (fun st => J st /\ l = for_loops_ st)).
    intros err. apply lowerSrcIndex_sound.
  - intros a st [H _]. exact H.
Qed.

Lemma triple_dst (v : Val) : triple J (dst current v) (fun _ => J) sound.
Proof. intros st H. exact H. Qed.

Lemma triple_pushBack (e : Expr) :
  triple J (pushBack e) (fun _ st => J st /\ lowered_exprs_ st <> []) sound.
Proof.
  intros st (Hp & Hl & Hwf). unfold wellScoped in Hwf.
  destruct (scope_at (active_scope_ st) (lowered_exprs_ st)) as [sc|] eqn:Hsc;
    [|congruence].
  destruct (pushBack_spec e st sc Hsc) as (l' & Hrun & Hr & Hs).
  rewrite Hrun. simpl. repeat split; try assumption.
  - unfold wellScoped. simpl. rewrite Hs. discriminate.
  - apply (replace_at_nonempty _ _ _ _ Hr). now destruct sc.
Qed.

Lemma triple_pushBack_J (e : Expr) :
  triple J (pushBack e) (fun _ => J) sound.
Proof.
  eapply triple_weaken; [apply triple_pushBack|]. intros a st [H _]. exact H.
Qed.

Lemma triple_pushBackAll (es : list Expr) :
  triple J (pushBackAll es) (fun _ => J) sound.
Proof.
  induction es as [|e es IH]; simpl.
  - apply triple_ret.
  - eapply triple_bind; [apply triple_pushBack_J|]. intros u. exact IH.
Qed.

Lemma scope_at_hoist (q : list ScopeSel) (e : Expr) (l : list Expr) :
  l <> [] -> scope_at q l <> None -> scope_at q (hoist e l) <> None.
Proof.
  intros Hl Hs. unfold hoist.
  destruct (unsnoc l) as [[front last]|] eqn:E; [|assumption].
  apply unsnoc_inv in E. subst l.
  destruct q as [|sel q]; [discriminate|].
  simpl in *. rewrite unsnoc_app in Hs.
  change (front ++ [e; last]) with (front ++ [e] ++ [last]).
  rewrite app_assoc, unsnoc_app. exact Hs.
Qed.

Lemma triple_insertAtTopLevel (e : Expr) :
  triple (fun st => J st /\ lowered_exprs_ st <> [])
         (insertAtTopLevel e) (fun _ => J) sound.
Proof.
  intros [l q ls] [(Hp & Hl & Hwf) Hne]. simpl in *.
  rewrite insertAtTopLevel_spec by assumption.
  repeat split; try assumption.
  unfold wellScoped in *. simpl in *. now apply scope_at_hoist.
Qed.

Lemma triple_tail (e x : Expr) (b : bool) :
  triple J (pushBack e ;; (if b then insertAtTopLevel x else ret tt))
         (fun _ => J) sound.
Proof.
  eapply triple_bind; [apply triple_pushBack|]. intros u.
  destruct b; [apply triple_insertAtTopLevel|].
  intros st [H _]. exact H.
Qed.

Ltac triple_step :=
  match goal with
  | |- triple _ (bind (pushBack _)
                      (fun _ => if _ then insertAtTopLevel _ else ret tt))
              _ _ => apply triple_tail
  | |- triple _ (bind _ _) _ _ =>
      eapply triple_bind; [|intros ?; cbv beta]
  | |- triple _ (src _ _ _) _ _ => apply triple_src
  | |- triple _ (dst _ _) _ _ => apply triple_dst
  | |- triple _ (pushBack _) _ _ => apply triple_pushBack_J
  | |- triple _ (pushBackAll _) _ _ => apply triple_pushBackAll
  | |- triple _ (ret _) _ _ => apply triple_ret
  | |- triple _ (throw _) _ _ => apply triple_throw; sound_msg
  | |- triple _ (TORCH_INTERNAL_ASSERT _ _) _ _ =>
      apply triple_assert; sound_msg
  | |- triple _ (gets _) _ _ => apply triple_gets_same
  | |- triple _ (match ?x with _ => _ end) _ _ => destruct x
  end.

Lemma triple_lift_src (v d : Val) (ls : list ForLoopHeader) :
  triple J (lift (lowerSrcIndex current ls v d)) (fun _ => J) sound.
Proof. apply triple_lift. intros err. apply lowerSrcIndex_sound. Qed.

Lemma triple_lift_size (td : TensorDomain) (ls : list ForLoopHeader)
    (k : Z) :
  triple J (lift (getGridCommWorkBufferSize current td ls k)) (fun _ => J)
         sound.
Proof. apply triple_lift. intros err. apply workBufferSize_sound. Qed.

Lemma triple_handleGridReduction (rop : ReductionOp) (out inp : Val) :
  triple J (handleGridReduction current rop out inp) (fun _ => J) sound.
Proof.
  unfold handleGridReduction. destruct out; try (apply triple_throw; sound_msg).
  cbv zeta.
  repeat first [apply triple_lift_size | triple_step].
Qed.

Lemma triple_handle_ReductionOp (rop : ReductionOp) :
  triple J (handle_ReductionOp current rop) (fun _ => J) sound.
Proof.
  unfold handle_ReductionOp, handleBlockReduction.
  destruct (rop_out rop); try (apply triple_throw; sound_msg).
  cbv zeta.
  repeat first [apply triple_handleGridReduction | triple_step].
Qed.

Lemma triple_lift_buffers (td : TensorDomain) (ls : list ForLoopHeader)
    (k : Z) (indexed : list GroupedEntry) :
  triple J
    (lift (mapResult
             (fun e =>
                match getGridCommWorkBufferSize current td ls k with
                | inl err => inl err
                | inr size =>
                    inr (allocGlobalBufferForGridComm size
                           (dtype (ge_output e)) false)
                end)
             indexed))
    (fun _ => J) sound.
Proof.
  apply triple_lift. intros err. apply mapResult_sound.
  intros e msg. destruct (getGridCommWorkBufferSize _ _ _ _) eqn:E;
    [|discriminate].
  intros H. inversion H; subst. eapply workBufferSize_sound; eassumption.
Qed.

Lemma triple_lift_entries (ls : list ForLoopHeader)
    (l : list GroupedEntry) :
  triple J (lift (mapResult (indexEntry current ls) l)) (fun _ => J) sound.
Proof.
  apply triple_lift. intros err. apply mapResult_sound.
  intros e msg. unfold indexEntry.
  destruct (lowerSrcIndex _ _ _ _) eqn:E; [|discriminate].
  intros H. inversion H; subst. eapply lowerSrcIndex_sound; eassumption.
Qed.

Lemma triple_handleGridReduction_grouped (grop : GroupedReductionOp)
    (indexed : list GroupedEntry) :
  triple J (handleGridReduction_grouped current grop indexed) (fun _ => J)
         sound.
Proof.
  unfold handleGridReduction_grouped.
  destruct (getTvOutput (reductions grop));
    [|apply triple_throw; sound_msg].
  cbv zeta.
  repeat first [apply triple_lift_buffers | triple_step].
Qed.

Lemma triple_handle_GroupedReductionOp (grop : GroupedReductionOp) :
  triple J (handle_GroupedReductionOp current grop) (fun _ => J) sound.
Proof.
  unfold handle_GroupedReductionOp, handleBlockReduction_grouped.
  destruct (getTvOutput (reductions grop));
    [|apply triple_throw; sound_msg].
  cbv zeta.
  repeat first [apply triple_lift_entries
               | apply triple_handleGridReduction_grouped | triple_step].
Qed.

Lemma triple_handleGridWelford (wop : WelfordOp) :
  triple J (handleGridWelford current wop) (fun _ => J) sound.
Proof.
  unfold handleGridWelford.
  destruct (outAvg wop); try (apply triple_throw; sound_msg).
  cbv zeta.
  repeat first [apply triple_lift_size | triple_step].
Qed.

Lemma triple_handle_WelfordOp (wop : WelfordOp) :
  triple J (handle_WelfordOp current wop) (fun _ => J) sound.
Proof.
  unfold handle_WelfordOp.
  destruct (outAvg wop); try (apply triple_throw; sound_msg).
  cbv zeta.
  repeat first [apply triple_handleGridWelford | triple_step].
Qed.

Lemma triple_handle_BroadcastOp (bop : BroadcastOp) :
  triple J (handle_BroadcastOp current bop) (fun _ => J) sound.
Proof.
  unfold handle_BroadcastOp.
  destruct (bop_out bop); try (apply triple_throw; sound_msg).
  cbv zeta.
  repeat first [apply triple_lift_size | triple_step].
Qed.

Lemma triple_handle_ViewAsScalar (out inp : Val) (vid : IterDomain) :
  triple J (handle_ViewAsScalar current out inp vid) (fun _ => J) sound.
Proof.
  unfold handle_ViewAsScalar. repeat triple_step.
Qed.

Lemma triple_handle_leaf (e : Expr) :
  match e with
  | E_ForLoop _ _ | E_IfThenElse _ _ _ => False
  | _ => True
  end ->
  triple J (handle current e) (fun _ => J) sound.
Proof.
  destruct e; intros H; try contradiction; simpl;
    first [ apply triple_handle_ReductionOp
          | apply triple_handle_GroupedReductionOp
          | apply triple_handle_WelfordOp
          | apply triple_handle_BroadcastOp
          | apply triple_handle_ViewAsScalar
          | unfold handle_UnaryOp, handle_BinaryOp, handle_TernaryOp,
              handle_MmaOp; repeat triple_step ].
Qed.

End Scoped.

Lemma scope_at_prefix (p q : list ScopeSel) :
  forall l, scope_at (p ++ q) l <> None -> scope_at p l <> None.
Proof.
  induction p as [|sel p IH]; simpl; intros l H; [discriminate|].
  destruct (unsnoc l) as [[front last]|]; [|assumption].
  destruct last; try assumption; destruct sel; try assumption;
    now apply IH.
Qed.

Lemma scope_at_entered (p : list ScopeSel) (sel : ScopeSel) :
  forall l sc x,
    scope_at p l = Some (sc ++ [x]) ->
    scope_at [sel] [x] <> None ->
    scope_at (p ++ [sel]) l <> None.
Proof.
  intros l sc x H Hx. now rewrite (scope_at_enter _ _ _ _ sel H).
Qed.

Lemma generate_keepsScopes (current : GpuLower) (es : list Expr) :
  Forall (keepsScopes current) es ->
  forall p loops,
    triple (scoped p loops) (generate current es) (fun _ => scoped p loops)
           sound.
Proof.
  induction 1 as [|e es He _ IH]; intros p loops; simpl.
  - apply triple_ret.
  - eapply triple_bind; [apply He|]. intros u. apply IH.
Qed.

Lemma scope_at_sibling (p : list ScopeSel) :
  forall l,
    scope_at (p ++ [InThen]) l <> None -> scope_at (p ++ [InElse]) l <> None.
Proof.
  induction p as [|sel p IH]; simpl; intros l H.
  - destruct (unsnoc l) as [[front last]|]; [|assumption].
    destruct last; try assumption. discriminate.
  - destruct (unsnoc l) as [[front last]|]; [|assumption].
    destruct last; try assumption; destruct sel; try assumption;
      now apply IH.
Qed.

Lemma triple_gets_scope {A : Type} (p : list ScopeSel)
    (loops : list ForLoopHeader) (k : list ScopeSel -> M A)
    (Q : A -> IndexLowering -> Prop) (E : string -> Prop) :
  triple (scoped p loops) (k p) Q E ->
  triple (scoped p loops) (bind (gets active_scope_) k) Q E.
Proof.
  intros H st HJ. unfold bind, gets.
  destruct HJ as (Hp & Hl & Hwf). rewrite Hp. apply H. now repeat split.
Qed.

Lemma triple_gets_loops {A : Type} (p : list ScopeSel)
    (loops : list ForLoopHeader) (k : list ForLoopHeader -> M A)
    (Q : A -> IndexLowering -> Prop) (E : string -> Prop) :
  triple (scoped p loops) (k loops) Q E ->
  triple (scoped p loops) (bind (gets for_loops_) k) Q E.
Proof.
  intros H st HJ. unfold bind, gets.
  destruct HJ as (Hp & Hl & Hwf). rewrite Hl. apply H. now repeat split.
Qed.

Lemma triple_enter (p : list ScopeSel) (loops : list ForLoopHeader)
    (e : Expr) (sel : ScopeSel) :
  scope_at [sel] [e] <> None ->
  triple (scoped p loops) (pushBack e ;; set_active_scope (p ++ [sel]))
         (fun _ => scoped (p ++ [sel]) loops) sound.
Proof.
  intros He st (Hp & Hl & Hwf). unfold wellScoped in Hwf.
  destruct (scope_at (active_scope_ st) (lowered_exprs_ st)) as [sc|] eqn:Hsc;
    [|congruence].
  destruct (pushBack_spec e st sc Hsc) as (l' & Hrun & Hr & Hs).
  unfold bind. rewrite Hrun. unfold set_active_scope. simpl.
  repeat split; try assumption.
  unfold wellScoped. simpl. rewrite Hp in Hs.
  now apply (scope_at_entered p sel l' sc e).
Qed.

Lemma triple_set_loops (p : list ScopeSel) (loops l : list ForLoopHeader)
    (E : string -> Prop) :
  triple (scoped p loops) (set_for_loops l) (fun _ => scoped p l) E.
Proof.
  intros st (Hp & Hl & Hwf). unfold set_for_loops. simpl.
  now repeat split.
Qed.

Lemma triple_leave (p q : list ScopeSel) (loops : list ForLoopHeader)
    (E : string -> Prop) :
  triple (scoped (p ++ q) loops) (set_active_scope p)
         (fun _ => scoped p loops) E.
Proof.
  intros st (Hp & Hl & Hwf). unfold set_active_scope. simpl.
  repeat split; try assumption.
  unfold wellScoped in *. simpl. rewrite Hp in Hwf.
  now apply (scope_at_prefix p q).
Qed.

Lemma triple_switch (p : list ScopeSel) (loops : list ForLoopHeader)
    (E : string -> Prop) :
  triple (scoped (p ++ [InThen]) loops) (set_active_scope (p ++ [InElse]))
         (fun _ => scoped (p ++ [InElse]) loops) E.
Proof.
  intros st (Hp & Hl & Hwf). unfold set_active_scope. simpl.
  repeat split; try assumption.
  unfold wellScoped in *. simpl. rewrite Hp in Hwf.
  now apply scope_at_sibling.
Qed.

Lemma triple_assoc {A B C : Type} (P : IndexLowering -> Prop) (m : M A)
    (f : A -> M B) (g : B -> M C) (Q : C -> IndexLowering -> Prop)
    (E : string -> Prop) :
  triple P (bind (bind m f) g) Q E ->
  triple P (bind m (fun x => bind (f x) g)) Q E.
Proof.
  intros H st HP. specialize (H st HP). unfold bind in *.
  destruct (m st) as [[err|a] st1]; exact H.
Qed.

Lemma ForLoop_keepsScopes (current : GpuLower) (fl : ForLoopHeader)
    (body : list Expr) :
  Forall (keepsScopes current) body ->
  keepsScopes current (E_ForLoop fl body).
Proof.
  intros Hbody p loops. rewrite handle_ForLoop.
  apply triple_gets_scope. apply triple_assoc.
  eapply triple_bind; [apply triple_enter; discriminate|]. intros u.
  apply triple_gets_loops.
  eapply triple_bind; [apply triple_set_loops|]. intros u1.
  eapply triple_bind; [apply generate_keepsScopes, Hbody|]. intros u2.
  apply triple_gets_loops. rewrite removelast_last.
  eapply triple_bind; [apply triple_set_loops|]. intros u3.
  apply triple_leave.
Qed.

Lemma IfThenElse_keepsScopes (current : GpuLower) (pred : Predicate)
    (thenBody elseBody : list Expr) :
  Forall (keepsScopes current) thenBody ->
  Forall (keepsScopes current) elseBody ->
  keepsScopes current (E_IfThenElse pred thenBody elseBody).
Proof.
  intros Hthen Helse p loops. rewrite handle_IfThenElse.
  apply triple_gets_scope. apply triple_assoc.
  eapply triple_bind; [apply triple_enter; discriminate|]. intros u.
  eapply triple_bind; [apply generate_keepsScopes, Hthen|]. intros u1.
  eapply triple_bind; [apply triple_switch|]. intros u2.
  eapply triple_bind; [apply generate_keepsScopes, Helse|]. intros u3.
  apply triple_leave.
Qed.

Lemma handle_keepsScopes (current : GpuLower) (e : Expr) :
  keepsScopes current e.
Proof.
  induction e as [e IH] using Expr_bodies_ind.
  destruct e; simpl in IH;
    try (intros p loops; now apply triple_handle_leaf).
  - now apply ForLoop_keepsScopes.
  - apply Forall_app in IH. destruct IH.
    now apply IfThenElse_keepsScopes.
Qed.

(** X4. Lowering any list of expressions from a state whose scope pointer
    leads to a scope either ends with the scope pointer and the loop stack
    as they were and the pointer still leading to a scope, or stops on an
    assertion that is neither a broken scope pointer nor the emptiness
    check of [insertAtTopLevel]. *)
Theorem lowering_keeps_scopes (current : GpuLower) (es : list Expr)
    (st : IndexLowering) :
  wellScoped st ->
  match generate current es st with
  | (inr _, st') =>
      active_scope_ st' = active_scope_ st /\
      for_loops_ st' = for_loops_ st /\
      wellScoped st'
  | (inl msg, _) =>
      msg <> "dangling active scope"%string /\
      msg <> "!lowered_exprs_.empty()"%string
  end.
Proof.
  intros Hwf.
  assert (Hes : Forall (keepsScopes current) es).
  { apply Forall_forall. intros e _. apply handle_keepsScopes. }
  pose proof (generate_keepsScopes current es Hes (active_scope_ st)
                (for_loops_ st) st) as H.
  unfold scoped in H. specialize (H (conj eq_refl (conj eq_refl Hwf))).
  destruct (generate current es st) as [[msg|u] st']; exact H.
Qed.

Lemma lowering_keeps_scopes_witness :
  wellScoped nestedState /\
  match
    generate Examples.symbolicGrid
      (Examples.pointwiseKernel ++
       [E_ReductionOp
          (Examples.sumInto
             (Examples.tvOf 2
                (Examples.reductionDomain (NamedScalar "gdimx"))))])
      nestedState
  with
  | (inr _, st') =>
      active_scope_ st' = active_scope_ nestedState /\
      for_loops_ st' = for_loops_ nestedState /\
      wellScoped st'
  | (inl msg, _) =>
      msg <> "dangling active scope"%string /\
      msg <> "!lowered_exprs_.empty()"%string
  end.
Proof.
  assert (H : wellScoped nestedState) by (unfold wellScoped; discriminate).
  split; [exact H|].
  apply (lowering_keeps_scopes Examples.symbolicGrid
           (Examples.pointwiseKernel ++
       [E_ReductionOp
          (Examples.sumInto
             (Examples.tvOf 2
                (Examples.reductionDomain (NamedScalar "gdimx"))))])
           nestedState H).
Defined.

End ScopeDiscipline.

(** ** What the handlers emit outside the grid paths *)

Module EmissionProps.
Import IR Kir Lower Props MoreProps ScopeFacts ReindexFacts ReductionFacts
       EntranceProps.
Local Open Scope lower_scope.

Lemma entrance_range (env : string -> Z) (loops : list ForLoopHeader) :
  indicesInRange env loops ->
  0 <= eval env (getEntranceLinIndGridReduce loops)
    < eval env (getEntranceCountGridReduce loops).
Proof.
  intros H.
  unfold getEntranceLinIndGridReduce, getEntranceCountGridReduce.
  apply entrance_fold_range; [assumption|]. simpl. lia.
Qed.

Lemma entrance_count_eval (env : string -> Z) (loops : list ForLoopHeader) :
  eval env (getEntranceCountGridReduce loops) = loopExtentProduct env loops.
Proof.
  unfold getEntranceCountGridReduce. rewrite eval_mulLoopExtents.
  change (eval env oneVal) with 1. ring.
Qed.

Lemma mapResult_length {A B : Type} (f : A -> Result B) (l : list A) :
  forall bs, mapResult f l = inr bs -> List.length bs = List.length l.
Proof.
  induction l as [|a l IH]; simpl; intros bs H.
  - now inversion H.
  - destruct (f a); [discriminate|].
    destruct (mapResult f l) as [|bs']; [discriminate|].
    inversion H; subst. simpl. now rewrite (IH bs').
Qed.

Lemma find_first {A : Type} (p : A -> bool) (before after : list A) (x : A) :
  forallb (fun y => negb (p y)) before = true ->
  p x = true ->
  find p (before ++ x :: after) = Some x.
Proof.
  induction before as [|y before IH]; simpl; intros Hb Hx.
  - now rewrite Hx.
  - apply andb_prop in Hb. destruct Hb as [Hy Hb].
    apply negb_true_iff in Hy. rewrite Hy. now apply IH.
Qed.

Lemma find_none {A : Type} (p : A -> bool) (l : list A) :
  forallb (fun y => negb (p y)) l = true -> find p l = None.
Proof.
  induction l as [|y l IH]; simpl; intros H; [reflexivity|].
  apply andb_prop in H. destruct H as [Hy H].
  apply negb_true_iff in Hy. rewrite Hy. now apply IH.
Qed.

#[local] Arguments pushBack : simpl never.
#[local] Arguments pushBackAll : simpl never.
#[local] Arguments insertAtTopLevel : simpl never.
#[local] Opaque getGridCommWorkBufferSize getGridSyncBufferSize
  getEntranceLinIndGridReduce getEntranceCountGridReduce is_within_a_loop
  hasGridReduction hasBlockReduction.

(** X5.  A grid reduction that is not an allreduce gets one slot of its
    buffers per entrance.  The emitted GridReduction carries the entrance
    index and the entrance count computed from the enclosing loops; the
    entrance count is the product of the extents of the counted loops; the
    work buffer holds the counted parallel dimensions times that product,
    and the sync buffer the counted block dimensions times that product;
    and, when the index of every counted enclosing loop lies within its
    extent, the entrance index lies within the entrance count. *)
Theorem privatized_grid_reduction (current : GpuLower) (env : string -> Z)
    (rop : ReductionOp) (tv : TensorView) (st : IndexLowering) :
  rop_out rop = TV tv ->
  rop_isAllreduce rop = false ->
  hasGridReduction (domain tv) = true ->
  existsb serialReductionAxis (domain tv) = false ->
  wellScoped st ->
  indicesInRange env (for_loops_ st) ->
  let loops := for_loops_ st in
  let index := getEntranceLinIndGridReduce loops in
  let count := getEntranceCountGridReduce loops in
  exists size inp st',
    getGridCommWorkBufferSize current (domain tv) loops 1 = inr size /\
    handle current (E_ReductionOp rop) st = (inr tt, st') /\
    let reduce_buffer := mkAllocate (tv_dtype tv) Global size false in
    let sync :=
      mkAllocate DT_Int Global
        (getGridSyncBufferSize current (domain tv) loops) true in
    emitsInto st
      [E_Allocate reduce_buffer; E_Allocate sync;
       E_GridReduction
         (mkReductionOp (getReductionOpType rop) (rop_init rop)
            (TensorIndex tv (getConsumerIndex current tv loops)) inp
            false (rop_predicate rop) (rop_writePredicate rop))
         reduce_buffer sync index count
         (getPredicatedParallelTypes current tv)]
      None st' /\
    eval env count = loopExtentProduct env loops /\
    eval env (alloc_size reduce_buffer) =
      workDimProduct current env (domain tv) * loopExtentProduct env loops /\
    eval env (alloc_size sync) =
      syncDimProduct current env (domain tv) * loopExtentProduct env loops /\
    0 <= eval env index < eval env count.
Proof.
  intros Hrop Hall Hgrid Hserial Hwf Hrange loops index count.
  subst loops index count.
  destruct (reduction_grid_run current rop tv st Hrop Hgrid Hserial Hwf)
    as (size & inp & st' & Hsize & Hrun & Hemit).
  rewrite Hall in *. cbn [andb] in Hsize. cbv zeta in Hemit.
  exists size, inp, st'. cbv zeta.
  split; [exact Hsize|]. split; [exact Hrun|]. split; [exact Hemit|].
  split; [apply entrance_count_eval|]. split; [|split].
  - cbn [alloc_size]. rewrite (eval_workBufferSize _ env _ _ _ _ Hsize).
    ring.
  - cbn [alloc_size]. apply eval_syncBufferSize.
  - now apply entrance_range.
Qed.

Lemma privatized_grid_reduction_witness :
  let tv := Examples.tvOf 5 (Examples.reductionDomain (NamedScalar "gdimx")) in
  let rop := Examples.sumInto tv in
  let current := Examples.symbolicGrid in
  let env := indexBinding 3 4 in
  let st := nestedState in
  let loops := for_loops_ st in
  let index := getEntranceLinIndGridReduce loops in
  let count := getEntranceCountGridReduce loops in
  exists size inp st',
    getGridCommWorkBufferSize current (domain tv) loops 1 = inr size /\
    handle current (E_ReductionOp rop) st = (inr tt, st') /\
    let reduce_buffer := mkAllocate (tv_dtype tv) Global size false in
    let sync :=
      mkAllocate DT_Int Global
        (getGridSyncBufferSize current (domain tv) loops) true in
    emitsInto st
      [E_Allocate reduce_buffer; E_Allocate sync;
       E_GridReduction
         (mkReductionOp (getReductionOpType rop) (rop_init rop)
            (TensorIndex tv (getConsumerIndex current tv loops)) inp
            false (rop_predicate rop) (rop_writePredicate rop))
         reduce_buffer sync index count
         (getPredicatedParallelTypes current tv)]
      None st' /\
    eval env count = loopExtentProduct env loops /\
    eval env (alloc_size reduce_buffer) =
      workDimProduct current env (domain tv) * loopExtentProduct env loops /\
    eval env (alloc_size sync) =
      syncDimProduct current env (domain tv) * loopExtentProduct env loops /\
    0 <= eval env index < eval env count.
Proof.
  intros tv rop current env st.
  apply (privatized_grid_reduction current env rop tv st).
  - reflexivity.
  - reflexivity.
  - reflexivity.
  - reflexivity.
  - discriminate.
  - apply indicesInRange_example; lia.
Defined.

(** X6.  A Welford allreduce over a grid is lowered as one fused node: no
    block-level Welford operation is emitted on its own, whether or not the
    output has a block reduction; the GridWelford node keeps the predicate
    and the write predicate of the source operation and carries the
    entrance index 0 and the entrance count 1; the three work buffers have
    the same size, which leaves the enclosing loops out and is doubled
    inside a loop; and the allocation of the fused reduction is hoisted to
    the top level. *)
Theorem fused_welford_allreduce (current : GpuLower) (env : string -> Z)
    (wop : WelfordOp) (tv : TensorView) (st : IndexLowering) :
  outAvg wop = TV tv ->
  srcOk (inN wop) (outN wop) = true ->
  hasGridReduction (domain tv) = true ->
  wop_isAllreduce wop = true ->
  existsb serialReductionAxisWelford (domain tv) = false ->
  wellScoped st ->
  exists w var_buffer avg_buffer n_buffer sync tp st',
    let node :=
      E_GridWelford w var_buffer avg_buffer n_buffer sync zeroVal oneVal tp
        (wop_predicate wop) (wop_writePredicate wop) in
    handle current (E_WelfordOp wop) st = (inr tt, st') /\
    emitsInto st
      [E_Allocate var_buffer; E_Allocate avg_buffer; E_Allocate n_buffer;
       E_Allocate sync; node]
      (Some (E_AllocateFusedReduction node)) st' /\
    Forall
      (fun b =>
         eval env (alloc_size b) =
         (if is_within_a_loop current (domain tv) then 2 else 1) *
         workDimProduct current env (domain tv))
      [var_buffer; avg_buffer; n_buffer] /\
    eval env (alloc_size sync) = syncDimProduct current env (domain tv).
Proof.
  intros Hout Hn Hgrid Hall Hserial Hwf.
  destruct (welford_grid_run current wop tv st Hout Hn Hgrid Hserial Hwf)
    as (size & in_avg & in_var & in_N & st' & Hsize & Hrun & Hemit).
  cbv zeta in Hemit. rewrite Hall in *. simpl in Hsize.
  rewrite andb_false_r in Hemit. simpl in Hemit.
  assert (Hpred :
            match wop_predicate wop with
            | Some p => Some p
            | None => None
            end = wop_predicate wop) by now destruct (wop_predicate wop).
  rewrite Hpred in Hemit.
  do 6 eexists. exists st'. cbv zeta.
  split; [exact Hrun|]. split; [exact Hemit|].
  pose proof (eval_workBufferSize _ env _ _ _ _ Hsize) as Hev.
  simpl in Hev. rewrite Z.mul_1_r in Hev.
  split.
  - repeat constructor; simpl; exact Hev.
  - simpl. rewrite eval_syncBufferSize. simpl. ring.
Qed.

Lemma fused_welford_allreduce_witness :
  let tv := Examples.tvOf 5 (Examples.reductionDomain (NamedScalar "gdimx")) in
  let wop :=
    mkWelfordOp (TV tv) (TV (Examples.tvOf 11 (domain tv)))
      (TV (mkTensorView 12 DT_Int (domain tv) (domain tv)))
      (ScalarVal DT_Float (Int 0)) (ScalarVal DT_Float (Int 0))
      (ScalarVal DT_Int (Int 0))
      (TV Examples.tv0) None (ScalarVal DT_Int (Int 1))
      true (Some Examples.inlinePredicate) None in
  let current := Examples.symbolicGrid in
  let env := Examples.sampleBinding in
  exists w var_buffer avg_buffer n_buffer sync tp st',
    let node :=
      E_GridWelford w var_buffer avg_buffer n_buffer sync zeroVal oneVal tp
        (wop_predicate wop) (wop_writePredicate wop) in
    handle current (E_WelfordOp wop) nestedState = (inr tt, st') /\
    emitsInto nestedState
      [E_Allocate var_buffer; E_Allocate avg_buffer; E_Allocate n_buffer;
       E_Allocate sync; node]
      (Some (E_AllocateFusedReduction node)) st' /\
    Forall
      (fun b =>
         eval env (alloc_size b) =
         (if is_within_a_loop current (domain tv) then 2 else 1) *
         workDimProduct current env (domain tv))
      [var_buffer; avg_buffer; n_buffer] /\
    eval env (alloc_size sync) = syncDimProduct current env (domain tv).
Proof.
  intros tv wop current env.
  apply (fused_welford_allreduce current env wop tv nestedState).
  - reflexivity.
  - reflexivity.
  - reflexivity.
  - reflexivity.
  - reflexivity.
  - discriminate.
Defined.

(** X7.  A ReductionOp whose output domain has no grid reduction is lowered
    to exactly one expression and no buffer: with a block reduction, a
    ReductionOp over the indexed operands that keeps the operation type,
    the initial value, the allreduce flag and both predicates; with neither
    block nor grid reduction, the accumulation [out = out op in] as a
    BinaryOp, which carries no initial value and no predicate. *)
Theorem reduction_without_grid (current : GpuLower) (rop : ReductionOp)
    (tv : TensorView) (st : IndexLowering) :
  rop_out rop = TV tv ->
  hasGridReduction (domain tv) = false ->
  wellScoped st ->
  exists inp st',
    lowerSrcIndex current (for_loops_ st) (rop_in rop) (TV tv) = inr inp /\
    handle current (E_ReductionOp rop) st = (inr tt, st') /\
    let out := TensorIndex tv (getConsumerIndex current tv (for_loops_ st)) in
    let emitted :=
      if hasBlockReduction (domain tv)
      then E_ReductionOp
             (mkReductionOp (getReductionOpType rop) (rop_init rop) out inp
                (rop_isAllreduce rop) (rop_predicate rop)
                (rop_writePredicate rop))
      else E_BinaryOp (getReductionOpType rop) out out inp in
    emitsInto st [emitted] None st' /\
    countExprs isAllocate [emitted] = 0%nat.
Proof.
  intros Hout Hgrid Hwf.
  unfold wellScoped in Hwf.
  destruct (scope_at (active_scope_ st) (lowered_exprs_ st)) as [sc|] eqn:Hsc;
    [clear Hwf | congruence].
  destruct (lowerSrcIndex_TV current (for_loops_ st) (rop_in rop) tv)
    as [inp Hinp].
  exists inp. simpl. unfold handle_ReductionOp. rewrite Hout.
  unfold_monad. simpl. rewrite Hinp. simpl. rewrite Hgrid.
  unfold handleBlockReduction.
  destruct (hasBlockReduction (domain tv)); push_step Hsc;
    (eexists; split; [reflexivity|]; split; [reflexivity|];
     split; [|reflexivity]; exists sc, l; now repeat split).
Qed.

Lemma reduction_without_grid_witness :
  let tv :=
    Examples.tvOf 5
      [mkIterDomain (NamedScalar "i0") Serial false false;
       mkIterDomain (NamedScalar "i1") Serial true false] in
  let rop := Examples.sumInto tv in
  let current := Examples.symbolicGrid in
  let st := nestedState in
  exists inp st',
    lowerSrcIndex current (for_loops_ st) (rop_in rop) (TV tv) = inr inp /\
    handle current (E_ReductionOp rop) st = (inr tt, st') /\
    let out := TensorIndex tv (getConsumerIndex current tv (for_loops_ st)) in
    let emitted :=
      if hasBlockReduction (domain tv)
      then E_ReductionOp
             (mkReductionOp (getReductionOpType rop) (rop_init rop) out inp
                (rop_isAllreduce rop) (rop_predicate rop)
                (rop_writePredicate rop))
      else E_BinaryOp (getReductionOpType rop) out out inp in
    emitsInto st [emitted] None st' /\
    countExprs isAllocate [emitted] = 0%nat.
Proof.
  intros tv rop current st.
  apply (reduction_without_grid current rop tv st).
  - reflexivity.
  - reflexivity.
  - discriminate.
Defined.

(** X8.  A GroupedReductionOp whose output domain has no grid reduction
    allocates nothing: with a block reduction it is lowered to one
    GroupedReductionOp over the indexed entries, with the allreduce flag and
    both predicates of the source; with neither block nor grid reduction,
    to one accumulation [out = out op in] per grouped entry, in the order
    of the entries. *)
Theorem grouped_without_grid (current : GpuLower) (grop : GroupedReductionOp)
    (tv : TensorView) (st : IndexLowering) :
  getTvOutput (reductions grop) = Some tv ->
  allOutputsTV grop ->
  hasGridReduction (domain tv) = false ->
  wellScoped st ->
  exists indexed st',
    mapResult (indexEntry current (for_loops_ st)) (reductions grop)
      = inr indexed /\
    List.length indexed = List.length (reductions grop) /\
    handle current (E_GroupedReductionOp grop) st = (inr tt, st') /\
    let emitted :=
      if hasBlockReduction (domain tv)
      then [E_GroupedReductionOp
              (mkGroupedReductionOp indexed (grop_isAllreduce grop)
                 (grop_predicate grop) (grop_writePredicate grop))]
      else map (fun e => E_BinaryOp (ge_type e) (ge_output e) (ge_output e)
                                    (ge_input e))
               indexed in
    emitsInto st emitted None st' /\
    countExprs isAllocate emitted = 0%nat.
Proof.
  intros Hout Hall Hgrid Hwf.
  unfold wellScoped in Hwf.
  destruct st as [l0 p loops]. simpl in *.
  destruct (scope_at p l0) as [sc|] eqn:Hsc; [clear Hwf | congruence].
  destruct (indexEntries_total current loops (reductions grop) Hall)
    as (indexed & Hix & Hdt).
  exists indexed.
  unfold handle_GroupedReductionOp. rewrite Hout.
  unfold_monad. simpl. rewrite Hix. simpl. rewrite Hgrid.
  unfold handleBlockReduction_grouped.
  destruct (hasBlockReduction (domain tv)).
  - push_step Hsc.
    eexists. split; [reflexivity|].
    split; [exact (mapResult_length _ _ _ Hix)|].
    split; [reflexivity|]. split; [|reflexivity].
    exists sc, l. now repeat split.
  - match goal with
    | |- context [pushBackAll ?es ?s] =>
        destruct (pushBackAll_spec es s sc Hsc) as (l1 & Hp & Hacc & Hs)
    end.
    simpl in Hp, Hacc, Hs. rewrite Hp.
    eexists. split; [reflexivity|].
    split; [exact (mapResult_length _ _ _ Hix)|].
    split; [reflexivity|]. split.
    + exists sc, l1. now repeat split.
    + clear. induction indexed as [|e r IH]; simpl; [reflexivity|].
      exact IH.
Qed.

Lemma grouped_without_grid_witness :
  let tv :=
    Examples.tvOf 5
      [mkIterDomain (NamedScalar "i0") Serial false false;
       mkIterDomain (NamedScalar "i1") Serial true false] in
  let grop := Examples.groupedSumInto tv tv in
  let current := Examples.symbolicGrid in
  let st := nestedState in
  exists indexed st',
    mapResult (indexEntry current (for_loops_ st)) (reductions grop)
      = inr indexed /\
    List.length indexed = List.length (reductions grop) /\
    handle current (E_GroupedReductionOp grop) st = (inr tt, st') /\
    let emitted :=
      if hasBlockReduction (domain tv)
      then [E_GroupedReductionOp
              (mkGroupedReductionOp indexed (grop_isAllreduce grop)
                 (grop_predicate grop) (grop_writePredicate grop))]
      else map (fun e => E_BinaryOp (ge_type e) (ge_output e) (ge_output e)
                                    (ge_input e))
               indexed in
    emitsInto st emitted None st' /\
    countExprs isAllocate emitted = 0%nat.
Proof.
  intros tv grop current st.
  apply (grouped_without_grid current grop tv st).
  - reflexivity.
  - repeat constructor.
  - reflexivity.
  - discriminate.
Defined.

(** X9.  A BroadcastOp is lowered to one indexed BroadcastOp with the
    broadcast flags and the predicate of the source when no block dimension
    takes part in the broadcast; otherwise to a work buffer, a sync buffer
    and a GridBroadcast node carrying the predicate of the source, in this
    order.  The two buffers are sized by the parallel dimensions alone: the
    enclosing loops never enlarge them. *)
Theorem broadcast_emission (current : GpuLower) (env : string -> Z)
    (bop : BroadcastOp) (tv : TensorView) (st : IndexLowering) :
  bop_out bop = TV tv ->
  wellScoped st ->
  exists inp broadcast_buffer sync st',
    lowerSrcIndex current (for_loops_ st) (bop_in bop) (TV tv) = inr inp /\
    handle current (E_BroadcastOp bop) st = (inr tt, st') /\
    let indexed_expr :=
      mkBroadcastOp
        (TensorIndex tv (getConsumerIndex current tv (for_loops_ st))) inp
        (getBroadcastDimFlags bop) (bop_predicate bop) in
    emitsInto st
      (if grid_broadcast_needed current tv
       then [E_Allocate broadcast_buffer; E_Allocate sync;
             E_GridBroadcast indexed_expr broadcast_buffer sync
               (bop_predicate bop)]
       else [E_BroadcastOp indexed_expr])
      None st' /\
    eval env (alloc_size broadcast_buffer) =
      workDimProduct current env (domain tv) /\
    eval env (alloc_size sync) = syncDimProduct current env (domain tv).
Proof.
  intros Hout Hwf.
  unfold wellScoped in Hwf.
  destruct (scope_at (active_scope_ st) (lowered_exprs_ st)) as [sc|] eqn:Hsc;
    [clear Hwf | congruence].
  destruct (lowerSrcIndex_TV current (for_loops_ st) (bop_in bop) tv)
    as [inp Hinp].
  destruct (workBufferSize_total current (domain tv) [] false)
    as [size Hsize].
  exists inp, (allocGlobalBufferForGridComm size (tv_dtype tv) false),
    (allocGlobalBufferForGridComm
       (getGridSyncBufferSize current (domain tv) []) DT_Int true).
  simpl. unfold handle_BroadcastOp. rewrite Hout.
  unfold_monad. simpl. rewrite Hinp. simpl.
  pose proof (eval_workBufferSize _ env _ _ _ _ Hsize) as Hev.
  change (loopExtentProduct env []) with 1 in Hev.
  rewrite Z.mul_1_l, Z.mul_1_r in Hev.
  destruct (grid_broadcast_needed current tv); simpl.
  - rewrite Hsize. simpl.
    push_step Hsc. push_step Hs. push_step Hs0.
    eexists. split; [reflexivity|]. split; [reflexivity|].
    split; [|split].
    + exists sc, l1. split; [assumption|]. split; [|reflexivity].
      rewrite (replace_replace _ _ _ _ _ Hr0) in Hr1.
      rewrite (replace_replace _ _ _ _ _ Hr) in Hr1.
      now rewrite <- !app_assoc in Hr1.
    + exact Hev.
    + rewrite eval_syncBufferSize. simpl. ring.
  - push_step Hsc.
    eexists. split; [reflexivity|]. split; [reflexivity|].
    split; [|split].
    + exists sc, l. now repeat split.
    + exact Hev.
    + rewrite eval_syncBufferSize. simpl. ring.
Qed.

Lemma broadcast_emission_witness :
  let bop :=
    mkBroadcastOp (TV Examples.tv1) (TV Examples.tv0) [false; true] None in
  let current := Examples.symbolicGrid in
  let env := Examples.sampleBinding in
  let tv := Examples.tv1 in
  let st := nestedState in
  exists inp broadcast_buffer sync st',
    lowerSrcIndex current (for_loops_ st) (bop_in bop) (TV tv) = inr inp /\
    handle current (E_BroadcastOp bop) st = (inr tt, st') /\
    let indexed_expr :=
      mkBroadcastOp
        (TensorIndex tv (getConsumerIndex current tv (for_loops_ st))) inp
        (getBroadcastDimFlags bop) (bop_predicate bop) in
    emitsInto st
      (if grid_broadcast_needed current tv
       then [E_Allocate broadcast_buffer; E_Allocate sync;
             E_GridBroadcast indexed_expr broadcast_buffer sync
               (bop_predicate bop)]
       else [E_BroadcastOp indexed_expr])
      None st' /\
    eval env (alloc_size broadcast_buffer) =
      workDimProduct current env (domain tv) /\
    eval env (alloc_size sync) = syncDimProduct current env (domain tv).
Proof.
  intros bop current env tv st.
  apply (broadcast_emission current env bop tv st).
  - reflexivity.
  - discriminate.
Defined.

(** X10.  A ViewAsScalar is indexed by the first enclosing loop, from the
    outermost inwards, whose axis is mapped to the vector axis; the index
    the source node may carry is not used.  When no enclosing loop is
    mapped, lowering stops with an error and emits nothing. *)
Theorem view_as_scalar_index (current : GpuLower) (out inp : Val)
    (vector_id : IterDomain) (old : option Scalar) (st : IndexLowering) :
  wellScoped st ->
  srcOk inp out = true ->
  let mapped :=
    fun loop => areMappedLoop current (iter_domain loop) vector_id in
  (forallb (fun loop => negb (mapped loop)) (for_loops_ st) = true ->
   handle current (E_ViewAsScalar out inp vector_id old) st =
     (inl "Can not find index for vector dim"%string, st)) /\
  (forall before loop after,
      for_loops_ st = before ++ loop :: after ->
      forallb (fun l => negb (mapped l)) before = true ->
      mapped loop = true ->
      exists i st',
        lowerSrcIndex current (for_loops_ st) inp out = inr i /\
        handle current (E_ViewAsScalar out inp vector_id old) st
          = (inr tt, st') /\
        emitsInto st
          [E_ViewAsScalar (lowerDstIndex current (for_loops_ st) out) i
             vector_id (Some (index loop))]
          None st').
Proof.
  intros Hwf Hsrc mapped.
  unfold wellScoped in Hwf.
  destruct (scope_at (active_scope_ st) (lowered_exprs_ st)) as [sc|] eqn:Hsc;
    [clear Hwf | congruence].
  destruct (lowerSrcIndex_ok current (for_loops_ st) inp out Hsrc)
    as [i Hi].
  split.
  - intros Hnone. apply find_none in Hnone. unfold mapped in Hnone.
    simpl. unfold handle_ViewAsScalar.
    unfold_monad. simpl. rewrite Hi. simpl.
    now rewrite Hnone.
  - intros before loop after Hloops Hbefore Hloop.
    assert (Hfind :
              find (fun l => areMappedLoop current (iter_domain l) vector_id)
                   (for_loops_ st) = Some loop)
      by (rewrite Hloops; now apply find_first).
    exists i. simpl. unfold handle_ViewAsScalar.
    unfold_monad. simpl. rewrite Hi. simpl. rewrite Hfind.
    push_step Hsc.
    eexists. split; [reflexivity|]. split; [reflexivity|].
    exists sc, l. now repeat split.
Qed.

Lemma view_as_scalar_index_witness :
  let vector_id := mkIterDomain (Int 4) Serial false false in
  exists i st',
    handle Examples.symbolicGrid
      (E_ViewAsScalar (TV Examples.tv1) (TV Examples.tv0) vector_id None)
      nestedState = (inr tt, st') /\
    emitsInto nestedState
      [E_ViewAsScalar
         (lowerDstIndex Examples.symbolicGrid nestedLoops (TV Examples.tv1))
         i vector_id (Some (NamedScalar "i"))]
      None st'.
Proof.
  intros vector_id.
  destruct (view_as_scalar_index Examples.symbolicGrid (TV Examples.tv1)
              (TV Examples.tv0) vector_id None nestedState) as [_ H].
  - discriminate.
  - reflexivity.
  - destruct (H [] (mkForLoop (mkIterDomain (Int 4) Serial false false)
                              (NamedScalar "i") false)
                (tl nestedLoops) eq_refl eq_refl eq_refl)
      as (i & st' & _ & Hrun & Hemit).
    exists i, st'. split; assumption.
Defined.

Lemma emitsInto_nothing (st : IndexLowering) :
  wellScoped st -> emitsInto st [] None st.
Proof.
  unfold wellScoped. intros Hwf. destruct st as [l p loops]. simpl in *.
  destruct (scope_at p l) as [sc|] eqn:Hsc; [|congruence].
  exists sc, l. simpl. rewrite app_nil_r.
  repeat split; [assumption | now apply replace_at_id].
Qed.

Lemma emitsInto_trans (st st1 st2 : IndexLowering) (e1 e2 : list Expr) :
  emitsInto st e1 None st1 ->
  emitsInto st1 e2 None st2 ->
  emitsInto st (e1 ++ e2) None st2.
Proof.
  intros (sc & l1 & Hsc & Hr & ->) (sc' & l2 & Hsc' & Hr' & ->).
  simpl in *.
  rewrite (replace_at_result _ _ _ _ Hr) in Hsc'. inversion Hsc'; subst sc'.
  rewrite (replace_replace _ _ _ _ _ Hr) in Hr'.
  exists sc, l2. rewrite app_assoc. now repeat split.
Qed.

Lemma emitsInto_wellScoped (st st' : IndexLowering) (e : list Expr) :
  emitsInto st e None st' -> wellScoped st'.
Proof.
  intros (sc & l1 & Hsc & Hr & ->). unfold wellScoped. simpl.
  rewrite (replace_at_result _ _ _ _ Hr). discriminate.
Qed.

Lemma countExprs_app (p : Expr -> bool) (a b : list Expr) :
  countExprs p (a ++ b) = (countExprs p a + countExprs p b)%nat.
Proof.
  unfold countExprs. induction a as [|x a IH]; simpl; [reflexivity|].
  rewrite IH. lia.
Qed.

(** X11.  Grid reductions lowered one after the other each take their own
    buffers: a sequence of [n] grid reductions that are not allreduces is
    lowered, in order, to [n] GridReduction nodes and [2n] allocations, a
    work buffer and a sync buffer for each, all appended to the active
    scope. *)
Theorem separate_grid_reductions (current : GpuLower)
    (rops : list ReductionOp) (st : IndexLowering) :
  Forall
    (fun rop =>
       exists tv,
         rop_out rop = TV tv /\
         rop_isAllreduce rop = false /\
         hasGridReduction (domain tv) = true /\
         existsb serialReductionAxis (domain tv) = false)
    rops ->
  wellScoped st ->
  exists emitted st',
    generate current (map E_ReductionOp rops) st = (inr tt, st') /\
    emitsInto st emitted None st' /\
    countExprs isAllocate emitted = (2 * List.length rops)%nat /\
    countExprs isGridReduction emitted = List.length rops.
Proof.
  intros Hall. revert st.
  induction Hall as [|rop rops (tv & Hout & Hnot & Hgrid & Hserial) _ IH];
    intros st Hwf.
  - exists [], st. repeat split. now apply emitsInto_nothing.
  - destruct (reduction_grid_run current rop tv st Hout Hgrid Hserial Hwf)
      as (size & inp & st1 & _ & Hrun & Hemit).
    cbv zeta in Hemit. rewrite Hnot in Hemit.
    destruct (IH st1 (emitsInto_wellScoped _ _ _ Hemit))
      as (emitted & st' & Hgen & Hemit' & Ha & Hg).
    eexists. exists st'.
    split; [|split; [exact (emitsInto_trans _ _ _ _ _ Hemit Hemit')|]].
    + change (generate current (map E_ReductionOp (rop :: rops)) st)
        with (bind (handle current (E_ReductionOp rop))
                   (fun _ => generate current (map E_ReductionOp rops)) st).
      unfold bind. rewrite Hrun. exact Hgen.
    + rewrite !countExprs_app, Ha, Hg. simpl. split; lia.
Qed.

Lemma separate_grid_reductions_witness :
  let rop :=
    Examples.sumInto
      (Examples.tvOf 5 (Examples.reductionDomain (NamedScalar "gdimx"))) in
  exists emitted st',
    generate Examples.symbolicGrid (map E_ReductionOp [rop; rop])
      nestedState = (inr tt, st') /\
    emitsInto nestedState emitted None st' /\
    countExprs isAllocate emitted = (2 * List.length [rop; rop])%nat /\
    countExprs isGridReduction emitted = List.length [rop; rop].
Proof.
  intros rop.
  apply (separate_grid_reductions Examples.symbolicGrid [rop; rop]
           nestedState).
  - repeat constructor;
      exists (Examples.tvOf 5
                (Examples.reductionDomain (NamedScalar "gdimx")));
      repeat split; reflexivity.
  - discriminate.
Defined.

#[local] Transparent getGridCommWorkBufferSize getGridSyncBufferSize
  getEntranceLinIndGridReduce getEntranceCountGridReduce is_within_a_loop
  hasGridReduction hasBlockReduction.

End EmissionProps.

(** ** The launch configuration of the pointwise heuristic *)

Module LaunchProps.
Import IR Pointwise SearchNotions PointwiseProps.

Lemma wrap64_small (z : Z) : - 2 ^ 63 <= z < 2 ^ 63 -> wrap64 z = z.
Proof.
  intros H. unfold wrap64. rewrite Z.mod_small; lia.
Qed.

Lemma wrap64_range (z : Z) : - 2 ^ 63 <= wrap64 z < 2 ^ 63.
Proof.
  unfold wrap64.
  pose proof (Z.mod_pos_bound (z + 2 ^ 63) (2 ^ 64) ltac:(lia)). lia.
Qed.

Lemma ceilDiv64_spec (a b : Z) :
  0 <= a -> 1 <= b -> a + b < 2 ^ 63 ->
  a <= ceilDiv64 a b * b /\
  (1 <= a -> 1 <= ceilDiv64 a b) /\
  ceilDiv64 a b * b < a + b.
Proof.
  intros Ha Hb Hsum. unfold ceilDiv64, sub64, add64.
  rewrite (wrap64_small (a + b)) by lia.
  rewrite (wrap64_small (a + b - 1)) by lia.
  rewrite Z.quot_div_nonneg by lia.
  pose proof (Z.div_mod (a + b - 1) b ltac:(lia)) as Hdm.
  pose proof (Z.mod_pos_bound (a + b - 1) b ltac:(lia)) as Hr.
  repeat split.
  - nia.
  - intros Ha1. apply Z.div_le_lower_bound; lia.
  - nia.
Qed.

Section Adoption.

Variable elem_counts : list Z.
Variable n_elems : Z.
Variable mapping_count : list Z.
Variable max_unroll_factor : Z.
Variable device_multiprocessor_count : Z.

Local Abbreviation step :=
  (searchStep elem_counts n_elems mapping_count max_unroll_factor
              device_multiprocessor_count).
Local Abbreviation ok :=
  (eligible elem_counts n_elems mapping_count max_unroll_factor).
Local Abbreviation adopted :=
  (adoptedState elem_counts n_elems mapping_count max_unroll_factor
                device_multiprocessor_count).

Lemma searchStep_adopts (st : SearchState) (i : nat) :
  step st i = st \/ (ok i = true /\ step st i = adopted i).
Proof.
  unfold searchStep, eligible, adoptedState.
  destruct (cur_right_elem_count elem_counts i <=? 1) eqn:E1;
    [now left|].
  destruct (cur_left_elem_count elem_counts n_elems i <=? 1) eqn:E2;
    [now left|].
  destruct (cur_transfer_size elem_counts mapping_count i
              >=? min_total_transfer st) eqn:E3; [now left|].
  destruct (mul64 (cur_transfer_size elem_counts mapping_count i) 10
              >=? mul64 (transfer_size_1d elem_counts mapping_count) 9)
    eqn:E4; [now left|].
  simpl.
  destruct (cur_right_elem_count elem_counts i <? max_unroll_factor) eqn:E5;
    [now left|].
  right. split; [|reflexivity].
  apply Z.leb_gt in E1, E2. rewrite Z.geb_leb in E4. apply Z.leb_gt in E4.
  apply Z.ltb_ge in E5.
  apply Z.ltb_lt in E1, E2, E4. apply Z.leb_le in E5.
  now rewrite E1, E2, E4, E5.
Qed.

Lemma searched_form (k : nat) :
  searched elem_counts n_elems mapping_count max_unroll_factor
           device_multiprocessor_count k = initialSearchState \/
  exists i,
    (i < k)%nat /\ ok i = true /\
    searched elem_counts n_elems mapping_count max_unroll_factor
             device_multiprocessor_count k = adopted i.
Proof.
  unfold searched. induction k as [|k IH]; [now left|].
  rewrite seq_fold_snoc.
  destruct (searchStep_adopts
              (fold_left step (seq 0 k) initialSearchState) k)
    as [Hsame | [Hok Hnew]].
  - rewrite Hsame. destruct IH as [IH | (i & Hi & Hok & IH)];
      [now left|].
    right. exists i. repeat split; try assumption. lia.
  - right. exists k. repeat split; try assumption. lia.
Qed.

End Adoption.

Lemma breakPointSearch_form (ec : list Z) (ne : Z) (mc : list Z)
    (muf sm : Z) :
  breakPointSearch ec ne mc muf sm = initialSearchState \/
  exists i,
    (i < List.length ec)%nat /\ eligible ec ne mc muf i = true /\
    breakPointSearch ec ne mc muf sm = adoptedState ec ne mc muf sm i.
Proof. apply searched_form. Qed.

(** The launch configuration of an adopted candidate, away from the limits
    of [int64_t]. *)
Lemma adopted_launch (ec : list Z) (ne : Z) (mc : list Z) (muf sm : Z)
    (i : nat) :
  eligible ec ne mc muf i = true ->
  1 <= muf ->
  - 2 ^ 63 <= ne < 2 ^ 63 ->
  cur_right_elem_count ec i + kThreadX * muf < 2 ^ 63 ->
  let s := adoptedState ec ne mc muf sm i in
  launchBounds s /\
  right_elem_count s <= gdimy s * bdimy s * bdimx s * muf /\
  cur_left_elem_count ec ne i <= gdimx s * bdimy s.
Proof.
  intros Hok Hmuf Hne Hov.
  destruct (eligible_inv _ _ _ _ _ Hok) as (Hr & Hl & _ & Hge).
  unfold adoptedState, launchBounds. cbv zeta. simpl.
  set (a := cur_right_elem_count ec i) in *.
  set (cl := cur_left_elem_count ec ne i) in *.
  unfold kThreadX in *.
  destruct (ceilDiv64_spec a muf ltac:(lia) Hmuf ltac:(lia))
    as (Hc1 & Hc2 & Hc3).
  specialize (Hc2 ltac:(lia)).
  set (c := ceilDiv64 a muf) in *.
  set (bx := Z.min c 128).
  assert (Hbx : 1 <= bx <= 128) by (unfold bx; lia).
  assert (Hq : 1 <= Z.quot 128 bx /\ bx * Z.quot 128 bx <= 128).
  { rewrite Z.quot_div_nonneg by lia. split.
    - apply Z.div_le_lower_bound; lia.
    - apply Z.mul_div_le. lia. }
  assert (Hcl : cl <= 2 ^ 62).
  { unfold cl, cur_left_elem_count. fold a.
    assert (0 <= ne) as Hne0.
    { destruct (Z_lt_le_dec ne 0) as [Hn|]; [|assumption].
      exfalso. unfold cl, cur_left_elem_count in Hl. fold a in Hl.
      pose proof (Z.quot_opp_l ne a ltac:(lia)) as Hopp.
      assert (0 <= Z.quot (- ne) a) by (apply Z.quot_pos; lia).
      lia. }
    rewrite Z.quot_div_nonneg by lia.
    apply Z.div_le_upper_bound; lia. }
  set (by_ := if cl >? sm then Z.quot 128 bx else 1).
  assert (Hby : 1 <= by_ /\ bx * by_ <= 128).
  { unfold by_. destruct (cl >? sm); lia. }
  assert (Hby128 : by_ <= 128) by nia.
  destruct (ceilDiv64_spec cl by_ ltac:(lia) ltac:(lia) ltac:(lia))
    as (Hg1 & Hg2 & _).
  specialize (Hg2 ltac:(lia)).
  assert (Hd1 : mul64 by_ bx = by_ * bx).
  { unfold mul64. apply wrap64_small. nia. }
  rewrite Hd1.
  assert (Hd2 : mul64 (by_ * bx) muf = by_ * bx * muf).
  { unfold mul64. apply wrap64_small. nia. }
  rewrite Hd2.
  set (d := by_ * bx * muf).
  assert (Hd : 1 <= d <= 128 * muf) by (unfold d; nia).
  destruct (ceilDiv64_spec a d ltac:(lia) ltac:(lia) ltac:(lia))
    as (Hrr1 & Hrr2 & _).
  specialize (Hrr2 ltac:(lia)).
  set (rr := ceilDiv64 a d) in *.
  assert (Hcover : a <= (if (rr >? 1) && (by_ <=? 1) then rr else 1) * d).
  { destruct (rr >? 1) eqn:Er; cbn [andb].
    - destruct (by_ <=? 1) eqn:Eb; [lia|].
      apply Z.leb_gt in Eb.
      assert (Hbx64 : bx < 128).
      { destruct (Z.eq_dec bx 128) as [E|]; [|lia]. rewrite E in Hby. lia. }
      assert (Hbc : bx = c) by (unfold bx in *; lia).
      assert (H0 : 0 <= bx * muf) by (apply Z.mul_nonneg_nonneg; lia).
      assert (H1 : 1 * (bx * muf) <= by_ * (bx * muf))
        by (apply Z.mul_le_mono_nonneg_r; lia).
      rewrite Hbc in H0, H1. unfold d. rewrite Hbc. lia.
    - assert (Hrr : rr <= 1)
        by (rewrite Z.gtb_ltb in Er; apply Z.ltb_ge in Er; lia).
      assert (H1 : rr * d <= 1 * d)
        by (apply Z.mul_le_mono_nonneg_r; lia).
      lia. }
  unfold d in Hcover.
  repeat split; lia.
Qed.

(** X12.  Away from the limits of [int64_t], the launch configuration the
    break-point search ends with is well formed and covers the problem: the
    block holds between 1 and 128 threads in x and at most 128 threads in
    all, the grid dimensions are at least 1, and, when a break point was
    adopted, the grid-y blocks times the threads of a block times the unroll
    factor reach the element count on the right of the break point, and the
    grid-x blocks times the block-y threads reach the count on its left. *)
Theorem launch_covers (ec : list Z) (ne : Z) (mc : list Z) (muf sm : Z) :
  let s := breakPointSearch ec ne mc muf sm in
  1 <= muf ->
  - 2 ^ 63 <= ne < 2 ^ 63 ->
  right_elem_count s + kThreadX * muf < 2 ^ 63 ->
  launchBounds s /\
  (0 < right_elem_count s ->
   right_elem_count s <= gdimy s * bdimy s * bdimx s * muf /\
   cur_left_elem_count ec ne (break_point s) <= gdimx s * bdimy s).
Proof.
  intros s Hmuf Hne Hov. subst s.
  destruct (breakPointSearch_form ec ne mc muf sm)
    as [Hinit | (i & Hi & Hok & Hs)].
  - rewrite Hinit. split.
    + unfold launchBounds. repeat split; vm_compute; discriminate.
    + cbn [right_elem_count initialSearchState]. lia.
  - rewrite Hs in *.
    change (right_elem_count (adoptedState ec ne mc muf sm i))
      with (cur_right_elem_count ec i) in Hov.
    destruct (adopted_launch ec ne mc muf sm i Hok Hmuf Hne Hov)
      as (Hb & Hr & Hl).
    split; [exact Hb|]. intros _. split; [exact Hr|exact Hl].
Qed.

Lemma launch_covers_witness :
  let s := breakPointSearch [100; 100; 100] 1000000 [1; 2; 3] 4 80 in
  launchBounds s /\
  (0 < right_elem_count s ->
   right_elem_count s <= gdimy s * bdimy s * bdimx s * 4 /\
   cur_left_elem_count [100; 100; 100] 1000000 (break_point s)
     <= gdimx s * bdimy s).
Proof.
  apply (launch_covers [100; 100; 100] 1000000 [1; 2; 3] 4 80).
  - lia.
  - split; [vm_compute; discriminate | vm_compute; reflexivity].
  - vm_compute. reflexivity.
Defined.

Lemma eligible_zero (ec mc : list Z) (muf : Z) :
  eligible ec (fold_left mul64 ec 1) mc muf 0 = false.
Proof.
  unfold eligible, cur_left_elem_count, cur_right_elem_count. simpl skipn.
  set (n := fold_left mul64 ec 1).
  destruct (1 <? n) eqn:E1; [|reflexivity].
  apply Z.ltb_lt in E1. rewrite Z.quot_same by lia. reflexivity.
Qed.

(** X13.  With the element count the heuristic computes (the product of
    the extents), the candidate break point 0 is never adopted: it leaves
    one element on the left.  So an adopted break point lies strictly
    inside the reference tensor, and a reference tensor of at most one
    dimension keeps the 1-D schedule: 128 threads in x, no block-y and no
    grid-y. *)
Theorem first_candidate_is_skipped (ec mc : list Z) (muf sm : Z) :
  let ne := fold_left mul64 ec 1 in
  let s := breakPointSearch ec ne mc muf sm in
  (forall st, searchStep ec ne mc muf sm st 0 = st) /\
  (0 < right_elem_count s -> (1 <= break_point s < List.length ec)%nat) /\
  ((List.length ec <= 1)%nat -> s = initialSearchState).
Proof.
  intros ne s. subst ne s.
  pose proof (eligible_zero ec mc muf) as Hz.
  split; [|split].
  - intros st.
    destruct (searchStep_adopts ec (fold_left mul64 ec 1) mc muf sm st 0)
      as [H | [H _]]; [exact H | congruence].
  - intros Hpos.
    destruct (breakPointSearch_form ec (fold_left mul64 ec 1) mc muf sm)
      as [Hinit | (i & Hi & Hok & Hs)].
    + rewrite Hinit in Hpos. simpl in Hpos. lia.
    + rewrite Hs.
      change (break_point
                (adoptedState ec (fold_left mul64 ec 1) mc muf sm i))
        with i.
      destruct i as [|i]; [congruence | lia].
  - intros Hlen.
    destruct (breakPointSearch_form ec (fold_left mul64 ec 1) mc muf sm)
      as [Hinit | (i & Hi & Hok & Hs)]; [exact Hinit|].
    assert (i = 0%nat) by lia. subst i. congruence.
Qed.

Lemma selectLargestOut_fold (l : list TensorView) :
  forall (o : option TensorView) (m : Z),
    let r :=
      fold_left
        (fun (acc : option TensorView * Z) out_tv =>
           if countedDims out_tv >? snd acc
           then (Some out_tv, countedDims out_tv) else acc)
        l (o, m) in
    (r = (o, m) /\ Forall (fun t => countedDims t <= m) l) \/
    (exists before tv after,
        l = before ++ tv :: after /\
        r = (Some tv, countedDims tv) /\
        m < countedDims tv /\
        Forall (fun t => countedDims t < countedDims tv) before /\
        Forall (fun t => countedDims t <= countedDims tv) after).
Proof.
  induction l as [|t l IH]; intros o m; cbv zeta.
  - left. split; [reflexivity | constructor].
  - simpl fold_left. cbn [snd].
    destruct (countedDims t >? m) eqn:E.
    + rewrite Z.gtb_ltb in E. apply Z.ltb_lt in E.
      destruct (IH (Some t) (countedDims t))
        as [[Hr Hall] | (b & tv & a & Hl & Hr & Hm & Hb & Ha)].
      * right. exists [], t, l. repeat split; try assumption. constructor.
      * right. exists (t :: b), tv, a. subst l.
        repeat split; try assumption; try lia.
        constructor; assumption.
    + rewrite Z.gtb_ltb in E. apply Z.ltb_ge in E.
      destruct (IH o m)
        as [[Hr Hall] | (b & tv & a & Hl & Hr & Hm & Hb & Ha)].
      * left. split; [assumption|]. constructor; assumption.
      * right. exists (t :: b), tv, a. subst l.
        repeat split; try assumption.
        constructor; [lia | assumption].
Qed.

Lemma countedDims_nonneg (tv : TensorView) : 0 <= countedDims tv.
Proof. unfold countedDims. lia. Qed.

Lemma selectLargestOut_spec (outs : list TensorView) :
  match selectLargestOut outs with
  | (None, n) => outs = [] /\ n = -1
  | (Some tv, n) =>
      n = countedDims tv /\
      exists before after,
        outs = before ++ tv :: after /\
        Forall (fun t => countedDims t < countedDims tv) before /\
        Forall (fun t => countedDims t <= countedDims tv) after
  end.
Proof.
  unfold selectLargestOut.
  destruct (selectLargestOut_fold outs None (-1))
    as [[Hr Hall] | (b & tv & a & Hl & Hr & Hm & Hb & Ha)];
    cbv zeta in Hr; unfold countedDims in Hr at 1 2; rewrite Hr.
  - split; [|reflexivity].
    destruct outs as [|t outs]; [reflexivity|].
    inversion Hall; subst. pose proof (countedDims_nonneg t). lia.
  - split; [reflexivity|]. exists b, a. repeat split; assumption.
Qed.

(** X14.  The reference output of the heuristic is the first output with
    the greatest number of root dimensions that are neither reductions nor
    broadcasts: every output before it has strictly fewer, every output
    after it has at most as many; and there is none exactly when the fusion
    has no output tensor. *)
Theorem largest_output_is_first_maximum (outs : list TensorView) :
  match selectLargestOut outs with
  | (None, n) => outs = [] /\ n = -1
  | (Some tv, n) =>
      n = countedDims tv /\
      exists before after,
        outs = before ++ tv :: after /\
        Forall (fun t => countedDims t < countedDims tv) before /\
        Forall (fun t => countedDims t <= countedDims tv) after
  end.
Proof. apply selectLargestOut_spec. Qed.

Lemma evaluateExtents_none (info : SchedulerRuntimeInfo)
    (root : list IterDomain) :
  evaluateExtents info root = None ->
  Exists (fun id => evaluate info (extent id) = None) root.
Proof.
  induction root as [|id r IH]; simpl; [discriminate|].
  destruct (evaluate info (extent id)) eqn:E.
  - destruct (evaluateExtents info r); [discriminate|].
    intros _. apply Exists_cons_tl. now apply IH.
  - intros _. now apply Exists_cons_hd.
Qed.

(** X15.  The heuristic fails in two ways only: the fusion has no output
    tensor, or an extent of the reference output cannot be evaluated.  The
    two assertions after the break-point search never fire.  When it
    succeeds, the fusion has an output, and the parameters are the default
    ones or carry the tag of the heuristic. *)
Theorem heuristics_failure_modes (fusion : Fusion)
    (info : SchedulerRuntimeInfo) :
  match getPointwiseHeuristics fusion info with
  | inl msg =>
      (outputs fusion = [] /\ msg = "largest_out != nullptr"%string) \/
      (exists largest_out,
          fst (selectLargestOut (outputs fusion)) = Some largest_out /\
          Exists (fun id => evaluate info (extent id) = None)
                 (getMaybeRFactorDomain largest_out) /\
          msg = "Error inferring size for pointwise scheduler."%string)
  | inr params =>
      outputs fusion <> [] /\
      (params = defaultPointwiseParams \/
       tag params = "Pointwise heuristics"%string)
  end.
Proof.
  unfold getPointwiseHeuristics.
  pose proof (selectLargestOut_spec (outputs fusion)) as Hsel.
  destruct (selectLargestOut (outputs fusion)) as [[largest|] n]; cbn [fst].
  2:{ left. destruct Hsel as [He _]. now split. }
  destruct Hsel as (_ & b & a & Hl & _).
  assert (Hne : outputs fusion <> [])
    by (rewrite Hl; intros E; symmetry in E;
        now apply app_cons_not_nil in E).
  destruct (List.length (nonReductionNonBroadcast (domain largest)) =? 0)%nat.
  { split; [assumption | now left]. }
  destruct (evaluateExtents info (getMaybeRFactorDomain largest))
    as [ec|] eqn:Eev.
  2:{ right. exists largest. repeat split.
      now apply evaluateExtents_none. }
  cbv zeta.
  set (s := breakPointSearch ec (fold_left mul64 ec 1)
              (mappedInputsOutputs info largest)
              (maxUnrollFactor fusion info (fold_left mul64 ec 1))
              (multiProcessorCount info)).
  replace (negb ((right_elem_count s >? 0) ||
                 (params_break_point defaultPointwiseParams =? 0)%nat))
    with false by (simpl; now rewrite orb_true_r).
  cbv iota.
  destruct (breakPointSearch_invariant ec (fold_left mul64 ec 1)
              (mappedInputsOutputs info largest)
              (maxUnrollFactor fusion info (fold_left mul64 ec 1))
              (multiProcessorCount info)) as [Hex _].
  fold s in Hex.
  destruct ((bdimy s >? 1) && (gdimy s >? 1)) eqn:Eb.
  { exfalso. apply Hex. apply andb_prop in Eb. destruct Eb as [E1 E2].
    rewrite Z.gtb_ltb in E1, E2. apply Z.ltb_lt in E1, E2. lia. }
  split; [assumption | now right].
Qed.

Lemma fold_min_le {A : Type} (g : A -> Z) (l : list A) :
  forall x,
    fold_left (fun f tv => Z.min f (g tv)) l x <= x /\
    Forall (fun tv => fold_left (fun f tv => Z.min f (g tv)) l x <= g tv) l.
Proof.
  induction l as [|a l IH]; intros x; simpl.
  - split; [lia | constructor].
  - destruct (IH (Z.min x (g a))) as [H1 H2]. split; [lia|].
    constructor; [lia | assumption].
Qed.

Lemma fold_min_ge {A : Type} (g : A -> Z) (lo : Z) (l : list A) :
  Forall (fun tv => lo <= g tv) l ->
  forall x, lo <= x -> lo <= fold_left (fun f tv => Z.min f (g tv)) l x.
Proof.
  induction 1 as [|a l Ha _ IH]; intros x Hx; simpl; [assumption|].
  apply IH. lia.
Qed.

(** X16.  When the heuristic decides to vectorize, the inner factor is not
    1 and does not exceed the vectorizable width of any of the inputs and
    outputs that are to be vectorized. *)
Theorem vectorization_respects_widths (fusion : Fusion)
    (info : SchedulerRuntimeInfo) (params : PointwiseParams)
    (largest_out : TensorView) :
  getPointwiseHeuristics fusion info = inr params ->
  fst (selectLargestOut (outputs fusion)) = Some largest_out ->
  Forall (fun tv => 0 <= getVectorizableWidth info tv < 2 ^ 63)
         (getVectorizableInputsOutputs info largest_out) ->
  vectorize params = true ->
  inner_factor params <> 1 /\
  Forall (fun tv => inner_factor params <= getVectorizableWidth info tv)
         (getVectorizableInputsOutputs info largest_out).
Proof.
  unfold getPointwiseHeuristics. intros Hrun Hsel Hw Hvec.
  rewrite Hsel in Hrun.
  destruct (List.length (nonReductionNonBroadcast (domain largest_out))
            =? 0)%nat.
  { inversion Hrun; subst. discriminate. }
  destruct (evaluateExtents info (getMaybeRFactorDomain largest_out))
    as [ec|]; [|discriminate].
  cbv zeta in Hrun.
  set (muf := maxUnrollFactor fusion info (fold_left mul64 ec 1)) in *.
  set (vf := fold_left (fun f tv => Z.min f (getVectorizableWidth info tv))
               (getVectorizableInputsOutputs info largest_out)
               (muf mod 2 ^ 64)) in *.
  destruct (negb _) in Hrun; [discriminate|].
  destruct (_ && _) in Hrun; [discriminate|].
  inversion Hrun; subst params; clear Hrun. cbn [vectorize inner_factor] in *.
  destruct (vf =? 1) eqn:E1; [discriminate|]. apply Z.eqb_neq in E1.
  pose proof (Z.mod_pos_bound muf (2 ^ 64) ltac:(lia)) as Hm.
  destruct (fold_min_le (getVectorizableWidth info)
              (getVectorizableInputsOutputs info largest_out)
              (muf mod 2 ^ 64)) as [Hle Hall].
  fold vf in Hle, Hall.
  assert (H0 : 0 <= vf).
  { unfold vf. apply fold_min_ge; [|lia].
    eapply Forall_impl; [|exact Hw]. simpl. intros; lia. }
  split.
  - unfold wrap64.
    destruct (Z_lt_le_dec vf (2 ^ 63)) as [Hs | Hb].
    + rewrite Z.mod_small by lia. lia.
    + replace (vf + 2 ^ 63) with ((vf - 2 ^ 63) + 1 * 2 ^ 64) by lia.
      rewrite Z.mod_add by lia. rewrite Z.mod_small by lia. lia.
  - rewrite Forall_forall in *. intros tv Hin.
    specialize (Hall tv Hin). specialize (Hw tv Hin). simpl in Hw.
    rewrite wrap64_small by lia. exact Hall.
Qed.

Lemma vectorization_respects_widths_witness :
  let info :=
    mkRuntimeInfo (fun s => Some (eval (fun _ => 100) s)) (fun _ => 4) 8
      false (dataTypeSize Examples.pointwiseInfo) (fun tv => [tv])
      (fun _ => [2; 3]) in
  exists params,
    getPointwiseHeuristics Examples.pointwiseFusion info = inr params /\
    inner_factor params <> 1 /\
    Forall (fun tv => inner_factor params <= getVectorizableWidth info tv)
           (getVectorizableInputsOutputs info Examples.pointwiseOut).
Proof.
  intros info. eexists. split; [vm_compute; reflexivity|].
  apply (vectorization_respects_widths Examples.pointwiseFusion info _
           Examples.pointwiseOut).
  - vm_compute. reflexivity.
  - reflexivity.
  - repeat constructor; vm_compute; discriminate.
  - reflexivity.
Defined.

(** X17.  For a stochastic fusion with unrolling of random number
    generation disabled, the heuristic neither unrolls nor vectorizes: the
    inner factor is 1, provided the vectorizable widths are at least 1. *)
Theorem rng_disables_unrolling (fusion : Fusion)
    (info : SchedulerRuntimeInfo) (params : PointwiseParams) :
  isStochastic fusion = true ->
  disableRNGUnrolling info = true ->
  (forall tv, 1 <= getVectorizableWidth info tv) ->
  getPointwiseHeuristics fusion info = inr params ->
  vectorize params = false /\ inner_factor params = 1.
Proof.
  unfold getPointwiseHeuristics. intros Hst Hrng Hw Hrun.
  destruct (fst (selectLargestOut (outputs fusion))) as [largest|];
    [|discriminate].
  destruct (List.length (nonReductionNonBroadcast (domain largest)) =? 0)%nat.
  { inversion Hrun; subst. split; reflexivity. }
  destruct (evaluateExtents info (getMaybeRFactorDomain largest))
    as [ec|]; [|discriminate].
  cbv zeta in Hrun.
  assert (Hmuf : maxUnrollFactor fusion info (fold_left mul64 ec 1) = 1).
  { unfold maxUnrollFactor. cbv zeta. now rewrite Hst, Hrng. }
  rewrite Hmuf in Hrun.
  assert (Hvf :
            fold_left (fun f tv => Z.min f (getVectorizableWidth info tv))
              (getVectorizableInputsOutputs info largest) (1 mod 2 ^ 64)
            = 1).
  { change (1 mod 2 ^ 64) with 1.
    destruct (fold_min_le (getVectorizableWidth info)
                (getVectorizableInputsOutputs info largest) 1) as [Hle _].
    pose proof (fold_min_ge (getVectorizableWidth info) 1
                  (getVectorizableInputsOutputs info largest)) as Hge.
    specialize (Hge ltac:(apply Forall_forall; intros; apply Hw) 1
                    ltac:(lia)).
    lia. }
  rewrite Hvf in Hrun.
  destruct (negb _) in Hrun; [discriminate|].
  destruct (_ && _) in Hrun; [discriminate|].
  inversion Hrun; subst params. split; reflexivity.
Qed.

Lemma rng_disables_unrolling_witness :
  let fusion :=
    mkFusion (inputs Examples.pointwiseFusion)
             (outputs Examples.pointwiseFusion) true in
  let info :=
    mkRuntimeInfo (fun s => Some (eval (fun _ => 100) s)) (fun _ => 4) 8
      true (dataTypeSize Examples.pointwiseInfo) (fun tv => [tv])
      (fun _ => [2; 3]) in
  exists params,
    getPointwiseHeuristics fusion info = inr params /\
    vectorize params = false /\ inner_factor params = 1.
Proof.
  intros fusion info. eexists. split; [vm_compute; reflexivity|].
  apply (rng_disables_unrolling fusion info).
  - reflexivity.
  - reflexivity.
  - intros tv. simpl. lia.
  - vm_compute. reflexivity.
Defined.

Lemma shiftr_bound (a n : Z) :
  0 <= a -> 0 <= n -> 0 <= Z.shiftr a n <= a.
Proof.
  intros Ha Hn. rewrite Z.shiftr_div_pow2 by assumption.
  assert (0 < 2 ^ n) by (apply Z.pow_pos_nonneg; lia).
  split.
  - apply Z.div_pos; lia.
  - apply Z.div_le_upper_bound; [lia | nia].
Qed.

Lemma lor_bound (k a b : Z) :
  0 < k -> 0 <= a < 2 ^ k -> 0 <= b < 2 ^ k -> 0 <= Z.lor a b < 2 ^ k.
Proof.
  intros Hk Ha Hb.
  assert (H0 : 0 <= Z.lor a b) by (apply Z.lor_nonneg; lia).
  split; [assumption|].
  destruct (Z.eq_dec (Z.lor a b) 0) as [E | E].
  - rewrite E. apply Z.pow_pos_nonneg; lia.
  - apply Z.log2_lt_pow2; [lia|].
    rewrite Z.log2_lor by lia.
    apply Z.max_lub_lt.
    + destruct (Z.eq_dec a 0) as [-> | Ea]; [simpl; lia|].
      apply Z.log2_lt_pow2; lia.
    + destruct (Z.eq_dec b 0) as [-> | Eb]; [simpl; lia|].
      apply Z.log2_lt_pow2; lia.
Qed.

Lemma lor_shiftr_bound (k a n : Z) :
  0 < k -> 0 <= n -> 0 <= a < 2 ^ k ->
  0 <= Z.lor a (Z.shiftr a n) < 2 ^ k.
Proof.
  intros Hk Hn Ha. pose proof (shiftr_bound a n ltac:(lia) Hn).
  apply lor_bound; lia.
Qed.

Lemma lastPow2_bound (n : Z) :
  0 <= n < 2 ^ 62 -> 1 <= lastPow2 n < 2 ^ 62.
Proof.
  intros Hn. unfold lastPow2. cbv zeta.
  pose proof (lor_shiftr_bound 62 n 1 ltac:(lia) ltac:(lia) Hn) as H1.
  set (n1 := Z.lor n (Z.shiftr n 1)) in *.
  pose proof (lor_shiftr_bound 62 n1 2 ltac:(lia) ltac:(lia) H1) as H2.
  set (n2 := Z.lor n1 (Z.shiftr n1 2)) in *.
  pose proof (lor_shiftr_bound 62 n2 4 ltac:(lia) ltac:(lia) H2) as H3.
  set (n3 := Z.lor n2 (Z.shiftr n2 4)) in *.
  pose proof (lor_shiftr_bound 62 n3 8 ltac:(lia) ltac:(lia) H3) as H4.
  set (n4 := Z.lor n3 (Z.shiftr n3 8)) in *.
  pose proof (lor_shiftr_bound 62 n4 16 ltac:(lia) ltac:(lia) H4) as H5.
  set (n5 := Z.lor n4 (Z.shiftr n4 16)) in *.
  pose proof (lor_shiftr_bound 62 n5 32 ltac:(lia) ltac:(lia) H5) as H6.
  set (n6 := Z.lor n5 (Z.shiftr n5 32)) in *.
  pose proof (shiftr_bound n6 1 ltac:(lia) ltac:(lia)).
  lia.
Qed.

Lemma fold_max_dtype (g : TensorView -> Z) (hi : Z) (l : list TensorView) :
  Forall (fun inp => g inp <= hi) l ->
  forall x, 2 <= x <= hi ->
    2 <= fold_left (fun m inp => Z.max m (g inp)) l x <= hi.
Proof.
  induction 1 as [|a l Ha _ IH]; intros x Hx; simpl; [assumption|].
  apply IH. lia.
Qed.

Lemma maxUnrollFactor_bounds (fusion : Fusion) (info : SchedulerRuntimeInfo)
    (n_elems : Z) :
  Forall (fun inp => dataTypeSize info (tv_dtype inp) <= 16)
         (inputs fusion) ->
  Z.of_nat (List.length (inputs fusion)) +
  Z.of_nat (List.length (outputs fusion)) < 2 ^ 62 ->
  1 <= n_elems ->
  1 <= multiProcessorCount info < 2 ^ 54 ->
  1 <= maxUnrollFactor fusion info n_elems <= 8.
Proof.
  intros Hdt Hn Hne Hsm. unfold maxUnrollFactor. cbv zeta.
  destruct (isStochastic fusion && disableRNGUnrolling info); [lia|].
  pose proof (fold_max_dtype (fun inp => dataTypeSize info (tv_dtype inp))
                16 (inputs fusion) Hdt 2 ltac:(lia)) as Hm.
  cbv beta in Hm.
  set (m := fold_left _ (inputs fusion) 2) in *.
  pose proof (lastPow2_bound
                (Z.of_nat (List.length (inputs fusion)) +
                 Z.of_nat (List.length (outputs fusion))) ltac:(lia)) as Hp.
  set (lp := lastPow2 _) in *.
  pose proof (shiftr_bound lp 2 ltac:(lia) ltac:(lia)) as Hsh.
  set (d := Z.max (Z.shiftr lp 2) 1).
  assert (Hd : 1 <= d < 2 ^ 62) by (unfold d; lia).
  assert (Hx : 1 <= Z.quot 16 m <= 8).
  { rewrite Z.quot_div_nonneg by lia. split.
    - apply Z.div_le_lower_bound; lia.
    - apply Z.div_le_upper_bound; lia. }
  set (x := Z.quot 16 m) in *.
  destruct (ceilDiv64_spec x d ltac:(lia) ltac:(lia) ltac:(lia))
    as (_ & Hc1 & Hc2).
  specialize (Hc1 ltac:(lia)).
  set (c := ceilDiv64 x d) in *.
  assert (Hc : 1 <= c <= 8) by nia.
  assert (Hw : mul64 (multiProcessorCount info) kThreadX
               = multiProcessorCount info * 128).
  { unfold mul64, kThreadX. apply wrap64_small. lia. }
  rewrite Hw.
  destruct ((n_elems <? multiProcessorCount info * 128) && (c >? 1)) eqn:E;
    [|assumption].
  apply andb_prop in E. destruct E as [E _]. apply Z.ltb_lt in E.
  destruct (ceilDiv64_spec n_elems (multiProcessorCount info * 128)
              ltac:(lia) ltac:(lia) ltac:(lia)) as (_ & Hw1 & _).
  specialize (Hw1 Hne). lia.
Qed.

(** X18.  Away from the limits of [int64_t], the unroll factor of the
    heuristic lies between 1 and 8: when no input element is wider than 16
    bytes, the problem has at least one element and the device at least one
    multiprocessor. *)
Theorem unroll_factor_bounds (fusion : Fusion) (info : SchedulerRuntimeInfo)
    (n_elems : Z) :
  Forall (fun inp => dataTypeSize info (tv_dtype inp) <= 16)
         (inputs fusion) ->
  Z.of_nat (List.length (inputs fusion)) +
  Z.of_nat (List.length (outputs fusion)) < 2 ^ 62 ->
  1 <= n_elems ->
  1 <= multiProcessorCount info < 2 ^ 54 ->
  1 <= maxUnrollFactor fusion info n_elems <= 8.
Proof. apply maxUnrollFactor_bounds. Qed.

Lemma unroll_factor_bounds_witness :
  1 <= maxUnrollFactor Examples.pointwiseFusion Examples.pointwiseInfo 10000
    <= 8.
Proof.
  apply (unroll_factor_bounds Examples.pointwiseFusion
           Examples.pointwiseInfo 10000).
  - repeat constructor; vm_compute; discriminate.
  - vm_compute. reflexivity.
  - lia.
  - split; [vm_compute; discriminate | vm_compute; reflexivity].
Defined.

Lemma max_element_repeat (c : Z) (k : nat) :
  (0 < k)%nat -> max_element (repeat c k) = c.
Proof.
  destruct k as [|k]; [lia|]. intros _. simpl.
  induction k as [|k IH]; simpl; [reflexivity|].
  now rewrite Z.max_id.
Qed.

Lemma firstn_repeat_min {A : Type} (c : A) (n : nat) :
  forall i, firstn i (repeat c n) = repeat c (Nat.min i n).
Proof.
  induction n as [|n IH]; intros [|i]; simpl; try reflexivity.
  now rewrite IH.
Qed.

Lemma skipn_repeat_sub {A : Type} (c : A) (n : nat) :
  forall i, skipn i (repeat c n) = repeat c (n - i).
Proof.
  induction n as [|n IH]; intros [|i]; simpl; try reflexivity.
  now rewrite IH.
Qed.

Lemma uniform_cost (ec : list Z) (c : Z) (i : nat) :
  (i < List.length ec)%nat ->
  cur_transfer_size ec (repeat c (List.length ec)) i =
  transfer_size_1d ec (repeat c (List.length ec)).
Proof.
  intros Hi. unfold cur_transfer_size, transfer_size_1d. cbv zeta.
  rewrite firstn_repeat_min, skipn_repeat_sub.
  rewrite (max_element_repeat c (List.length ec - i)) by lia.
  rewrite (max_element_repeat c (List.length ec)) by lia.
  destruct i as [|i].
  - reflexivity.
  - rewrite (max_element_repeat c (Nat.min (S i) (List.length ec))) by lia.
    rewrite <- fold_left_app. now rewrite firstn_skipn.
Qed.

(** X19.  Without broadcasting, that is, when every dimension of the
    reference tensor is mapped by the same number of tensors, no break
    point is adopted and the schedule stays 1-D, as long as ten times the
    1-D transfer estimate fits [int64_t]. *)
Theorem uniform_mapping_stays_1d (ec : list Z) (ne c muf sm : Z) :
  let mc := repeat c (List.length ec) in
  0 <= transfer_size_1d ec mc ->
  transfer_size_1d ec mc * 10 < 2 ^ 63 ->
  breakPointSearch ec ne mc muf sm = initialSearchState.
Proof.
  intros mc H0 Hov. subst mc.
  destruct (breakPointSearch_form ec ne (repeat c (List.length ec)) muf sm)
    as [Hinit | (i & Hi & Hok & _)]; [exact Hinit|].
  exfalso.
  destruct (eligible_inv _ _ _ _ _ Hok) as (_ & _ & Hlt & _).
  rewrite (uniform_cost ec c i Hi) in Hlt.
  unfold mul64 in Hlt.
  rewrite !wrap64_small in Hlt by lia. lia.
Qed.

Lemma uniform_mapping_stays_1d_witness :
  breakPointSearch [100; 100] 10000 (repeat 3 (List.length [100; 100])) 4 8
    = initialSearchState.
Proof.
  apply (uniform_mapping_stays_1d [100; 100] 10000 3 4 8).
  - vm_compute. discriminate.
  - vm_compute. reflexivity.
Defined.

Lemma fold_left_mul64_prod (l : list Z) :
  Forall (fun e => 1 <= e) l ->
  forall x,
    1 <= x ->
    x * fold_right Z.mul 1 l < 2 ^ 63 ->
    fold_left mul64 l x = x * fold_right Z.mul 1 l /\
    1 <= fold_right Z.mul 1 l.
Proof.
  induction 1 as [|a l Ha Hl IH]; intros x Hx Hov; simpl in *.
  - split; lia.
  - assert (Hp : 1 <= fold_right Z.mul 1 l).
    { clear - Hl. induction Hl; simpl; nia. }
    assert (Hxa : mul64 x a = x * a).
    { unfold mul64. apply wrap64_small. nia. }
    rewrite Hxa.
    destruct (IH (x * a) ltac:(nia) ltac:(nia)) as [IH1 _].
    rewrite IH1. split; nia.
Qed.

Lemma Forall_skipn_all {A : Type} (P : A -> Prop) (l : list A) :
  Forall P l -> forall i, Forall P (skipn i l).
Proof.
  induction 1 as [|a l Ha Hl IH]; intros [|i]; simpl;
    try constructor; auto.
Qed.

Lemma prod_skipn_le (l : list Z) :
  Forall (fun e => 1 <= e) l ->
  forall i,
    1 <= fold_right Z.mul 1 (skipn i l) <= fold_right Z.mul 1 l.
Proof.
  induction 1 as [|a l Ha Hl IH]; intros [|i]; simpl; try lia.
  - assert (1 <= fold_right Z.mul 1 l)
      by (clear - Hl; induction Hl; simpl; nia).
    nia.
  - specialize (IH i). nia.
Qed.

(** X20.  The launch parameters the heuristic hands out respect the limits
    of a thread block: for extents that are at least 1 and whose product
    stays below [2^62], parameters other than the default ones bind the x
    dimension of the block to between 1 and 128 threads, bind the y
    dimension exactly when the block is split, to at least 2 threads and
    at most 128 threads for the whole block, and have a break point no
    greater than the rank of the reference tensor. *)
Theorem heuristic_block_within_limits (fusion : Fusion)
    (info : SchedulerRuntimeInfo) (params : PointwiseParams)
    (largest_out : TensorView) (ec : list Z) :
  fst (selectLargestOut (outputs fusion)) = Some largest_out ->
  evaluateExtents info (getMaybeRFactorDomain largest_out) = Some ec ->
  Forall (fun e => 1 <= e) ec ->
  fold_right Z.mul 1 ec < 2 ^ 62 ->
  Forall (fun inp => dataTypeSize info (tv_dtype inp) <= 16)
         (inputs fusion) ->
  Z.of_nat (List.length (inputs fusion)) +
  Z.of_nat (List.length (outputs fusion)) < 2 ^ 62 ->
  1 <= multiProcessorCount info < 2 ^ 54 ->
  getPointwiseHeuristics fusion info = inr params ->
  params = defaultPointwiseParams \/
  (exists bx,
      lp_bdimx (lparams params) = Some bx /\
      1 <= bx <= kThreadX /\
      match lp_bdimy (lparams params) with
      | Some by_ =>
          split_block params = true /\ 2 <= by_ /\ bx * by_ <= kThreadX
      | None => split_block params = false
      end /\
      (params_break_point params <= List.length ec)%nat).
Proof.
  intros Hsel Hev Hpos Hprod Hdt Hn Hsm Hrun.
  unfold getPointwiseHeuristics in Hrun. rewrite Hsel in Hrun.
  destruct (List.length (nonReductionNonBroadcast (domain largest_out))
            =? 0)%nat.
  { left. now inversion Hrun. }
  rewrite Hev in Hrun. cbv zeta in Hrun.
  destruct (fold_left_mul64_prod ec Hpos 1 ltac:(lia) ltac:(lia))
    as [Hne Hp1].
  rewrite Z.mul_1_l in Hne.
  set (ne := fold_left mul64 ec 1) in *.
  pose proof (maxUnrollFactor_bounds fusion info ne Hdt Hn ltac:(lia) Hsm)
    as Hmuf.
  set (muf := maxUnrollFactor fusion info ne) in *.
  set (s := breakPointSearch ec ne (mappedInputsOutputs info largest_out)
              muf (multiProcessorCount info)) in *.
  destruct (negb _) in Hrun; [discriminate|].
  destruct (_ && _) in Hrun; [discriminate|].
  inversion Hrun; subst params; clear Hrun. right.
  cbn [lparams lp_bdimx lp_bdimy split_block params_break_point].
  assert (Hs : launchBounds s /\ (break_point s <= List.length ec)%nat).
  { destruct (breakPointSearch_form ec ne
                (mappedInputsOutputs info largest_out) muf
                (multiProcessorCount info))
      as [Hinit | (i & Hi & Hok & Hform)]; fold s in Hinit || fold s in Hform.
    - rewrite Hinit. split.
      + unfold launchBounds. repeat split; vm_compute; discriminate.
      + simpl. lia.
    - rewrite Hform.
      assert (Hr : cur_right_elem_count ec i
                   = fold_right Z.mul 1 (skipn i ec)).
      { unfold cur_right_elem_count.
        pose proof (prod_skipn_le ec Hpos i) as Hle.
        destruct (fold_left_mul64_prod (skipn i ec)
                    (Forall_skipn_all _ ec Hpos i)
                    1 ltac:(lia) ltac:(lia)) as [Hq _].
        rewrite Hq. lia. }
      pose proof (prod_skipn_le ec Hpos i) as Hle.
      destruct (adopted_launch ec ne (mappedInputsOutputs info largest_out)
                  muf (multiProcessorCount info) i Hok ltac:(lia)
                  ltac:(lia)
                  ltac:(rewrite Hr; unfold kThreadX; lia))
        as (Hb & _ & _).
      split; [exact Hb|]. simpl. lia. }
  destruct Hs as [(Hbx & Hby & Hblock & _ & _) Hbp].
  exists (bdimx s). split; [reflexivity|]. split; [exact Hbx|].
  split; [|exact Hbp].
  destruct (bdimy s >? 1) eqn:E.
  - rewrite Z.gtb_ltb in E. apply Z.ltb_lt in E.
    split; [reflexivity|]. split; [lia | exact Hblock].
  - reflexivity.
Qed.

Lemma heuristic_block_within_limits_witness :
  exists params bx,
    getPointwiseHeuristics Examples.pointwiseFusion Examples.pointwiseInfo
      = inr params /\
    lp_bdimx (lparams params) = Some bx /\
    1 <= bx <= kThreadX.
Proof.
  destruct (heuristic_block_within_limits Examples.pointwiseFusion
              Examples.pointwiseInfo
              (mkPointwiseParams "Pointwise heuristics" false 1 false false 1
                 (mkLaunchParams (Some 100) None))
              Examples.pointwiseOut [100; 100])
    as [Hdef | (bx & Hbx & Hrange & _)].
  - reflexivity.
  - reflexivity.
  - repeat constructor; vm_compute; discriminate.
  - vm_compute. reflexivity.
  - repeat constructor; vm_compute; discriminate.
  - vm_compute. reflexivity.
  - split; [vm_compute; discriminate | vm_compute; reflexivity].
  - vm_compute. reflexivity.
  - discriminate.
  - eexists. exists bx. split; [vm_compute; reflexivity|].
    split; assumption.
Defined.

End LaunchProps.

(** ** Parts of the pointwise scheduler: reference tensor and clean-up *)

Module ScheduleProps.
Import IR Schedule.

Lemma ParallelType_eqb_eq (a b : ParallelType) :
  ParallelType_eqb a b = true <-> a = b.
Proof. destruct a, b; simpl; split; intros H; congruence. Qed.

Lemma ParallelType_eqb_neq (a b : ParallelType) :
  ParallelType_eqb a b = false <-> a <> b.
Proof. destruct a, b; simpl; split; intros H; congruence. Qed.

Lemma find_split {A : Type} (p : A -> bool) (l : list A) :
  match find p l with
  | Some x =>
      exists before after,
        l = before ++ x :: after /\ p x = true /\
        Forall (fun y => p y = false) before
  | None => Forall (fun y => p y = false) l
  end.
Proof.
  induction l as [|a l IH]; simpl; [constructor|].
  destruct (p a) eqn:E.
  - exists [], l. repeat split; [assumption | constructor].
  - destruct (find p l) as [x|].
    + destruct IH as (b & c & Hl & Hx & Hb).
      exists (a :: b), c. subst l. repeat split; try assumption.
      constructor; assumption.
    + constructor; assumption.
Qed.

Lemma fold_max_spec {A : Type} (g : A -> nat) (l : list A) :
  forall x,
    let r := fold_left (fun m t => Nat.max (g t) m) l x in
    (x <= r)%nat /\
    Forall (fun t => (g t <= r)%nat) l /\
    (r = x \/ exists t, In t l /\ g t = r).
Proof.
  induction l as [|a l IH]; intros x; cbv zeta; simpl.
  - repeat split; [lia | constructor | now left].
  - destruct (IH (Nat.max (g a) x)) as (H1 & H2 & H3). cbv zeta in *.
    set (r := fold_left (fun m t => Nat.max (g t) m) l (Nat.max (g a) x))
      in *.
    repeat split.
    + lia.
    + constructor; [lia | assumption].
    + destruct H3 as [H3 | (t & Ht & Hg)].
      * destruct (Nat.max_spec (g a) x) as [[_ Hm] | [_ Hm]].
        -- left. lia.
        -- right. exists a. split; [now left | lia].
      * right. exists t. split; [now right | assumption].
Qed.

Lemma maxRootDims_spec (inputs outputs : list FusionTv) :
  let all := filter hasUses inputs ++ outputs in
  Forall (fun t => (nRootDims (tensor t) <= maxRootDims inputs outputs)%nat)
         all /\
  (maxRootDims inputs outputs = 0%nat \/
   exists t, In t all /\ nRootDims (tensor t) = maxRootDims inputs outputs).
Proof.
  cbv zeta. unfold maxRootDims. cbv zeta. rewrite <- fold_left_app.
  destruct (fold_max_spec (fun t => nRootDims (tensor t))
              (filter hasUses inputs ++ outputs) 0%nat) as (_ & H2 & H3).
  split; assumption.
Qed.

Lemma reference_spec (inputs outputs : list FusionTv) :
  let all := filter hasUses inputs ++ outputs in
  match selectReference inputs outputs with
  | inr AllZeroDim =>
      Forall (fun t => nRootDims (tensor t) = 0%nat) all
  | inr (ReferenceTv r) =>
      hasDefinition r = true /\
      (0 < nRootDims (tensor r))%nat /\
      Forall (fun t => (nRootDims (tensor t) <= nRootDims (tensor r))%nat)
             all /\
      exists before after,
        outputs = before ++ r :: after /\
        Forall
          (fun t => hasDefinition t = false \/
                    (nRootDims (tensor t) < nRootDims (tensor r))%nat)
          before
  | inl _ =>
      exists t,
        In t all /\ (0 < nRootDims (tensor t))%nat /\
        Forall
          (fun o => hasDefinition o = false \/
                    (nRootDims (tensor o) < nRootDims (tensor t))%nat)
          outputs
  end.
Proof.
  cbv zeta. unfold selectReference. cbv zeta.
  destruct (maxRootDims_spec inputs outputs) as [Hall Hmax].
  cbv zeta in Hall, Hmax.
  set (m := maxRootDims inputs outputs) in *.
  destruct (m =? 0)%nat eqn:E0.
  - apply Nat.eqb_eq in E0.
    eapply Forall_impl; [|exact Hall]. simpl. intros; lia.
  - apply Nat.eqb_neq in E0.
    destruct Hmax as [Hmax | (w & Hw & Hwm)]; [contradiction|].
    pose proof (find_split
                  (fun out => hasDefinition out &&
                              (nRootDims (tensor out) =? m)%nat)
                  outputs) as Hfind.
    destruct (find _ outputs) as [r|].
    + destruct Hfind as (b & a & Hl & Hr & Hb).
      apply andb_prop in Hr. destruct Hr as [Hd Hn].
      apply Nat.eqb_eq in Hn.
      split; [assumption|]. split; [lia|]. split.
      * rewrite Hn. exact Hall.
      * exists b, a. split; [assumption|].
        assert (Hbm : Forall (fun t => (nRootDims (tensor t) <= m)%nat) b).
        { apply Forall_app in Hall. destruct Hall as [_ Hout].
          rewrite Hl in Hout. apply Forall_app in Hout. tauto. }
        rewrite Forall_forall in *. intros t Ht.
        specialize (Hb t Ht). specialize (Hbm t Ht). simpl in Hb.
        apply andb_false_iff in Hb. destruct Hb as [Hb | Hb];
          [now left|].
        apply Nat.eqb_neq in Hb. right. lia.
    + exists w. split; [assumption|]. split; [lia|].
      assert (Hom : Forall (fun t => (nRootDims (tensor t) <= m)%nat)
                           outputs).
      { apply Forall_app in Hall. tauto. }
      rewrite Forall_forall in *. intros t Ht.
      specialize (Hfind t Ht). specialize (Hom t Ht). simpl in Hfind.
      apply andb_false_iff in Hfind. destruct Hfind as [Hb | Hb];
        [now left|].
      apply Nat.eqb_neq in Hb. right. lia.
Qed.

(** X21.  The reference tensor of the scheduler: when every input that has
    uses and every output has zero root dimensions, there is nothing to
    schedule; otherwise the reference is the first output that has a
    definition and as many root dimensions as the widest of these tensors,
    and the scheduler fails exactly when some tensor is wider than every
    output that has a definition. *)
Theorem reference_is_widest_defined_output (inputs outputs : list FusionTv) :
  let all := filter hasUses inputs ++ outputs in
  match selectReference inputs outputs with
  | inr AllZeroDim =>
      Forall (fun t => nRootDims (tensor t) = 0%nat) all
  | inr (ReferenceTv r) =>
      hasDefinition r = true /\
      (0 < nRootDims (tensor r))%nat /\
      Forall (fun t => (nRootDims (tensor t) <= nRootDims (tensor r))%nat)
             all /\
      exists before after,
        outputs = before ++ r :: after /\
        Forall
          (fun t => hasDefinition t = false \/
                    (nRootDims (tensor t) < nRootDims (tensor r))%nat)
          before
  | inl _ =>
      exists t,
        In t all /\ (0 < nRootDims (tensor t))%nat /\
        Forall
          (fun o => hasDefinition o = false \/
                    (nRootDims (tensor o) < nRootDims (tensor t))%nat)
          outputs
  end.
Proof. apply reference_spec. Qed.

Lemma innerMostLoop_spec (reversed : list IterDomain) :
  forall inner_most_id,
    match innerMostLoop reversed inner_most_id with
    | Some id =>
        (Some id = inner_most_id /\
         Forall (fun a => isReduction a = true) reversed) \/
        (exists skipped rest,
            reversed = skipped ++ id :: rest /\
            isReduction id = false /\
            Forall (fun a => isReduction a = true) skipped)
    | None =>
        inner_most_id = None /\
        Forall (fun a => isReduction a = true) reversed
    end.
Proof.
  induction reversed as [|it rest IH]; intros o; simpl.
  - destruct o; [left|]; split; constructor.
  - destruct (isReduction it) eqn:E.
    + specialize (IH o).
      destruct (innerMostLoop rest o) as [id|].
      * destruct IH as [[Ho Hall] | (sk & r & Hl & Hid & Hsk)].
        -- left. split; [assumption|]. constructor; assumption.
        -- right. exists (it :: sk), r. subst rest.
           repeat split; try assumption. constructor; assumption.
      * destruct IH as [Ho Hall]. split; [assumption|].
        constructor; assumption.
    + right. exists [], rest. repeat split; [assumption | constructor].
Qed.

(** X22.  The inner-most axis the scheduler vectorizes along is the last
    axis of the reference tensor that is not a reduction, whether or not it
    is a broadcast; there is none, and the scheduler fails, exactly when
    every axis is a reduction. *)
Theorem inner_most_is_last_non_reduction (td : TensorDomain) :
  match innerMostId td with
  | Some id =>
      exists before after,
        td = before ++ id :: after /\
        isReduction id = false /\
        Forall (fun a => isReduction a = true) after
  | None => Forall (fun a => isReduction a = true) td
  end.
Proof.
  unfold innerMostId.
  pose proof (innerMostLoop_spec (rev td) None) as H.
  destruct (innerMostLoop (rev td) None) as [id|].
  - destruct H as [[Ho _] | (sk & r & Hl & Hid & Hsk)]; [discriminate|].
    exists (rev r), (rev sk).
    apply (f_equal (@rev IterDomain)) in Hl.
    rewrite rev_involutive, rev_app_distr in Hl. simpl in Hl.
    rewrite <- app_assoc in Hl. simpl in Hl.
    repeat split; try assumption.
    apply Forall_rev. assumption.
  - destruct H as [_ H]. apply Forall_rev in H.
    now rewrite rev_involutive in H.
Qed.

Lemma clearVectorizeDomain_spec (td : TensorDomain) :
  Forall (fun id => getParallelType id <> Vectorize)
         (clearVectorizeDomain td) /\
  Forall2
    (fun id id' =>
       extent id' = extent id /\
       isReduction id' = isReduction id /\
       isBroadcast id' = isBroadcast id /\
       (getParallelType id <> Vectorize -> id' = id) /\
       (getParallelType id = Vectorize -> getParallelType id' = Serial))
    td (clearVectorizeDomain td).
Proof.
  unfold clearVectorizeDomain.
  induction td as [|id td [IH1 IH2]]; simpl;
    [split; constructor|].
  destruct (ParallelType_eqb (getParallelType id) Vectorize) eqn:E.
  - apply ParallelType_eqb_eq in E. split; constructor; try assumption.
    + simpl. discriminate.
    + simpl. repeat split; try reflexivity. intros H. contradiction.
  - apply ParallelType_eqb_neq in E. split; constructor; try assumption.
    repeat split; try reflexivity. intros H. contradiction.
Qed.

Lemma clearVectorizeDomain_fixed (td : TensorDomain) :
  Forall (fun id => getParallelType id <> Vectorize) td ->
  clearVectorizeDomain td = td.
Proof.
  unfold clearVectorizeDomain.
  induction 1 as [|id td Hid _ IH]; simpl; [reflexivity|].
  apply ParallelType_eqb_neq in Hid. now rewrite Hid, IH.
Qed.

(** X23.  The clean-up of vectorization: a tensor of the vectorized set is
    left as it is; in every other tensor no axis stays vectorized, the
    vectorized axes become serial and keep their extent, and the other axes
    are unchanged.  Names and order of the tensors are kept, cleaning twice
    is cleaning once, and nothing is done when the schedule does not
    vectorize. *)
Theorem vectorize_cleanup (vectorized_tensor : list nat)
    (all_tvs : list TensorView) :
  let cleared := clearVectorize true vectorized_tensor all_tvs in
  Forall2
    (fun tv tv' =>
       tv_name tv' = tv_name tv /\
       if existsb (Nat.eqb (tv_name tv)) vectorized_tensor
       then tv' = tv
       else
         Forall (fun id => getParallelType id <> Vectorize) (domain tv') /\
         Forall2
           (fun id id' =>
              extent id' = extent id /\
              (getParallelType id <> Vectorize -> id' = id) /\
              (getParallelType id = Vectorize ->
               getParallelType id' = Serial))
           (domain tv) (domain tv'))
    all_tvs cleared /\
  clearVectorize true vectorized_tensor cleared = cleared /\
  clearVectorize false vectorized_tensor all_tvs = all_tvs.
Proof.
  cbv zeta. unfold clearVectorize. split; [|split; [|reflexivity]].
  - induction all_tvs as [|tv l IH]; simpl; constructor; [|exact IH].
    destruct (existsb (Nat.eqb (tv_name tv)) vectorized_tensor);
      [split; reflexivity|].
    simpl. split; [reflexivity|].
    destruct (clearVectorizeDomain_spec (domain tv)) as [H1 H2].
    split; [exact H1|].
    eapply Forall2_impl; [|exact H2]. simpl. tauto.
  - induction all_tvs as [|tv l IH]; simpl; [reflexivity|].
    rewrite IH. f_equal.
    destruct (existsb (Nat.eqb (tv_name tv)) vectorized_tensor) eqn:E.
    + now rewrite E.
    + simpl. rewrite E.
      destruct (clearVectorizeDomain_spec (domain tv)) as [H1 _].
      now rewrite (clearVectorizeDomain_fixed _ H1).
Qed.

Lemma find_index_spec {A : Type} (p : A -> bool) (l : list A) :
  match find_index p l with
  | Some i =>
      exists before x after,
        l = before ++ x :: after /\ p x = true /\
        Forall (fun y => p y = false) before /\ i = List.length before
  | None => Forall (fun y => p y = false) l
  end.
Proof.
  induction l as [|a l IH]; simpl; [constructor|].
  destruct (p a) eqn:E.
  - exists [], a, l. repeat split; [assumption | constructor].
  - destruct (find_index p l) as [i|].
    + destruct IH as (b & x & c & Hl & Hx & Hb & Hi).
      exists (a :: b), x, c. subst l. repeat split; try assumption.
      * constructor; assumption.
      * simpl. now rewrite Hi.
    + constructor; assumption.
Qed.

(** X24.  The compute-at position inside the unswitch is -1 exactly when no
    axis is an Unswitch axis; otherwise it is the number of axes up to and
    including the first Unswitch axis, so it lies between 1 and the number
    of axes. *)
Theorem unswitch_position (td : TensorDomain) :
  (unswitchPos td = -1 /\
   Forall (fun id => getParallelType id <> Unswitch) td) \/
  (exists before id after,
      td = before ++ id :: after /\
      getParallelType id = Unswitch /\
      Forall (fun a => getParallelType a <> Unswitch) before /\
      unswitchPos td = Z.of_nat (List.length before) + 1 /\
      1 <= unswitchPos td <= Z.of_nat (List.length td)).
Proof.
  unfold unswitchPos.
  pose proof (find_index_spec
                (fun id => ParallelType_eqb (getParallelType id) Unswitch)
                td) as H.
  destruct (find_index _ td) as [i|].
  - right. destruct H as (b & x & a & Hl & Hx & Hb & Hi).
    exists b, x, a. apply ParallelType_eqb_eq in Hx.
    repeat split; try assumption.
    + eapply Forall_impl; [|exact Hb]. simpl. intros y Hy.
      now apply ParallelType_eqb_neq in Hy.
    + now rewrite Hi.
    + lia.
    + rewrite Hl, length_app. simpl. lia.
  - left. split; [reflexivity|].
    eapply Forall_impl; [|exact H]. simpl. intros y Hy.
    now apply ParallelType_eqb_neq in Hy.
Qed.

Lemma countedDims_nRootDims (tv : TensorView) :
  SearchNotions.countedDims tv = Z.of_nat (nRootDims tv).
Proof.
  unfold SearchNotions.countedDims, nRootDims,
    Pointwise.nonReductionNonBroadcast.
  do 2 f_equal. apply filter_ext. intros id. apply negb_orb.
Qed.

Lemma two_splits {A : Type} (b1 : list A) :
  forall (x : A) (a1 b2 : list A) (y : A) (a2 : list A),
    b1 ++ x :: a1 = b2 ++ y :: a2 ->
    x = y \/ (In x b2 /\ In y a1) \/ (In y b1 /\ In x a2).
Proof.
  induction b1 as [|h b1 IH]; intros x a1 b2 y a2 H.
  - destruct b2 as [|h2 b2]; simpl in H; inversion H; subst.
    + now left.
    + right. left. split; [now left|]. apply in_or_app. right. now left.
  - destruct b2 as [|h2 b2]; simpl in H; inversion H; subst.
    + right. right. split; [now left|]. apply in_or_app. right. now left.
    + destruct (IH _ _ _ _ _ H2) as [E | [[H3 H4] | [H3 H4]]].
      * now left.
      * right. left. split; [now right | assumption].
      * right. right. split; [now right | assumption].
Qed.

(** X25.  The heuristic and the scheduler agree on the reference tensor:
    when every output has a definition and the scheduler finds its
    reference among the outputs, that tensor is the one the heuristic
    selected as the largest output. *)
Theorem heuristic_and_scheduler_agree (inputs outputs : list FusionTv)
    (r : FusionTv) :
  Forall (fun o => hasDefinition o = true) outputs ->
  selectReference inputs outputs = inr (ReferenceTv r) ->
  fst (Pointwise.selectLargestOut (map tensor outputs)) = Some (tensor r).
Proof.
  intros Hdef Href.
  pose proof (reference_spec inputs outputs) as Hs.
  cbv zeta in Hs. rewrite Href in Hs.
  destruct Hs as (_ & Hpos & Hall & b & a & Hl & Hb).
  apply Forall_app in Hall. destruct Hall as [_ Hout].
  pose proof (LaunchProps.selectLargestOut_spec (map tensor outputs)) as Hh.
  destruct (Pointwise.selectLargestOut (map tensor outputs))
    as [[tv|] n]; cbn [fst].
  - destruct Hh as (_ & b' & a' & Hl' & Hb' & Ha').
    f_equal.
    rewrite Hl, map_app in Hl'. simpl in Hl'.
    rewrite Forall_forall in Hb', Ha', Hb, Hout, Hdef.
    destruct (two_splits _ _ _ _ _ _ Hl') as [E | [[H1 H2] | [H1 H2]]].
    + now symmetry.
    + exfalso. specialize (Hb' _ H1).
      apply in_map_iff in H2. destruct H2 as (o & Ho & Hin).
      assert (Hino : In o outputs)
        by (rewrite Hl; apply in_or_app; right; now right).
      specialize (Hout o Hino). simpl in Hout.
      rewrite !countedDims_nRootDims in Hb'. rewrite <- Ho in Hb'. lia.
    + exfalso. specialize (Ha' _ H2).
      apply in_map_iff in H1. destruct H1 as (o & Ho & Hin).
      specialize (Hb o Hin). simpl in Hb.
      assert (Hino : In o outputs)
        by (rewrite Hl; apply in_or_app; now left).
      specialize (Hdef o Hino). simpl in Hdef.
      destruct Hb as [Hb | Hb]; [congruence|].
      rewrite !countedDims_nRootDims in Ha'. rewrite <- Ho in Ha'. lia.
  - destruct Hh as [He _]. rewrite Hl, map_app in He.
    symmetry in He. now apply app_cons_not_nil in He.
Qed.

Lemma heuristic_and_scheduler_agree_witness :
  let wide := mkFusionTv Examples.pointwiseOut false true in
  let narrow :=
    mkFusionTv (mkTensorView 1 DT_Float [Examples.axisOf "i1"]
                             [Examples.axisOf "i1"]) true true in
  fst (Pointwise.selectLargestOut (map tensor [narrow; wide; wide]))
    = Some (tensor wide).
Proof.
  intros wide narrow.
  apply (heuristic_and_scheduler_agree [narrow] [narrow; wide; wide] wide).
  - repeat constructor.
  - reflexivity.
Defined.

End ScheduleProps.
